(** * SoftoVault SDK: the retrying request executor, the TTL cache and the
    secret access facade of [class Vault], embedded in Rocq.

    The JavaScript of the class is translated method by method.  Values are
    a small universe of JavaScript values, objects and [Map]s are finite
    maps, and an [async] method is a tree of the effects it performs:
    reading the clock, reading and writing the instance, awaiting [fetch]
    and awaiting a timer.  A sequential interpreter runs one call against a
    scripted backend; an event loop runs the concurrent calls of
    [getMany]. *)

From Stdlib Require Import ZArith Lia Ascii.
From stdpp Require Import gmap strings list fin_maps pretty.

Set Warnings "-register-all".
Local Open Scope Z_scope.

(** ** JavaScript values *)

(** Numbers are the integer-valued ones; [NaN] and fractions are outside the
    model.  A JavaScript number is a double: the integer [n] stands for the
    double nearest to it (see [nearest_double]), which is [n] itself up to
    [2^53]. *)
Inductive jsval : Type :=
| JUndefined
| JNull
| JBool (b : bool)
| JNum (n : Z)
| JStr (s : string)
| JArr (l : list jsval)
| JObj (o : gmap string jsval).

(** An options bag, a header bag, a JSON object: the own properties of an
    object whose prototype is [Object.prototype].  [JSON.parse] defines every
    name, [__proto__] included, as an own property.  The one object this code
    assigns to by computed name, [results] of [getMany], has the type
    [object] below. *)
Abbreviation jsobj := (gmap string jsval).

(** [!!v], as the conditions of [if], [||] and [&&] read a value. *)
Definition truthy (v : jsval) : bool :=
  match v with
  | JUndefined | JNull => false
  | JBool b => b
  | JNum n => negb (n =? 0)
  | JStr s => negb (bool_decide (s = ""))
  | JArr _ | JObj _ => true
  end.

Definition typeof (v : jsval) : string :=
  match v with
  | JUndefined => "undefined"
  | JNull => "object"
  | JBool _ => "boolean"
  | JNum _ => "number"
  | JStr _ => "string"
  | JArr _ | JObj _ => "object"
  end.

(** The double nearest to the positive integer [n], ties going to the even
    significand of 53 bits.  From [2^1024] on it stands for [Infinity]. *)
Definition nearest_double (n : Z) : Z :=
  let u := 2 ^ Z.max 0 (Z.log2 n - 52) in
  let q := n / u in
  let r := n mod u in
  if (u <? 2 * r) || ((u =? 2 * r) && Z.odd q) then (q + 1) * u else q * u.

(** The integer of fewest significant digits that still denotes the double
    [d]: multiples of [10^j] next to [d] are tried for [j], [j - 1], ...; of
    two that fit, the nearer one, then the one with the even last digit. *)
Fixpoint shortest (d : Z) (j : nat) : Z :=
  let p := 10 ^ Z.of_nat j in
  let lo := d / p * p in
  let hi := lo + p in
  match nearest_double lo =? d, nearest_double hi =? d with
  | true, true =>
      if d - lo <? hi - d then lo
      else if hi - d <? d - lo then hi
      else if Z.even (lo / p) then lo else hi
  | true, false => lo
  | false, true => hi
  | false, false =>
      match j with
      | O => d
      | S j' => shortest d j'
      end
  end.

Fixpoint strip_zeros (s : string) : string :=
  match s with
  | EmptyString => EmptyString
  | String a s' =>
      let t := strip_zeros s' in
      if bool_decide (t = "") && bool_decide (a = "0"%char) then ""
      else String a t
  end.

(** [Number.prototype.toString] on an integer-valued number: the shortest
    digits that read back as the same double, written out in full up to 21
    digits and as [d.ddde+x] beyond. *)
Definition Number_toString (n : Z) : string :=
  if n =? 0 then "0"
  else
    let sign := if n <? 0 then "-" else "" in
    let d := nearest_double (Z.abs n) in
    if 2 ^ 1024 <=? d then sign +:+ "Infinity"
    else
      let digits := pretty (shortest d (String.length (pretty d))) in
      if (String.length digits <=? 21)%nat then sign +:+ digits
      else
        let e := "e+" +:+ pretty (Z.of_nat (String.length digits) - 1) in
        match strip_zeros digits with
        | String a EmptyString => sign +:+ String a e
        | String a rest => sign +:+ String a ("." +:+ rest +:+ e)
        | EmptyString => sign +:+ digits
        end.

(** [String(v)]: what a template literal, [new Error(v)] and a property key
    make of [v]; [None] when the conversion throws a [TypeError].  An array
    joins its elements.  An object converts through its [toString] property:
    [Object.prototype.toString] unless it has an own property of that name,
    which in a value made of data is not a function, and then nothing
    converts it. *)
Fixpoint ToString (v : jsval) : option string :=
  match v with
  | JUndefined => Some "undefined"
  | JNull => Some "null"
  | JBool true => Some "true"
  | JBool false => Some "false"
  | JNum n => Some (Number_toString n)
  | JStr s => Some s
  | JArr l =>
      String.concat "," <$>
        (fix join (l : list jsval) : option (list string) :=
           match l with
           | [] => Some []
           | x :: l' =>
               match
                 match x with
                 | JUndefined | JNull => Some ""
                 | _ => ToString x
                 end
               with
               | None => None
               | Some s => cons s <$> join l'
               end
           end) l
  | JObj o =>
      if bool_decide (is_Some (o !! "toString")) then None
      else Some "[object Object]"
  end.

(** [o.p] on an object: [undefined] for a missing property. *)
Definition prop (o : jsobj) (p : string) : jsval := default JUndefined (o !! p).

(** [x !== false] *)
Definition strict_ne_false (v : jsval) : bool :=
  match v with
  | JBool false => false
  | _ => true
  end.

(** The own enumerable properties that [{...v}] copies. *)
Definition spread (v : jsval) : jsobj :=
  match v with
  | JObj o => o
  | JArr l => list_to_map (imap (fun i x => (pretty (Z.of_nat i), x)) l)
  | JStr s =>
      list_to_map
        (imap (fun i c => (pretty (Z.of_nat i), JStr (String c EmptyString)))
              (String.list_ascii_of_string s))
  | _ => ∅
  end.

(** [s.includes(needle)] *)
Fixpoint includes (needle s : string) : bool :=
  String.prefix needle s ||
  match s with
  | EmptyString => false
  | String _ s' => includes needle s'
  end.

(** ** Errors *)

(** An [Error] object with the fields this code attaches to it.  [status],
    [statusText] and [data] are [None] when the property was never set. *)
Record error : Type := mkError {
  ename : string;
  message : string;
  status : option Z;
  statusText : option string;
  data : option jsval
}.

(** [new Error(msg)] *)
Definition new_Error (msg : string) : error :=
  {| ename := "Error"; message := msg;
     status := None; statusText := None; data := None |}.

(** The [TypeError] of reading property [p] of [null] or [undefined]. *)
Definition TypeError_read (of_ p : string) : error :=
  {| ename := "TypeError";
     message := "Cannot read properties of " +:+ of_ +:+ " (reading '" +:+ p +:+ "')";
     status := None; statusText := None; data := None |}.

(** The [TypeError] of converting to a string an object that no [toString]
    or [valueOf] turns into a primitive. *)
Definition TypeError_convert : error :=
  {| ename := "TypeError";
     message := "Cannot convert object to primitive value";
     status := None; statusText := None; data := None |}.

(** The rejection of [response.json()] on a body that is not JSON. *)
Definition SyntaxError (msg : string) : error :=
  {| ename := "SyntaxError"; message := msg;
     status := None; statusText := None; data := None |}.

(** The rejection of [fetch] when the connection fails. *)
Definition NetworkError (msg : string) : error :=
  {| ename := "TypeError"; message := msg;
     status := None; statusText := None; data := None |}.

(** The rejection of [fetch] when [controller.abort()] fires first. *)
Definition AbortError : error :=
  {| ename := "AbortError"; message := "This operation was aborted";
     status := None; statusText := None; data := None |}.

(** How a promise settles. *)
Inductive settled (A : Type) : Type :=
| Fulfilled (a : A)
| Rejected (e : error).
Arguments Fulfilled {A} a.
Arguments Rejected {A} e.

(** [v.p] on an arbitrary value, for the property names this code reads
    ([message], [value], [secrets]): none of them is a property of a number,
    a boolean, a string or an array, so those give [undefined]. *)
Definition get_prop (v : jsval) (p : string) : settled jsval :=
  match v with
  | JNull => Rejected (TypeError_read "null" p)
  | JUndefined => Rejected (TypeError_read "undefined" p)
  | JObj o => Fulfilled (prop o p)
  | _ => Fulfilled JUndefined
  end.

(** ** The transport *)

(** What [response.json()] gives: the parsed value, or a [SyntaxError]. *)
Inductive body : Type :=
| Parsed (v : jsval)
| Malformed (syntax_message : string).

Record response : Type := mkResponse {
  r_status : Z;
  r_statusText : string;
  r_body : body
}.

(** [response.ok] *)
Definition ok (r : response) : bool :=
  (200 <=? r_status r) && (r_status r <=? 299).

(** What the remote end does with one request: after [latency] milliseconds
    the status line and the headers of its answer are there, or the
    connection has failed; the body of an answer takes [reading] milliseconds
    more. *)
Inductive answer : Type :=
| Responds (r : response)
| ConnectionFails (msg : string).

Record reply : Type := mkReply {
  latency : Z;
  reading : Z;
  outcome : answer
}.

(** A request as [fetch] receives it: the URL and the init object. *)
Definition request : Type := string * jsobj.

(** A scripted backend: the reply to the [n]-th request it receives. *)
Definition backend : Type := nat -> request -> reply.

(** [fetch] raced against [setTimeout(() => controller.abort(), timeout)]:
    a reply that has not arrived when the timer fires is lost.  [fetch]
    resolves with the headers, and [clearTimeout] runs then: the body is read
    with no timer. *)
Definition settle (timeout : Z) (rp : reply) : settled response :=
  if latency rp <? timeout then
    match outcome rp with
    | Responds r => Fulfilled r
    | ConnectionFails msg => Rejected (NetworkError msg)
    end
  else Rejected AbortError.

(** Milliseconds until the attempt goes on: [fetch] settled and, for an
    answer, [response.json()] settled too. *)
Definition elapsed (timeout : Z) (rp : reply) : Z :=
  if latency rp <? timeout then
    Z.max 0 (latency rp) +
    match outcome rp with
    | Responds _ => Z.max 0 (reading rp)
    | ConnectionFails _ => 0
    end
  else Z.max 0 timeout.

(** ** The instance *)

(** [this.config] as the constructor leaves it.  [retries] is a count: a
    negative or fractional number of retries is outside the model. *)
Record VaultConfig : Type := mkConfig {
  apiUrl : string;
  timeout : Z;
  retries : nat;
  config_cache : bool;          (* config.cache *)
  cacheTTL : Z
}.

(** [this]: the key, the configuration and the two [Map]s of the cache.
    When [config.cache] is false the constructor creates no [Map]; every
    access to them is behind a test of [config.cache], so the model keeps
    two maps that nothing reads or writes. *)
Record Vault : Type := mkVault {
  apiKey : string;
  config : VaultConfig;
  cache : jsobj;
  cacheTimestamps : gmap string Z
}.

Definition set_cache (c : jsobj) (ts : gmap string Z) (this : Vault) : Vault :=
  {| apiKey := apiKey this; config := config this;
     cache := c; cacheTimestamps := ts |}.

(** ** Asynchronous computations *)

(** The effects of a method, in the order it performs them.  [Fetch] and
    [Sleep] are the two places where an [async] method suspends. *)
Inductive Async (A : Type) : Type :=
| Ret (a : A)
| Throw (e : error)
| DateNow (k : Z -> Async A)
| This (k : Vault -> Async A)
| SetThis (v : Vault) (k : Async A)
| Fetch (url : string) (init : jsobj) (timeout : Z)
        (k : settled response -> Async A)
| Sleep (ms : Z) (k : Async A).
Arguments Ret {A} a.
Arguments Throw {A} e.
Arguments DateNow {A} k.
Arguments This {A} k.
Arguments SetThis {A} v k.
Arguments Fetch {A} url init timeout k.
Arguments Sleep {A} ms k.

Fixpoint bind {A B : Type} (m : Async A) (f : A -> Async B) : Async B :=
  match m with
  | Ret a => f a
  | Throw e => Throw e
  | DateNow k => DateNow (fun t => bind (k t) f)
  | This k => This (fun v => bind (k v) f)
  | SetThis v k => SetThis v (bind k f)
  | Fetch url init tmo k => Fetch url init tmo (fun r => bind (k r) f)
  | Sleep ms k => Sleep ms (bind k f)
  end.

(** [try { m } catch (error) { h error }] *)
Fixpoint try_catch {A : Type} (m : Async A) (h : error -> Async A) : Async A :=
  match m with
  | Ret a => Ret a
  | Throw e => h e
  | DateNow k => DateNow (fun t => try_catch (k t) h)
  | This k => This (fun v => try_catch (k v) h)
  | SetThis v k => SetThis v (try_catch k h)
  | Fetch url init tmo k => Fetch url init tmo (fun r => try_catch (k r) h)
  | Sleep ms k => Sleep ms (try_catch k h)
  end.

(** A settled value as a computation: return it or throw it. *)
Definition of_settled {A : Type} (s : settled A) : Async A :=
  match s with
  | Fulfilled a => Ret a
  | Rejected e => Throw e
  end.

#[global] Instance Async_ret : MRet Async := @Ret.
#[global] Instance Async_bind : MBind Async := fun A B f m => bind m f.

(** ** Retrying request executor *)

(** [encodeURIComponent] on a string held as its UTF-8 bytes: the
    unreserved characters stay, every other byte becomes [%XX]. *)
Definition unreserved (c : Ascii.ascii) : bool :=
  let n := Z.of_N (Ascii.N_of_ascii c) in
  ((65 <=? n) && (n <=? 90)) || ((97 <=? n) && (n <=? 122)) ||
  ((48 <=? n) && (n <=? 57)) ||
  bool_decide (c ∈ String.list_ascii_of_string "-_.!~*'()").

Definition hex_digit (n : N) : Ascii.ascii :=
  default "0"%char (String.list_ascii_of_string "0123456789ABCDEF" !! N.to_nat n).

Fixpoint encodeURIComponent (s : string) : string :=
  match s with
  | EmptyString => EmptyString
  | String c s' =>
      if unreserved c then String c (encodeURIComponent s')
      else
        let n := Ascii.N_of_ascii c in
        String "%" (String (hex_digit (n / 16)%N)
                      (String (hex_digit (n mod 16)%N) (encodeURIComponent s')))
  end.

(** The [requestOptions] literal:
    [{ headers: { Authorization, Content-Type, User-Agent, ...options.headers },
       timeout: this.config.timeout, ...options }].
    A later property wins, so the union is biased to the later operand. *)
Definition default_headers (this : Vault) : jsobj :=
  {[ "Authorization" := JStr ("Bearer " +:+ apiKey this);
     "Content-Type" := JStr "application/json";
     "User-Agent" := JStr "SoftoVault-SDK/0.1.0" ]}.

Definition requestOptions (this : Vault) (options : jsobj) : jsobj :=
  options ∪
  {[ "headers" := JObj (spread (prop options "headers") ∪ default_headers this);
     "timeout" := JNum (timeout (config this)) ]}.

(** [response.json().catch(() => ({}))] *)
Definition json_or_empty (b : body) : jsval :=
  match b with
  | Parsed v => v
  | Malformed _ => JObj ∅
  end.

(** The body of the [try]: what one attempt returns or throws, given how
    [fetch] settled.  [new Error(m)] converts [m] to a string, and a
    conversion that throws leaves the [try] before [status] is attached. *)
Definition try_body (r : settled response) : settled jsval :=
  match r with
  | Rejected e => Rejected e
  | Fulfilled response =>
      if negb (ok response) then
        let errorData := json_or_empty (r_body response) in
        match get_prop errorData "message" with
        | Rejected e => Rejected e
        | Fulfilled m =>
            match
              if truthy m then ToString m
              else Some ("HTTP " +:+ Number_toString (r_status response)
                           +:+ ": " +:+ r_statusText response)
            with
            | None => Rejected TypeError_convert
            | Some msg =>
                Rejected
                  {| ename := "Error";
                     message := msg;
                     status := Some (r_status response);
                     statusText := Some (r_statusText response);
                     data := Some errorData |}
            end
        end
      else
        match r_body response with
        | Parsed v => Fulfilled v
        | Malformed msg => Rejected (SyntaxError msg)
        end
  end.

(** [error.status >= 400 && error.status < 500 && error.status !== 429];
    every comparison with a missing [status] is false. *)
Definition client_error (e : error) : bool :=
  match status e with
  | Some s => (400 <=? s) && (s <? 500) && negb (s =? 429)
  | None => false
  end.

(** [Math.pow(2, attempt) * 1000] *)
Definition backoff (attempt : nat) : Z := 2 ^ Z.of_nat attempt * 1000.

(** The [for] loop from iteration [attempt] on, with
    [remaining = retries - attempt] iterations after this one, so that
    [remaining = 0] is the test [attempt === this.config.retries].  The last
    iteration always returns or throws: the [throw lastError] after the loop
    is not reached. *)
Fixpoint attempts (url : string) (init : jsobj) (tmo : Z)
    (remaining attempt : nat) : Async jsval :=
  try_catch
    (Fetch url init tmo (fun r => of_settled (try_body r)))
    (fun error =>
       if client_error error then Throw error
       else
         match remaining with
         | O => Throw error
         | S remaining' =>
             Sleep (backoff attempt)
                   (attempts url init tmo remaining' (S attempt))
         end).

Definition _makeRequest (endpoint : string) (options : jsobj) : Async jsval :=
  This (fun this =>
    let url := apiUrl (config this) +:+ endpoint in
    attempts url (requestOptions this options) (timeout (config this))
             (retries (config this)) 0).

(** ** TTL cache *)

(** [_isCacheValid(key)] at clock reading [now]; the result is the value of
    [timestamp && (Date.now() - timestamp) < this.config.cacheTTL], which is
    [undefined] or [0] when the timestamp is. *)
Definition _isCacheValid (this : Vault) (now : Z) (key : string) : jsval :=
  if negb (config_cache (config this))
     || negb (bool_decide (is_Some (cache this !! key)))
  then JBool false
  else
    match cacheTimestamps this !! key with
    | None => JUndefined
    | Some timestamp =>
        if truthy (JNum timestamp)
        then JBool (now - timestamp <? cacheTTL (config this))
        else JNum timestamp
    end.

Definition _setCache (this : Vault) (now : Z) (key : string) (value : jsval)
    : Vault :=
  if negb (config_cache (config this)) then this
  else set_cache (<[key := value]> (cache this))
                 (<[key := now]> (cacheTimestamps this)) this.

Definition clearCache (this : Vault) : Vault :=
  if config_cache (config this) then set_cache ∅ ∅ this else this.

(** ** Secret access facade *)

(** Past the test of its first line [key] is a string, and each [${key}] of
    the templates is that string, [name] below. *)
Definition get (key : jsval) (options : jsobj) : Async jsval :=
  if negb (truthy key) || negb (bool_decide (typeof key = "string")) then
    Throw (new_Error "Secret key must be a non-empty string")
  else
    let useCache := strict_ne_false (prop options "useCache") in
    match ToString key with
    | None => Throw TypeError_convert
    | Some name =>
        let cacheKey := "secret:" +:+ name in
        This (fun this => DateNow (fun now =>
          if useCache && truthy (_isCacheValid this now cacheKey) then
            Ret (prop (cache this) cacheKey)
          else
            try_catch
              (data ← _makeRequest ("/key/" +:+ encodeURIComponent name) ∅;
               value ← of_settled (get_prop data "value");
               if useCache then
                 This (fun this => DateNow (fun now =>
                   SetThis (_setCache this now cacheKey value) (Ret value)))
               else Ret value)
              (fun error =>
                 if bool_decide (status error = Some 404) then
                   Throw (new_Error
                            ("Secret with key '" +:+ name +:+ "' not found"))
                 else Throw error)))
    end.

Definition getAll (options : jsobj) : Async jsval :=
  let useCache := strict_ne_false (prop options "useCache") in
  let cacheKey := "secrets:all" in
  This (fun this => DateNow (fun now =>
    if useCache && truthy (_isCacheValid this now cacheKey) then
      Ret (prop (cache this) cacheKey)
    else
      data ← _makeRequest "/all" ∅;
      s ← of_settled (get_prop data "secrets");
      let secrets := if truthy s then s else JObj ∅ in
      if useCache then
        This (fun this => DateNow (fun now =>
          SetThis (_setCache this now cacheKey secrets) (Ret secrets)))
      else Ret secrets)).

Definition exists_ (key : jsval) : Async jsval :=
  try_catch
    (_ ← get key ∅; Ret (JBool true))
    (fun error =>
       if bool_decide (status error = Some 404)
          || includes "not found" (message error)
       then Ret (JBool false)
       else Throw error).

Definition getVaultInfo : Async jsval := _makeRequest "/info" ∅.

(** ** The object that [getMany] fills *)

(** What an object inherits from: [Object.prototype] as for [{}], nothing,
    or a value. *)
Inductive prototype : Type :=
| Object_prototype
| null_prototype
| value_prototype (v : jsval).

(** An object that is assigned to by computed name: its own properties and
    its prototype. *)
Record object : Type := mkObject {
  own : jsobj;
  proto : prototype
}.

(** [{}] *)
Definition empty_object : object := {| own := ∅; proto := Object_prototype |}.

(** Whether the name [__proto__], looked up from the prototype [pr] on, is
    the accessor of [Object.prototype]: not under a null prototype, and not
    when the prototype is an object with an own property of that name. *)
Definition inherits_proto_accessor (pr : prototype) : bool :=
  match pr with
  | Object_prototype => true
  | null_prototype => false
  | value_prototype (JObj props) =>
      negb (bool_decide (is_Some (props !! "__proto__")))
  | value_prototype _ => true
  end.

(** [o[p] = v].  Every property that [o] can inherit here is a writable
    data property, for which the assignment defines [p] on [o] itself, but
    for [__proto__] of [Object.prototype]: its setter makes an object or
    [null] the prototype of [o], ignores every other value, and defines
    nothing. *)
Definition assign (o : object) (p : string) (v : jsval) : object :=
  if bool_decide (p = "__proto__")
     && negb (bool_decide (is_Some (own o !! p)))
     && inherits_proto_accessor (proto o)
  then
    match v with
    | JObj _ | JArr _ => {| own := own o; proto := value_prototype v |}
    | JNull => {| own := own o; proto := null_prototype |}
    | _ => o
    end
  else {| own := <[p := v]> (own o); proto := proto o |}.

(** ** Running against a backend *)

(** What the outside sees of a run, in order: a request sent by [fetch], a
    timer armed by the backoff. *)
Inductive event : Type :=
| Request (rq : request)
| Delay (ms : Z).

(** The instance, the clock ([Date.now()]) and the events so far. *)
Record world : Type := mkWorld {
  vault : Vault;
  now : Z;
  trace : list event
}.

(** The requests sent so far: the network calls. *)
Definition calls (w : world) : list request :=
  omap (fun ev => match ev with Request rq => Some rq | Delay _ => None end)
       (trace w).

(** The delays slept so far. *)
Definition sleeps (w : world) : list Z :=
  omap (fun ev => match ev with Delay ms => Some ms | Request _ => None end)
       (trace w).

Definition set_vault (v : Vault) (w : world) : world :=
  {| vault := v; now := now w; trace := trace w |}.

Definition log_call (rq : request) (w : world) : world :=
  {| vault := vault w; now := now w; trace := trace w ++ [Request rq] |}.

Definition log_sleep (ms : Z) (w : world) : world :=
  {| vault := vault w; now := now w; trace := trace w ++ [Delay ms] |}.

(** The clock when a suspended computation resumes; it never runs backwards. *)
Definition resume_at (wake : Z) (w : world) : world :=
  {| vault := vault w; now := Z.max (now w) wake; trace := trace w |}.

(** A computation between two suspensions, or finished. *)
Inductive task (A : Type) : Type :=
| Blocked (wake : Z) (resume : Async A)
| Done (r : settled A).
Arguments Blocked {A} wake resume.
Arguments Done {A} r.

Section Interpreters.

Variable remote : backend.

(** One call on its own: every [await] waits for its promise. *)
Fixpoint run {A : Type} (t : Async A) (w : world) : world * settled A :=
  match t with
  | Ret a => (w, Fulfilled a)
  | Throw e => (w, Rejected e)
  | DateNow k => run (k (now w)) w
  | This k => run (k (vault w)) w
  | SetThis v k => run k (set_vault v w)
  | Fetch url init tmo k =>
      let rp := remote (length (calls w)) (url, init) in
      run (k (settle tmo rp))
          (resume_at (now w + elapsed tmo rp) (log_call (url, init) w))
  | Sleep ms k =>
      run k (resume_at (now w + Z.max 0 ms) (log_sleep ms w))
  end.

(** Run to the next [await]: the request is sent or the timer armed, and the
    rest waits for its wake-up time. *)
Fixpoint advance {A : Type} (t : Async A) (w : world) : world * task A :=
  match t with
  | Ret a => (w, Done (Fulfilled a))
  | Throw e => (w, Done (Rejected e))
  | DateNow k => advance (k (now w)) w
  | This k => advance (k (vault w)) w
  | SetThis v k => advance k (set_vault v w)
  | Fetch url init tmo k =>
      let rp := remote (length (calls w)) (url, init) in
      (log_call (url, init) w,
       Blocked (now w + elapsed tmo rp) (k (settle tmo rp)))
  | Sleep ms k =>
      (log_sleep ms w, Blocked (now w + Z.max 0 ms) k)
  end.

(** The blocked task that wakes first (the earliest in the list on a tie),
    with its position counted from [i]. *)
Fixpoint next_event {A : Type} (ts : list (task A)) (i : nat)
    : option (nat * Z * Async A) :=
  match ts with
  | [] => None
  | Done _ :: ts' => next_event ts' (S i)
  | Blocked wake t :: ts' =>
      match next_event ts' (S i) with
      | Some (j, wake', t') =>
          if wake' <? wake then Some (j, wake', t') else Some (i, wake, t)
      | None => Some (i, wake, t)
      end
  end.

(** What a task adds to the completion log when it reaches [st]. *)
Definition completion {A : Type} (i : nat) (st : task A)
    : list (nat * settled A) :=
  match st with
  | Done r => [(i, r)]
  | Blocked _ _ => []
  end.

(** The event loop: wake the next task, run it to its next [await], until
    every task has settled.  [None] when [fuel] events were not enough. *)
Fixpoint event_loop {A : Type} (fuel : nat) (ts : list (task A))
    (log : list (nat * settled A)) (w : world)
    : option (world * list (nat * settled A)) :=
  match next_event ts 0 with
  | None => Some (w, log)
  | Some (i, wake, t) =>
      match fuel with
      | O => None
      | S fuel' =>
          let ws := advance t (resume_at wake w) in
          event_loop fuel' (<[i := ws.2]> ts) (log ++ completion i ws.2) ws.1
      end
  end.

(** [ts.map(async ...)]: each call runs synchronously to its first [await],
    in order; the ones that settle at once come first in the log. *)
Fixpoint start_all {A : Type} (ts : list (Async A)) (i : nat) (w : world)
    : world * (list (task A) * list (nat * settled A)) :=
  match ts with
  | [] => (w, ([], []))
  | t :: ts' =>
      let ws := advance t w in
      let rest := start_all ts' (S i) ws.1 in
      (rest.1, (ws.2 :: rest.2.1, completion i ws.2 ++ rest.2.2))
  end.

(** [await Promise.allSettled(ts)]: the world when the last task settles and
    the tasks, by position, in the order they settled. *)
Definition allSettled {A : Type} (fuel : nat) (ts : list (Async A)) (w : world)
    : option (world * list (nat * settled A)) :=
  let started := start_all ts 0 w in
  event_loop fuel started.2.1 started.2.2 started.1.

(** The body of the arrow function of [getMany] after its [get] settled:
    [results[key] = value], or in the [catch]
    [errors.push({ key, error: error.message })] or [results[key] = null].
    The key is converted to a property name when the value is stored; a
    conversion that throws in the [try] is caught like an error of [get], and
    one that throws in the [catch] rejects the promise of the arrow function,
    which [Promise.allSettled] does not look at. *)
Definition record_key (failOnMissing : bool) (key : jsval) (r : settled jsval)
    (acc : object * list (jsval * string)) : object * list (jsval * string) :=
  let caught (error : error) :=
    if failOnMissing then (acc.1, acc.2 ++ [(key, message error)])
    else
      match ToString key with
      | Some p => (assign acc.1 p JNull, acc.2)
      | None => acc
      end in
  match r with
  | Fulfilled value =>
      match ToString key with
      | Some p => (assign acc.1 p value, acc.2)
      | None => caught TypeError_convert
      end
  | Rejected error => caught error
  end.

(** [results] and [errors] once every task has run its body, in the order
    the tasks settled. *)
Definition collect (failOnMissing : bool) (keys : list jsval)
    (log : list (nat * settled jsval)) : object * list (jsval * string) :=
  foldl (fun acc c =>
           match keys !! c.1 with
           | Some key => record_key failOnMissing key c.2 acc
           | None => acc
           end) (empty_object, []) log.

(** [errors.map(e => `${e.key}: ${e.error}`).join(', ')]; [None] when a key
    does not convert and the template throws. *)
Definition errors_text (errors : list (jsval * string)) : option string :=
  String.concat ", " <$>
    mapM (fun e => (fun k => k +:+ ": " +:+ e.2) <$> ToString e.1) errors.

(** Each [get] suspends at most twice per attempt, which bounds the events
    of the loop. *)
Definition getMany_events (w : world) (n : nat) : nat :=
  (n * (2 * S (retries (config (vault w)))))%nat.

Definition getMany (keys : jsval) (options : jsobj) (w : world)
    : option (world * settled object) :=
  match keys with
  | JArr keys =>
      let failOnMissing := truthy (prop options "failOnMissing") in
      match allSettled (getMany_events w (length keys))
                       (map (fun key => get key options) keys) w with
      | None => None
      | Some (w', log) =>
          let acc := collect failOnMissing keys log in
          if (0 <? Z.of_nat (length acc.2)) && failOnMissing then
            match errors_text acc.2 with
            | Some text =>
                Some (w', Rejected (new_Error ("Failed to retrieve secrets: "
                                                +:+ text)))
            | None => Some (w', Rejected TypeError_convert)
            end
          else Some (w', Fulfilled acc.1)
      end
  | _ => Some (w, Rejected (new_Error "Keys must be an array"))
  end.

End Interpreters.


(** ** Vocabulary of the statements *)

(** Whether the executor goes on after a reply: the attempt threw, and not
    a 4xx other than 429. *)
Definition retryable (tmo : Z) (rp : reply) : bool :=
  match try_body (settle tmo rp) with
  | Rejected e => negb (client_error e)
  | Fulfilled _ => false
  end.

(** Whether [new Error(errorData.message || ...)] can be built from the body
    of an error response: [message] can be read, and is falsy or converts to
    a string. *)
Definition message_converts (errorData : jsval) : bool :=
  match get_prop errorData "message" with
  | Fulfilled m => negb (truthy m) || bool_decide (is_Some (ToString m))
  | Rejected _ => false
  end.

(** The events of [rem + 1] failed attempts for [rq], the first one numbered
    [att]: a delay between two requests, none after the last. *)
Fixpoint retry_trace (rq : request) (rem att : nat) : list event :=
  Request rq ::
  match rem with
  | O => []
  | S rem' => Delay (backoff att) :: retry_trace rq rem' (S att)
  end.

(** [suspends_le cfg n t]: on an instance whose configuration is [cfg] and
    stays [cfg], the computation [t] awaits at most [n] times. *)
Inductive suspends_le (cfg : VaultConfig) {A : Type} : nat -> Async A -> Prop :=
| sl_Ret n a : suspends_le cfg n (Ret a)
| sl_Throw n e : suspends_le cfg n (Throw e)
| sl_DateNow n k :
    (forall t, suspends_le cfg n (k t)) -> suspends_le cfg n (DateNow k)
| sl_This n k :
    (forall v, config v = cfg -> suspends_le cfg n (k v)) ->
    suspends_le cfg n (This k)
| sl_SetThis n v k :
    config v = cfg -> suspends_le cfg n k -> suspends_le cfg n (SetThis v k)
| sl_Fetch n url init tmo k :
    (forall r, suspends_le cfg n (k r)) ->
    suspends_le cfg (S n) (Fetch url init tmo k)
| sl_Sleep n ms k :
    suspends_le cfg n k -> suspends_le cfg (S n) (Sleep ms k).

(** The same bound for a task of the event loop: being blocked counts for
    one. *)
Definition task_le (cfg : VaultConfig) {A : Type} (n : nat) (st : task A) : Prop :=
  match st with
  | Done _ => True
  | Blocked _ t => (0 < n)%nat /\ suspends_le cfg (pred n) t
  end.

(** The settled tasks of a list, with their positions counted from [i]. *)
Fixpoint finished {A : Type} (ts : list (task A)) (i : nat)
    : list (nat * settled A) :=
  match ts with
  | [] => []
  | Done r :: ts' => (i, r) :: finished ts' (S i)
  | Blocked _ _ :: ts' => finished ts' (S i)
  end.

(** What [getMany] without [failOnMissing] stores for a key. *)
Definition value_or_null (r : settled jsval) : jsval :=
  match r with
  | Fulfilled value => value
  | Rejected _ => JNull
  end.

(** The keys whose [get] failed, each with the message of its error, in the
    order the calls settled. *)
Definition failures (keys : list jsval) (log : list (nat * settled jsval))
    : list (jsval * string) :=
  omap (fun c =>
          match c.2, keys !! c.1 with
          | Rejected e, Some key => Some (key, message e)
          | _, _ => None
          end) log.

(** Fixtures of the examples. *)

Definition example_config : VaultConfig :=
  {| apiUrl := "https://vault.test/api"; timeout := 10000; retries := 3;
     config_cache := true; cacheTTL := 300000 |}.

Definition example_vault : Vault :=
  {| apiKey := "sv-key"; config := example_config;
     cache := ∅; cacheTimestamps := ∅ |}.

Definition example_world : world :=
  {| vault := example_vault; now := 1700000000000; trace := [] |}.

(** A backend that gives the same response to every request: the headers
    after 10 ms, the body 2 ms later. *)
Definition always (st : Z) (text : string) (b : body) : backend :=
  fun _ _ => {| latency := 10; reading := 2;
                outcome := Responds (mkResponse st text b) |}.

(** A backend that holds secrets: 200 with the value for the URL of a key it
    has, 404 for every other URL, after 10 ms and 2 ms more for the body. *)
Definition secrets_backend (base : string) (store : list (string * jsval))
    : backend :=
  fun _ rq =>
    match
      list_find (fun kv => rq.1 = base +:+ "/key/" +:+ encodeURIComponent kv.1)
                store
    with
    | Some (_, kv) =>
        {| latency := 10; reading := 2;
           outcome := Responds (mkResponse 200 "OK"
                                  (Parsed (JObj {[ "value" := kv.2 ]}))) |}
    | None =>
        {| latency := 10; reading := 2;
           outcome := Responds (mkResponse 404 "Not Found" (Parsed (JObj ∅))) |}
    end.

(** An instance whose cache holds one secret, stored at [1700000000000]. *)
Definition cached_vault : Vault :=
  _setCache example_vault 1700000000000 "secret:API_KEY" (JStr "s3cret").

(** ** Construction and statistics *)

(** The [config] argument of the constructor, as [VaultConfig] of
    [index.d.ts] types it: each property is there or not.  A property that is
    there with the value [undefined] is outside the model. *)
Record VaultConfigArg : Type := mkConfigArg {
  arg_apiUrl : option string;
  arg_timeout : option Z;
  arg_retries : option nat;
  arg_cache : option bool;
  arg_cacheTTL : option Z
}.

(** [a || b] on strings that may be missing: the empty string and
    [undefined] are falsy. *)
Definition or_string (a b : option string) : option string :=
  match a with
  | Some s => if bool_decide (s = "") then b else a
  | None => b
  end.

(** [a || b] on numbers that may be missing: [0] and [undefined] are falsy. *)
Definition or_Z (a : option Z) (b : Z) : Z :=
  match a with
  | Some n => if n =? 0 then b else n
  | None => b
  end.

Definition or_nat (a : option nat) (b : nat) : nat :=
  match a with
  | Some n => if Nat.eqb n 0 then b else n
  | None => b
  end.

(** [{ p: d, ...config }]: the property of [config] wins when it is there. *)
Definition spread_over {A : Type} (d : A) (a : option A) : A := default d a.

Definition missing_key_message : string :=
  "Vault Access key is required. Provide it as parameter or set SOFTOVAULT_API_KEY environment variable".

(** [new Vault(apiKey, config)] with [process.env] as [env].  [apiKey] is
    [None] for [null] or [undefined]. *)
Definition new_Vault (apiKey : option string) (env : gmap string string)
    (config : VaultConfigArg) : settled Vault :=
  let key :=
    or_string (or_string apiKey (env !! "SOFTOVAULT_API_KEY"))
              (env !! "VAULT_ACCESS_KEY") in
  match key with
  | None => Rejected (new_Error missing_key_message)
  | Some k =>
      if bool_decide (k = "") then Rejected (new_Error missing_key_message)
      else
        Fulfilled
          {| apiKey := k;
             config :=
               {| apiUrl :=
                    spread_over
                      (default "https://softovault.com/api/vault"
                         (or_string (or_string (arg_apiUrl config)
                                               (env !! "SOFTOVAULT_API_URL"))
                                    (Some "https://softovault.com/api/vault")))
                      (arg_apiUrl config);
                  timeout :=
                    spread_over (or_Z (arg_timeout config) 10000)
                                (arg_timeout config);
                  retries :=
                    spread_over (or_nat (arg_retries config) 3)
                                (arg_retries config);
                  config_cache :=
                    spread_over
                      (match arg_cache config with
                       | Some false => false
                       | _ => true
                       end)
                      (arg_cache config);
                  cacheTTL :=
                    spread_over (or_Z (arg_cacheTTL config) 300000)
                                (arg_cacheTTL config) |};
             cache := ∅;
             cacheTimestamps := ∅ |}
  end.

(** [Vault.fromEnv(config)] *)
Definition fromEnv (env : gmap string string) (config : VaultConfigArg)
    : settled Vault :=
  new_Vault None env config.

(** [Vault.isValidApiKey(apiKey)] *)
Definition isValidApiKey (apiKey : jsval) : bool :=
  bool_decide (typeof apiKey = "string")
  && match apiKey with
     | JStr s => (0 <? Z.of_nat (String.length s))
     | _ => false
     end.

(** The object that [getCacheStats()] returns; the properties other than
    [enabled] are missing on a disabled cache.  [keys] is the array of the
    keys of [this.cache] up to its order. *)
Record CacheStats : Type := mkStats {
  enabled : bool;
  stats_size : option nat;      (* size *)
  stats_ttl : option Z;         (* ttl *)
  stats_keys : option (gset string)   (* keys *)
}.

Definition getCacheStats (this : Vault) : CacheStats :=
  if negb (config_cache (config this)) then
    {| enabled := false; stats_size := None; stats_ttl := None;
       stats_keys := None |}
  else
    {| enabled := true;
       stats_size := Some (size (cache this));
       stats_ttl := Some (cacheTTL (config this));
       stats_keys := Some (dom (cache this)) |}.

(** [preserves P t]: every instance that [t] writes satisfies [P], provided
    the instances it reads do. *)
Inductive preserves (P : Vault -> Prop) {A : Type} : Async A -> Prop :=
| pr_Ret a : preserves P (Ret a)
| pr_Throw e : preserves P (Throw e)
| pr_DateNow k : (forall t, preserves P (k t)) -> preserves P (DateNow k)
| pr_This k : (forall v, P v -> preserves P (k v)) -> preserves P (This k)
| pr_SetThis v k : P v -> preserves P k -> preserves P (SetThis v k)
| pr_Fetch url init tmo k :
    (forall r, preserves P (k r)) -> preserves P (Fetch url init tmo k)
| pr_Sleep ms k : preserves P k -> preserves P (Sleep ms k).

(** [fetches_le cfg n t]: on an instance whose configuration is [cfg] and
    stays [cfg], the computation [t] calls [fetch] at most [n] times. *)
Inductive fetches_le (cfg : VaultConfig) {A : Type} : nat -> Async A -> Prop :=
| fl_Ret n a : fetches_le cfg n (Ret a)
| fl_Throw n e : fetches_le cfg n (Throw e)
| fl_DateNow n k :
    (forall t, fetches_le cfg n (k t)) -> fetches_le cfg n (DateNow k)
| fl_This n k :
    (forall v, config v = cfg -> fetches_le cfg n (k v)) ->
    fetches_le cfg n (This k)
| fl_SetThis n v k :
    config v = cfg -> fetches_le cfg n k -> fetches_le cfg n (SetThis v k)
| fl_Fetch n url init tmo k :
    (forall r, fetches_le cfg n (k r)) ->
    fetches_le cfg (S n) (Fetch url init tmo k)
| fl_Sleep n ms k :
    fetches_le cfg n k -> fetches_le cfg n (Sleep ms k).

(** The same bound for a task of the event loop. *)
Definition task_fetches_le (cfg : VaultConfig) {A : Type} (n : nat)
    (st : task A) : Prop :=
  match st with
  | Done _ => True
  | Blocked _ t => fetches_le cfg n t
  end.

(** [stateless remote]: the reply to a request does not depend on the
    requests sent before it. *)
Definition stateless (remote : backend) : Prop :=
  forall (n m : nat) (rq : request), remote n rq = remote m rq.

(** [yields remote this t r]: on an instance with the key and the
    configuration of [this], and with the reply of [remote] to each request,
    the computation [t] settles as [r], whatever the clock reads and the
    cache holds. *)
Inductive yields (remote : backend) (this : Vault) {A : Type}
    : Async A -> settled A -> Prop :=
| y_Ret a : yields remote this (Ret a) (Fulfilled a)
| y_Throw e : yields remote this (Throw e) (Rejected e)
| y_DateNow k r :
    (forall t, yields remote this (k t) r) -> yields remote this (DateNow k) r
| y_This k r :
    (forall v, apiKey v = apiKey this -> config v = config this ->
               yields remote this (k v) r) ->
    yields remote this (This k) r
| y_SetThis v k r :
    apiKey v = apiKey this -> config v = config this ->
    yields remote this k r -> yields remote this (SetThis v k) r
| y_Fetch url init tmo k r :
    yields remote this (k (settle tmo (remote 0%nat (url, init)))) r ->
    yields remote this (Fetch url init tmo k) r
| y_Sleep ms k r :
    yields remote this k r -> yields remote this (Sleep ms k) r.

(** What a task of the event loop is bound to settle as. *)
Definition destined (remote : backend) (this : Vault) {A : Type}
    (r : settled A) (st : task A) : Prop :=
  match st with
  | Done r' => r' = r
  | Blocked _ t => yields remote this t r
  end.

(** A backend that answers every request within the millisecond. *)
Definition at_once (st : Z) (text : string) (b : body) : backend :=
  fun _ _ => {| latency := 0; reading := 0;
                outcome := Responds (mkResponse st text b) |}.

(** A backend that never answers in time: every reply takes an hour. *)
Definition too_slow : backend :=
  fun _ _ => {| latency := 3600000; reading := 2;
                outcome := Responds (mkResponse 200 "OK" (Parsed (JObj ∅))) |}.

(** A backend that fails twice with 503 and then answers 200 with [payload]. *)
Definition flaky (payload : jsval) : backend :=
  fun n _ =>
    if (n <? 2)%nat then
      {| latency := 10; reading := 2;
         outcome := Responds (mkResponse 503 "Service Unavailable" (Parsed (JObj ∅))) |}
    else
      {| latency := 10; reading := 2;
         outcome := Responds (mkResponse 200 "OK" (Parsed payload)) |}.

(** * Properties *)

(** ** Conversion to a string *)

Example ToString_examples :
  ToString (JNum 42) = Some "42"
  /\ ToString (JNum (-7)) = Some "-7"
  /\ ToString (JNum (2 ^ 53 + 1)) = Some "9007199254740992"
  /\ ToString (JNum (2 ^ 64)) = Some "18446744073709552000"
  /\ ToString (JNum (10 ^ 21)) = Some "1e+21"
  /\ ToString (JNum (2 ^ 70)) = Some "1.1805916207174113e+21"
  /\ ToString (JArr [JNum 1; JNull; JArr [JStr "a"; JUndefined]]) = Some "1,,a,"
  /\ ToString (JObj ∅) = Some "[object Object]"
  /\ ToString (JObj {[ "toString" := JNum 1 ]}) = None
  /\ ToString (JArr [JStr "a"; JObj {[ "toString" := JNull ]}]) = None.
Proof. vm_compute. repeat split; reflexivity. Qed.

(** Up to [2^53] a number is written with all its digits. *)
Lemma nearest_double_safe (n : Z) : 0 <= n <= 2 ^ 53 -> nearest_double n = n.
Proof.
  intros Hn. unfold nearest_double.
  destruct (Z.eq_dec n (2 ^ 53)) as [->|Hne]; [reflexivity|].
  assert (Hu : Z.max 0 (Z.log2 n - 52) = 0).
  { destruct (Z.eq_dec n 0) as [->|H0]; [reflexivity|].
    assert (Z.log2 n < 53) by (apply Z.log2_lt_pow2; lia). lia. }
  rewrite Hu. cbv zeta. change (2 ^ 0) with 1.
  rewrite Z.mod_1_r, Z.div_1_r. simpl. lia.
Qed.

(** ** The interpreter and the structure of computations *)

Section RunLemmas.

Variable remote : backend.

Lemma run_bind {A B : Type} (m : Async A) (f : A -> Async B) (w : world) :
  run remote (m ≫= f) w =
  match (run remote m w).2 with
  | Fulfilled a => run remote (f a) (run remote m w).1
  | Rejected e => ((run remote m w).1, Rejected e)
  end.
Proof.
  unfold mbind, Async_bind.
  revert w; induction m as [a|e|k IH|k IH|v k IH|url init tmo k IH|ms k IH];
    intros w; simpl; auto.
Qed.

Lemma run_try_catch {A : Type} (m : Async A) (h : error -> Async A) (w : world) :
  run remote (try_catch m h) w =
  match (run remote m w).2 with
  | Fulfilled a => ((run remote m w).1, Fulfilled a)
  | Rejected e => run remote (h e) (run remote m w).1
  end.
Proof.
  revert w; induction m as [a|e|k IH|k IH|v k IH|url init tmo k IH|ms k IH];
    intros w; simpl; auto.
Qed.

Lemma run_of_settled {A : Type} (s : settled A) (w : world) :
  run remote (of_settled s) w = (w, s).
Proof. destruct s; reflexivity. Qed.

(** The clock never runs backwards, the configuration is whatever the
    computation leaves, and the trace only grows. *)
Lemma run_now_mono {A : Type} (t : Async A) (w : world) :
  now w <= now (run remote t w).1.
Proof.
  revert w; induction t as [a|e|k IH|k IH|v k IH|url init tmo k IH|ms k IH];
    intros w; simpl.
  - lia.
  - lia.
  - apply IH.
  - apply IH.
  - apply (IH (set_vault v w)).
  - etransitivity; [|apply IH]. simpl. lia.
  - etransitivity; [|apply IH]. simpl. lia.
Qed.

Lemma run_trace_grows {A : Type} (t : Async A) (w : world) :
  exists evs, trace (run remote t w).1 = trace w ++ evs.
Proof.
  revert w; induction t as [a|e|k IH|k IH|v k IH|url init tmo k IH|ms k IH];
    intros w; simpl.
  - exists []. by rewrite app_nil_r.
  - exists []. by rewrite app_nil_r.
  - apply IH.
  - apply IH.
  - apply (IH (set_vault v w)).
  - edestruct IH as [evs ->]. simpl. rewrite <- app_assoc. eauto.
  - edestruct IH as [evs ->]. simpl. rewrite <- app_assoc. eauto.
Qed.

End RunLemmas.

Lemma calls_app (v : Vault) (t : Z) (evs1 evs2 : list event) :
  calls (mkWorld v t (evs1 ++ evs2))
  = calls (mkWorld v t evs1) ++ calls (mkWorld v t evs2).
Proof. unfold calls; simpl. apply omap_app. Qed.

Lemma calls_log_call (rq : request) (w : world) :
  calls (log_call rq w) = calls w ++ [rq].
Proof. unfold calls; simpl. by rewrite omap_app. Qed.

Lemma calls_log_sleep (ms : Z) (w : world) : calls (log_sleep ms w) = calls w.
Proof. unfold calls; simpl. rewrite omap_app; simpl. by rewrite app_nil_r. Qed.

Lemma sleeps_log_call (rq : request) (w : world) :
  sleeps (log_call rq w) = sleeps w.
Proof. unfold sleeps; simpl. rewrite omap_app; simpl. by rewrite app_nil_r. Qed.

Lemma sleeps_log_sleep (ms : Z) (w : world) :
  sleeps (log_sleep ms w) = sleeps w ++ [ms].
Proof. unfold sleeps; simpl. by rewrite omap_app. Qed.

(** ** Retrying request executor *)

Lemma retry_trace_requests (rq : request) (rem att : nat) :
  omap (fun ev => match ev with Request rq => Some rq | Delay _ => None end)
       (retry_trace rq rem att) = replicate (S rem) rq.
Proof.
  revert att; induction rem as [|rem IH]; intros att; simpl; [done|].
  f_equal. apply (IH (S att)).
Qed.

Lemma retry_trace_delays (rq : request) (rem att : nat) :
  omap (fun ev => match ev with Delay ms => Some ms | Request _ => None end)
       (retry_trace rq rem att) = map backoff (seq att rem).
Proof.
  revert att; induction rem as [|rem IH]; intros att; simpl; [done|].
  f_equal. apply (IH (S att)).
Qed.


Section Executor.

Variable remote : backend.

(** One iteration of the loop. *)
Lemma run_attempts (url : string) (init : jsobj) (tmo : Z)
    (rem att : nat) (w : world) :
  run remote (attempts url init tmo rem att) w =
  let rp := remote (length (calls w)) (url, init) in
  let w1 := resume_at (now w + elapsed tmo rp) (log_call (url, init) w) in
  match try_body (settle tmo rp) with
  | Fulfilled v => (w1, Fulfilled v)
  | Rejected e =>
      if client_error e then (w1, Rejected e)
      else
        match rem with
        | O => (w1, Rejected e)
        | S rem' =>
            run remote (attempts url init tmo rem' (S att))
                (resume_at (now w1 + Z.max 0 (backoff att))
                           (log_sleep (backoff att) w1))
        end
  end.
Proof.
  destruct rem as [|rem']; simpl;
    destruct (try_body _) as [v|e]; simpl; try reflexivity;
    destruct (client_error e); reflexivity.
Qed.

(** A status in [400,500) other than 429 ends the loop at once. *)
Lemma attempts_client_error (url : string) (init : jsobj) (tmo : Z)
    (rem att : nat) (w : world) (e : error) :
  try_body (settle tmo (remote (length (calls w)) (url, init))) = Rejected e ->
  client_error e = true ->
  run remote (attempts url init tmo rem att) w
  = (resume_at (now w + elapsed tmo (remote (length (calls w)) (url, init)))
               (log_call (url, init) w), Rejected e).
Proof. intros He Hc. rewrite run_attempts; simpl. by rewrite He, Hc. Qed.

(** A retryable failure before the last attempt: sleep, then go on. *)
Lemma attempts_retry (url : string) (init : jsobj) (tmo : Z)
    (rem att : nat) (w : world) :
  retryable tmo (remote (length (calls w)) (url, init)) = true ->
  run remote (attempts url init tmo (S rem) att) w
  = let rp := remote (length (calls w)) (url, init) in
    let w1 := resume_at (now w + elapsed tmo rp) (log_call (url, init) w) in
    run remote (attempts url init tmo rem (S att))
        (resume_at (now w1 + Z.max 0 (backoff att)) (log_sleep (backoff att) w1)).
Proof.
  unfold retryable. intros Hr. rewrite run_attempts; simpl.
  destruct (try_body _) as [v|e]; [done|].
  by destruct (client_error e).
Qed.

Lemma attempts_exhaust (url : string) (init : jsobj) (tmo : Z)
    (rem att : nat) (w : world) :
  (forall i : nat, (i <= rem)%nat ->
     retryable tmo (remote (length (calls w) + i)%nat (url, init)) = true) ->
  let r := run remote (attempts url init tmo rem att) w in
  trace r.1 = trace w ++ retry_trace (url, init) rem att
  /\ r.2 = try_body (settle tmo (remote (length (calls w) + rem)%nat (url, init))).
Proof.
  revert att w; induction rem as [|rem IH]; intros att w Hall.
  - specialize (Hall O (Nat.le_refl _)). rewrite Nat.add_0_r in *.
    unfold retryable in Hall. cbv zeta. rewrite run_attempts; cbv zeta.
    destruct (try_body _) as [v|e]; [done|].
    destruct (client_error e); done.
  - cbv zeta. rewrite attempts_retry
      by (specialize (Hall O (Nat.le_0_l _)); by rewrite Nat.add_0_r in Hall).
    cbv zeta.
    set (w2 := resume_at _ (log_sleep _ _)).
    assert (Hc : length (calls w2) = S (length (calls w))).
    { unfold w2, calls; simpl. rewrite !omap_app, !length_app; simpl. lia. }
    destruct (IH (S att) w2) as [Ht Hr].
    { intros i Hi. rewrite Hc.
      replace (S (length (calls w)) + i)%nat with (length (calls w) + S i)%nat by lia.
      apply Hall. lia. }
    rewrite Ht, Hr, Hc. split.
    + unfold w2; simpl. by rewrite <- !app_assoc.
    + do 3 f_equal. lia.
Qed.

End Executor.

(** *** Classification of one attempt *)

Lemma client_error_spec (e : error) :
  client_error e = true <->
  exists s, status e = Some s /\ 400 <= s < 500 /\ s <> 429.
Proof.
  unfold client_error. destruct (status e) as [s|].
  - rewrite !andb_true_iff, negb_true_iff, Z.leb_le, Z.ltb_lt, Z.eqb_neq.
    split.
    + intros [[? ?] ?]. exists s. auto.
    + intros (s' & [= <-] & [? ?] & ?). auto.
  - split; [done|]. by intros (s & ? & _).
Qed.

(** An error response from whose body the error can be built (an object, a
    primitive or no JSON at all, with a [message] that is falsy or converts)
    becomes an error carrying the status, the status text and the body. *)
Lemma try_body_http_error (r : response) :
  ok r = false ->
  message_converts (json_or_empty (r_body r)) = true ->
  exists e,
    try_body (Fulfilled r) = Rejected e
    /\ status e = Some (r_status r)
    /\ statusText e = Some (r_statusText r)
    /\ data e = Some (json_or_empty (r_body r)).
Proof.
  intros Hok Hm. unfold try_body. rewrite Hok; simpl.
  unfold message_converts in Hm.
  destruct (get_prop (json_or_empty (r_body r)) "message") as [m|]; [|done].
  destruct (truthy m); simpl in Hm; [|eauto].
  apply bool_decide_eq_true in Hm as [msg ->]. eauto.
Qed.

(** Without such a body no status is attached: the attempt throws a
    [TypeError]. *)
Lemma try_body_http_error_lost (r : response) :
  ok r = false ->
  message_converts (json_or_empty (r_body r)) = false ->
  exists e,
    try_body (Fulfilled r) = Rejected e
    /\ ename e = "TypeError" /\ status e = None.
Proof.
  intros Hok Hm. unfold try_body. rewrite Hok; simpl.
  unfold message_converts in Hm.
  destruct (get_prop (json_or_empty (r_body r)) "message") as [m|e] eqn:Hg.
  - destruct (truthy m); simpl in Hm; [|done].
    apply bool_decide_eq_false in Hm.
    destruct (ToString m) as [msg|]; [by destruct Hm|].
    eexists; split; [done|]. done.
  - exists e. split; [done|].
    destruct (json_or_empty (r_body r)); simpl in Hg; by inversion Hg.
Qed.

(** A status in [400,500) other than 429, with such a body, is terminal. *)
Lemma client_error_terminal (tmo : Z) (rp : reply) (r : response) :
  latency rp < tmo -> outcome rp = Responds r ->
  400 <= r_status r < 500 -> r_status r <> 429 ->
  message_converts (json_or_empty (r_body r)) = true ->
  exists e,
    try_body (settle tmo rp) = Rejected e
    /\ client_error e = true
    /\ status e = Some (r_status r)
    /\ statusText e = Some (r_statusText r)
    /\ data e = Some (json_or_empty (r_body r)).
Proof.
  intros Hl Ho Hs H429 Hm. unfold settle.
  apply Z.ltb_lt in Hl. rewrite Hl, Ho.
  destruct (try_body_http_error r) as (e & He & Hst & Htx & Hd); auto.
  { unfold ok. apply andb_false_iff. right. apply Z.leb_gt. lia. }
  exists e. repeat split; auto.
  apply client_error_spec. exists (r_status r). auto.
Qed.

(** 429 and every status from 500 up are retryable, whatever the body. *)
Lemma retryable_429_5xx (tmo : Z) (rp : reply) (r : response) :
  latency rp < tmo -> outcome rp = Responds r ->
  r_status r = 429 \/ 500 <= r_status r ->
  retryable tmo rp = true.
Proof.
  intros Hl Ho Hs. unfold retryable, settle.
  apply Z.ltb_lt in Hl. rewrite Hl, Ho. unfold try_body.
  assert (Hok : ok r = false).
  { unfold ok. apply andb_false_iff. right. apply Z.leb_gt. lia. }
  rewrite Hok; simpl.
  assert (Hc : (400 <=? r_status r) && (r_status r <? 500)
               && negb (r_status r =? 429) = false).
  { destruct Hs as [-> | Hs]; [done|].
    apply andb_false_iff. left. apply andb_false_iff. right.
    apply Z.ltb_ge. lia. }
  destruct (get_prop (json_or_empty (r_body r)) "message") as [m|e] eqn:Hg.
  - destruct (if truthy m then ToString m else _); [|done].
    unfold client_error; simpl. by rewrite Hc.
  - destruct (json_or_empty (r_body r)); simpl in Hg; by inversion Hg.
Qed.

(** A failed connection is retryable. *)
Lemma retryable_network (tmo : Z) (rp : reply) (msg : string) :
  outcome rp = ConnectionFails msg -> retryable tmo rp = true.
Proof.
  intros Ho. unfold retryable, settle. rewrite Ho.
  by destruct (latency rp <? tmo).
Qed.

(** A reply that does not arrive before the timer is retryable. *)
Lemma retryable_timeout (tmo : Z) (rp : reply) :
  tmo <= latency rp -> retryable tmo rp = true.
Proof.
  intros Hl. unfold retryable, settle.
  apply Z.ltb_ge in Hl. by rewrite Hl.
Qed.


(** *** Exhausting the retries *)



(** *** A client error with a [null] body *)

(** C2, at the input where the code departs from it: every reply is a 400
    whose body is the JSON text [null].  Reading [errorData.message] throws
    a [TypeError] inside the [try]; it has no [status], so the loop treats
    it as retryable: four requests and three delays instead of one request,
    and the error thrown carries neither the status nor the body. *)
Theorem makeRequest_retries_400_with_null_body :
  let remote := always 400 "Bad Request" (Parsed JNull) in
  let r := run remote (_makeRequest "/info" ∅) example_world in
  length (calls r.1) = 4%nat
  /\ sleeps r.1 = [1000; 2000; 4000]
  /\ r.2 = Rejected (TypeError_read "null" "message")
  /\ status (TypeError_read "null" "message") = None.
Proof. vm_compute. repeat split; reflexivity. Qed.

(** For contrast: with any other body the same 400 is thrown at once. *)
Lemma makeRequest_400_once :
  let remote := always 400 "Bad Request" (Malformed "Unexpected token <") in
  let r := run remote (_makeRequest "/info" ∅) example_world in
  length (calls r.1) = 1%nat
  /\ sleeps r.1 = []
  /\ r.2 = Rejected {| ename := "Error"; message := "HTTP 400: Bad Request";
                       status := Some 400; statusText := Some "Bad Request";
                       data := Some (JObj ∅) |}.
Proof. vm_compute. repeat split; reflexivity. Qed.

(** The same slip, through the other thing that can throw before [status]
    is attached: a [message] that [new Error] cannot convert to a string. *)
Lemma makeRequest_retries_400_with_unconvertible_message :
  let remote :=
    always 400 "Bad Request"
           (Parsed (JObj {[ "message" := JObj {[ "toString" := JNum 1 ]} ]})) in
  let r := run remote (_makeRequest "/info" ∅) example_world in
  length (calls r.1) = 4%nat
  /\ sleeps r.1 = [1000; 2000; 4000]
  /\ r.2 = Rejected TypeError_convert.
Proof. vm_compute. repeat split; reflexivity. Qed.

(** *** A success response with a malformed body *)

(** C7 as stated fails: every reply is a 200 whose body is not JSON, and
    the request is sent four times, with the backoff delays in between. *)
Lemma malformed_success_body_is_retried :
  let remote := always 200 "OK" (Malformed "Unexpected token < in JSON") in
  let r := run remote (_makeRequest "/info" ∅) example_world in
  length (calls r.1) = 4%nat
  /\ sleeps r.1 = [1000; 2000; 4000]
  /\ r.2 = Rejected (SyntaxError "Unexpected token < in JSON").
Proof. vm_compute. repeat split; reflexivity. Qed.

(** C7, amended.  A 2xx response whose body is not JSON makes the attempt
    throw a [SyntaxError] that carries no status, unlike the error of an
    HTTP status failure; the loop treats it as retryable: before the last
    attempt it sleeps the backoff delay and tries again, and on the last
    attempt it throws that [SyntaxError]. *)
Theorem malformed_success_body_retryable (remote : backend) (url : string)
    (init : jsobj) (tmo : Z) (rem att : nat) (w : world)
    (r : response) (msg : string) :
  let rp := remote (length (calls w)) (url, init) in
  let w1 := resume_at (now w + elapsed tmo rp) (log_call (url, init) w) in
  latency rp < tmo ->
  outcome rp = Responds r ->
  ok r = true ->
  r_body r = Malformed msg ->
  try_body (settle tmo rp) = Rejected (SyntaxError msg)
  /\ status (SyntaxError msg) = None
  /\ retryable tmo rp = true
  /\ run remote (attempts url init tmo (S rem) att) w
     = run remote (attempts url init tmo rem (S att))
           (resume_at (now w1 + Z.max 0 (backoff att))
                      (log_sleep (backoff att) w1))
  /\ run remote (attempts url init tmo 0 att) w
     = (w1, Rejected (SyntaxError msg)).
Proof.
  intros rp w1 Hl Ho Hok Hb.
  assert (Ht : try_body (settle tmo rp) = Rejected (SyntaxError msg)).
  { unfold settle. apply Z.ltb_lt in Hl. rewrite Hl, Ho.
    unfold try_body. by rewrite Hok, Hb. }
  assert (Hr : retryable tmo rp = true).
  { unfold retryable. by rewrite Ht. }
  split; [exact Ht|]. split; [reflexivity|]. split; [exact Hr|]. split.
  - by rewrite attempts_retry.
  - rewrite run_attempts. cbv zeta. fold rp. by rewrite Ht.
Qed.

Lemma malformed_success_body_retryable_witness :
  let remote := always 200 "OK" (Malformed "Unexpected end of JSON input") in
  let url := "https://vault.test/api/info" in
  let init := requestOptions example_vault ∅ in
  (10 < 10000
   /\ outcome (remote 0%nat (url, init))
      = Responds (mkResponse 200 "OK" (Malformed "Unexpected end of JSON input"))
   /\ ok (mkResponse 200 "OK" (Malformed "Unexpected end of JSON input")) = true)
  /\ retryable 10000 (remote 0%nat (url, init)) = true
  /\ (run remote (attempts url init 10000 0 3) example_world).2
     = Rejected (SyntaxError "Unexpected end of JSON input").
Proof.
  intros remote url init.
  assert (H1 : latency (remote (length (calls example_world)) (url, init)) < 10000)
    by (vm_compute; reflexivity).
  assert (H2 : outcome (remote (length (calls example_world)) (url, init))
               = Responds (mkResponse 200 "OK"
                             (Malformed "Unexpected end of JSON input")))
    by reflexivity.
  assert (H3 : ok (mkResponse 200 "OK" (Malformed "Unexpected end of JSON input"))
               = true) by reflexivity.
  destruct (malformed_success_body_retryable remote url init 10000 0 3
              example_world _ _ H1 H2 H3 eq_refl) as (_ & _ & Hr & _ & Hlast).
  split; [split; [lia | split; [exact H2 | exact H3]]|].
  split; [exact Hr|]. by rewrite Hlast.
Defined.

(** *** The headers of a request *)

(** Without a [headers] option the request carries the three headers. *)
Lemma requestOptions_default_headers (this : Vault) (options : jsobj) :
  options !! "headers" = None ->
  requestOptions this options !! "headers" = Some (JObj (default_headers this))
  /\ default_headers this !! "Authorization"
     = Some (JStr ("Bearer " +:+ apiKey this))
  /\ default_headers this !! "Content-Type" = Some (JStr "application/json")
  /\ default_headers this !! "User-Agent" = Some (JStr "SoftoVault-SDK/0.1.0").
Proof.
  intros Hn. unfold requestOptions, prop. rewrite Hn. simpl.
  split.
  - rewrite lookup_union_r by done.
    rewrite lookup_insert_eq. by rewrite (left_id_L ∅ (∪)).
  - unfold default_headers. repeat split; by simplify_map_eq.
Qed.

(** With a [headers] option, the later [...options] puts the caller's own
    [headers] in the place of the merged ones. *)
Lemma requestOptions_headers_replaced (this : Vault) (options : jsobj)
    (h : jsval) :
  options !! "headers" = Some h ->
  requestOptions this options !! "headers" = Some h.
Proof. intros Hh. unfold requestOptions. by apply lookup_union_Some_l. Qed.

(** Every request of [_makeRequest] has the URL and the options built from
    the arguments. *)
Lemma attempts_requests (remote : backend) (url : string) (init : jsobj)
    (tmo : Z) (rem att : nat) (w : world) (rq : request) :
  rq ∈ calls (run remote (attempts url init tmo rem att) w).1 ->
  rq ∈ calls w \/ rq = (url, init).
Proof.
  revert w att; induction rem as [|rem IH]; intros w att;
    rewrite run_attempts; cbv zeta;
    destruct (try_body _) as [v|e]; try destruct (client_error e); simpl.
  all: try (unfold calls at 1; simpl; fold (calls w); rewrite omap_app; simpl;
            rewrite elem_of_app, list_elem_of_singleton; tauto).
  intros Hin. apply IH in Hin. revert Hin.
  unfold calls at 1; simpl; fold (calls w). rewrite !omap_app; simpl.
  rewrite app_nil_r, elem_of_app, list_elem_of_singleton. tauto.
Qed.

Lemma makeRequest_requests (remote : backend) (endpoint : string)
    (options : jsobj) (w : world) (rq : request) :
  rq ∈ calls (run remote (_makeRequest endpoint options) w).1 ->
  rq ∈ calls w
  \/ rq = (apiUrl (config (vault w)) +:+ endpoint,
           requestOptions (vault w) options).
Proof. apply attempts_requests. Qed.

(** C1, at the input where the code departs from it: the caller passes one
    header of its own.  [...options] then overwrites the merged [headers],
    and the request that goes out carries the caller's header alone: no
    [Authorization], no [Content-Type], no [User-Agent]. *)
Theorem makeRequest_caller_headers_drop_credential :
  let remote := always 200 "OK" (Parsed (JObj ∅)) in
  let mine : jsobj := {[ "X-Trace" := JStr "1" ]} in
  let r := run remote (_makeRequest "/info" {[ "headers" := JObj mine ]})
               example_world in
  exists init,
    calls r.1 = [("https://vault.test/api/info", init)]
    /\ init !! "headers" = Some (JObj mine)
    /\ mine !! "Authorization" = None
    /\ mine !! "Content-Type" = None
    /\ mine !! "User-Agent" = None.
Proof.
  eexists. split; [vm_compute; reflexivity|].
  repeat split; vm_compute; reflexivity.
Qed.

(** ** Strings *)

Lemma append_assoc (a b c : string) : (a +:+ b) +:+ c = a +:+ (b +:+ c).
Proof.
  induction a as [|x a IH]; [done|].
  change (String x ((a +:+ b) +:+ c) = String x (a +:+ (b +:+ c))).
  by rewrite IH.
Qed.

Lemma prefix_append (s t : string) : String.prefix s (s +:+ t) = true.
Proof.
  induction s as [|c s IH]; simpl; [by destruct t|].
  destruct (Ascii.ascii_dec c c); [exact IH | done].
Qed.

Lemma includes_append (a s b : string) : includes s (a +:+ s +:+ b) = true.
Proof.
  induction a as [|c a IH].
  - change (includes s (s +:+ b) = true).
    destruct s as [|d s]; simpl.
    + by destruct b.
    + destruct (Ascii.ascii_dec d d); [|done]. by rewrite prefix_append.
  - change (includes s (String c (a +:+ s +:+ b)) = true).
    simpl. rewrite IH. apply orb_true_r.
Qed.

Lemma includes_self (s : string) : includes s s = true.
Proof.
  assert (Hp : String.prefix s s = true).
  { induction s as [|c s IH]; simpl; [done|].
    by destruct (Ascii.ascii_dec c c). }
  destruct s; simpl in *; [done|]. by rewrite Hp.
Qed.

Lemma includes_app_r (x a b : string) :
  includes x b = true -> includes x (a +:+ b) = true.
Proof.
  intros Hb. induction a as [|c a IH]; [exact Hb|].
  change (includes x (String c (a +:+ b)) = true).
  simpl. rewrite IH. apply orb_true_r.
Qed.

Lemma includes_concat (sep x : string) (l : list string) :
  x ∈ l -> includes x (String.concat sep l) = true.
Proof.
  induction l as [|y l IH]; [by intros ?%elem_of_nil|].
  intros Hin. simpl. destruct l as [|z l].
  - apply list_elem_of_singleton in Hin as ->. apply includes_self.
  - apply elem_of_cons in Hin as [->|Hin].
    + exact (includes_append "" y (sep +:+ String.concat sep (z :: l))).
    + apply includes_app_r, includes_app_r. by apply IH.
Qed.

(** ** TTL cache *)

(** The entry of [key]: its value and the time it was stored. *)
Lemma isCacheValid_true (this : Vault) (t : Z) (key : string) :
  truthy (_isCacheValid this t key) = true <->
  config_cache (config this) = true
  /\ is_Some (cache this !! key)
  /\ exists storedAt, cacheTimestamps this !! key = Some storedAt
       /\ storedAt <> 0 /\ t - storedAt < cacheTTL (config this).
Proof.
  unfold _isCacheValid.
  destruct (config_cache (config this)); simpl; [|split; [done|by intros [? _]]].
  case_bool_decide as Hc; simpl; [|split; [done|by intros (_ & ? & _)]].
  destruct (cacheTimestamps this !! key) as [ts|]; simpl.
  - destruct (Z.eqb_spec ts 0) as [->|Hne]; simpl.
    + split; [done|]. intros (_ & _ & ts & [= <-] & ? & _). done.
    + rewrite Z.ltb_lt. split.
      * intros Hlt. repeat split; auto. exists ts. auto.
      * intros (_ & _ & ts' & [= <-] & _ & ?). done.
  - split; [done|]. by intros (_ & _ & ts & ? & _).
Qed.

Section Facade.

Variable remote : backend.

(** [get] on a non-empty string, case by case. *)
Lemma run_get (s : string) (options : jsobj) (w : world) :
  s <> "" ->
  run remote (get (JStr s) options) w =
  let useCache := strict_ne_false (prop options "useCache") in
  let cacheKey := "secret:" +:+ s in
  if useCache && truthy (_isCacheValid (vault w) (now w) cacheKey) then
    (w, Fulfilled (prop (cache (vault w)) cacheKey))
  else
    let r := run remote (_makeRequest ("/key/" +:+ encodeURIComponent s) ∅) w in
    match r.2 with
    | Rejected e =>
        (r.1, Rejected (if bool_decide (status e = Some 404)
                        then new_Error ("Secret with key '" +:+ s +:+ "' not found")
                        else e))
    | Fulfilled data =>
        match get_prop data "value" with
        | Rejected e => (r.1, Rejected e)
        | Fulfilled value =>
            if useCache then
              (set_vault (_setCache (vault r.1) (now r.1) cacheKey value) r.1,
               Fulfilled value)
            else (r.1, Fulfilled value)
        end
    end.
Proof.
  intros Hs. unfold get.
  assert (Hk : negb (truthy (JStr s))
               || negb (bool_decide (typeof (JStr s) = "string")) = false).
  { simpl. rewrite bool_decide_eq_false_2 by done. done. }
  rewrite Hk. cbv zeta.
  change (ToString (JStr s)) with (Some s). cbv iota beta.
  cbn [run].
  destruct (strict_ne_false (prop options "useCache")
            && truthy (_isCacheValid (vault w) (now w) ("secret:" +:+ s))) eqn:Hhit;
    [reflexivity|].
  rewrite run_try_catch, run_bind.
  destruct (run remote (_makeRequest _ ∅) w) as [w1 [data|e]] eqn:Hreq; simpl.
  - rewrite run_bind, run_of_settled; simpl.
    destruct data; simpl; try by destruct (strict_ne_false _).
  - clear Hk. by destruct (bool_decide (status e = Some 404)).
Qed.

End Facade.

Section FacadeLemmas.

Variable remote : backend.

(** The executor leaves the instance alone. *)
Lemma attempts_vault (url : string) (init : jsobj) (tmo : Z)
    (rem att : nat) (w : world) :
  vault (run remote (attempts url init tmo rem att) w).1 = vault w.
Proof.
  revert w att; induction rem as [|rem IH]; intros w att;
    rewrite run_attempts; cbv zeta;
    destruct (try_body _) as [v|e]; try destruct (client_error e);
    try reflexivity.
  by rewrite IH.
Qed.

Lemma makeRequest_vault (endpoint : string) (options : jsobj) (w : world) :
  vault (run remote (_makeRequest endpoint options) w).1 = vault w.
Proof. apply attempts_vault. Qed.

(** The executor sends at least one request, and it is the first thing it
    does. *)
Lemma attempts_first_call (url : string) (init : jsobj) (tmo : Z)
    (rem att : nat) (w : world) :
  exists more,
    calls (run remote (attempts url init tmo rem att) w).1
    = calls w ++ (url, init) :: more.
Proof.
  rewrite run_attempts; cbv zeta.
  set (w1 := resume_at _ (log_call _ w)).
  assert (H1 : calls w1 = calls w ++ [(url, init)]) by apply calls_log_call.
  destruct (try_body _) as [v|e]; [|destruct (client_error e); [|destruct rem]].
  1-3: exists []; exact H1.
  edestruct (run_trace_grows remote (attempts url init tmo rem (S att))) as [evs Hevs].
  unfold calls at 1. rewrite Hevs. rewrite omap_app.
  change (trace (resume_at _ (log_sleep _ w1))) with (trace w1 ++ [Delay (backoff att)]).
  rewrite omap_app. fold (calls w1). rewrite H1. simpl.
  rewrite app_nil_r, <- app_assoc. simpl. eauto.
Qed.

Lemma makeRequest_first_call (endpoint : string) (options : jsobj) (w : world) :
  exists more,
    calls (run remote (_makeRequest endpoint options) w).1
    = calls w ++ (apiUrl (config (vault w)) +:+ endpoint,
                  requestOptions (vault w) options) :: more.
Proof. apply attempts_first_call. Qed.

(** [exists] in terms of [get]. *)
Lemma run_exists (key : jsval) (w : world) :
  run remote (exists_ key) w =
  let r := run remote (get key ∅) w in
  match r.2 with
  | Fulfilled _ => (r.1, Fulfilled (JBool true))
  | Rejected e =>
      if bool_decide (status e = Some 404) || includes "not found" (message e)
      then (r.1, Fulfilled (JBool false))
      else (r.1, Rejected e)
  end.
Proof.
  unfold exists_. rewrite run_try_catch, run_bind. cbv zeta.
  destruct (run remote (get key ∅) w) as [w1 [v|e]]; simpl; [done|].
  by destruct (_ || _).
Qed.

(** [get] on anything but a non-empty string. *)
Lemma run_get_invalid (key : jsval) (options : jsobj) (w : world) :
  (forall s, key = JStr s -> s = "") ->
  run remote (get key options) w
  = (w, Rejected (new_Error "Secret key must be a non-empty string")).
Proof.
  intros Hk. unfold get.
  destruct key as [| |b|n|s|l|o]; try reflexivity.
  - by destruct b.
  - simpl. by destruct (negb (n =? 0)).
  - rewrite (Hk s eq_refl). reflexivity.
Qed.

(** A [get] that fails leaves the instance, cache included, as it was. *)
Lemma get_rejected_vault (key : jsval) (options : jsobj) (w : world) (e : error) :
  (run remote (get key options) w).2 = Rejected e ->
  vault (run remote (get key options) w).1 = vault w.
Proof.
  destruct key as [| |b|n|s|l|o];
    try (rewrite run_get_invalid by (intros; discriminate); done).
  destruct (decide (s = "")) as [->|Hs].
  { rewrite run_get_invalid; [done|]. by intros s [= <-]. }
  rewrite run_get by done. cbv zeta.
  destruct (_ && _); [done|].
  pose proof (makeRequest_vault ("/key/" +:+ encodeURIComponent s) ∅ w) as Hv.
  destruct (run remote (_makeRequest _ ∅) w) as [w1 [data|e1]]; simpl in *; [|done].
  destruct (get_prop data "value"); [|done].
  by destruct (strict_ne_false _).
Qed.

(** The configuration is never written. *)
Lemma get_config (key : jsval) (options : jsobj) (w : world) :
  config (vault (run remote (get key options) w).1) = config (vault w).
Proof.
  destruct key as [| |b|n|s|l|o];
    try (rewrite run_get_invalid by (intros; discriminate); done).
  destruct (decide (s = "")) as [->|Hs].
  { rewrite run_get_invalid; [done|]. by intros s [= <-]. }
  rewrite run_get by done. cbv zeta.
  destruct (_ && _); [done|].
  pose proof (makeRequest_vault ("/key/" +:+ encodeURIComponent s) ∅ w) as Hv.
  destruct (run remote (_makeRequest _ ∅) w) as [w1 [data|e1]]; simpl in *;
    [|by rewrite Hv].
  destruct (get_prop data "value"); simpl; [|by rewrite Hv].
  destruct (strict_ne_false _); simpl; [|by rewrite Hv].
  unfold _setCache. destruct (negb _); simpl; by rewrite Hv.
Qed.

End FacadeLemmas.

(** *** The contract of [get] *)

(** C6, at the input where the code departs from it: the remote answers 404
    with the JSON body [null].  The executor never builds the error that
    carries the status (reading [errorData.message] throws first, as for
    the 400 above), so [get] sees no 404: the
    request is sent four times, and what [get] throws is the [TypeError],
    whose message does not name the key; [exists] rethrows it. *)
Theorem get_404_with_null_body_is_not_not_found :
  let remote := always 404 "Not Found" (Parsed JNull) in
  let r := run remote (get (JStr "missing-key") ∅) example_world in
  length (calls r.1) = 4%nat
  /\ sleeps r.1 = [1000; 2000; 4000]
  /\ r.2 = Rejected (TypeError_read "null" "message")
  /\ includes "missing-key" (message (TypeError_read "null" "message")) = false
  /\ (run remote (exists_ (JStr "missing-key")) example_world).2
     = Rejected (TypeError_read "null" "message").
Proof. vm_compute. repeat split; reflexivity. Qed.

(** On what [get] sees of the executor, the contract holds.  [get] on
    anything but a non-empty string throws "Secret key must be a non-empty
    string" and leaves the world, so the list of requests, as it was.  On a
    non-empty string that the cache does not answer: when the executor
    throws an error whose status is 404, [get] throws "Secret with key
    '<key>' not found", a message that contains the key; when the executor
    returns a payload, [get] returns its [value] property. *)
Theorem get_contract (remote : backend) (key : jsval) (options : jsobj)
    (w : world) :
  ((forall s, key = JStr s -> s = "") ->
   run remote (get key options) w
   = (w, Rejected (new_Error "Secret key must be a non-empty string"))
   /\ calls (run remote (get key options) w).1 = calls w)
  /\ (forall s, key = JStr s -> s <> "" ->
      strict_ne_false (prop options "useCache")
      && truthy (_isCacheValid (vault w) (now w) ("secret:" +:+ s)) = false ->
      let r := run remote (_makeRequest ("/key/" +:+ encodeURIComponent s) ∅) w in
      let not_found := new_Error ("Secret with key '" +:+ s +:+ "' not found") in
      (forall e, r.2 = Rejected e -> status e = Some 404 ->
         run remote (get key options) w = (r.1, Rejected not_found)
         /\ includes s (message not_found) = true)
      /\ (forall data value,
            r.2 = Fulfilled data -> get_prop data "value" = Fulfilled value ->
            (run remote (get key options) w).2 = Fulfilled value)).
Proof.
  split.
  - intros Hk. rewrite run_get_invalid by done. done.
  - intros s -> Hs Hmiss r not_found.
    rewrite run_get by done. cbv zeta. rewrite Hmiss. fold r. split.
    + intros e -> H404. rewrite bool_decide_eq_true_2 by done.
      split; [done|]. apply includes_append.
    + intros data value -> ->. by destruct (strict_ne_false _).
Qed.

(** *** The not-found error and [exists] *)

(** C10.  The error that [get] throws when the executor reports a 404 is
    [new Error("Secret with key '<key>' not found")]: its name is [Error],
    it has no [status], no [statusText] and no [data], and its message ends
    in "not found"; [exists] then returns [false].  And whatever error [get]
    lets through, of any status, [exists] returns [false] as soon as its
    message contains "not found". *)
Theorem not_found_is_message_only (remote : backend) (w : world) :
  (forall s e,
     s <> "" ->
     truthy (_isCacheValid (vault w) (now w) ("secret:" +:+ s)) = false ->
     let r := run remote (_makeRequest ("/key/" +:+ encodeURIComponent s) ∅) w in
     r.2 = Rejected e -> status e = Some 404 ->
     exists nf,
       run remote (get (JStr s) ∅) w = (r.1, Rejected nf)
       /\ ename nf = "Error"
       /\ message nf = ("Secret with key '" +:+ s +:+ "' ") +:+ "not found"
       /\ status nf = None /\ statusText nf = None /\ data nf = None
       /\ run remote (exists_ (JStr s)) w = (r.1, Fulfilled (JBool false)))
  /\ (forall key e,
        (run remote (get key ∅) w).2 = Rejected e ->
        includes "not found" (message e) = true ->
        run remote (exists_ key) w
        = ((run remote (get key ∅) w).1, Fulfilled (JBool false))).
Proof.
  split.
  - intros s e Hs Hmiss r Hr H404.
    assert (Hget : run remote (get (JStr s) ∅) w
                   = (r.1, Rejected (new_Error
                        ("Secret with key '" +:+ s +:+ "' not found")))).
    { rewrite run_get by done. cbv zeta. rewrite Hmiss, andb_false_r.
      fold r. rewrite Hr. by rewrite bool_decide_eq_true_2. }
    assert (Hmsg : "Secret with key '" +:+ s +:+ "' not found"
                   = ("Secret with key '" +:+ s +:+ "' ") +:+ "not found").
    { by rewrite !append_assoc. }
    assert (Hinc : includes "not found"
                     ("Secret with key '" +:+ s +:+ "' not found") = true).
    { rewrite Hmsg.
      exact (includes_append ("Secret with key '" +:+ s +:+ "' ") "not found" ""). }
    eexists. split; [exact Hget|]. repeat split; [exact Hmsg|].
    rewrite run_exists. cbv zeta. rewrite Hget.
    cbn [fst snd status message new_Error]. rewrite Hinc. done.
  - intros key e Hr Hin. rewrite run_exists. cbv zeta.
    by rewrite Hr, Hin, orb_true_r.
Qed.

Lemma get_contract_witness :
  let missing := always 404 "Not Found" (Parsed (JObj ∅)) in
  let found := always 200 "OK" (Parsed (JObj {[ "value" := JStr "s3cret" ]})) in
  (run found (get (JNum 5) ∅) example_world).2
  = Rejected (new_Error "Secret key must be a non-empty string")
  /\ calls (run found (get (JNum 5) ∅) example_world).1 = []
  /\ (run missing (get (JStr "missing-key") ∅) example_world).2
     = Rejected (new_Error "Secret with key 'missing-key' not found")
  /\ (run found (get (JStr "API_KEY") ∅) example_world).2
     = Fulfilled (JStr "s3cret").
Proof.
  intros missing found.
  destruct (get_contract found (JNum 5) ∅ example_world) as [Hinv _].
  destruct Hinv as [Hthrow Hcalls]; [intros s; discriminate|].
  destruct (get_contract missing (JStr "missing-key") ∅ example_world) as [_ H404].
  destruct (H404 "missing-key" eq_refl) as [Hnf _]; [done|reflexivity|].
  destruct (Hnf {| ename := "Error"; message := "HTTP 404: Not Found";
                   status := Some 404; statusText := Some "Not Found";
                   data := Some (JObj ∅) |}) as [Hrun _];
    [vm_compute; reflexivity | reflexivity |].
  destruct (get_contract found (JStr "API_KEY") ∅ example_world) as [_ Hok].
  destruct (Hok "API_KEY" eq_refl) as [_ Hval]; [done|reflexivity|].
  specialize (Hval (JObj {[ "value" := JStr "s3cret" ]}) (JStr "s3cret")).
  split; [by rewrite Hthrow|]. split; [exact Hcalls|].
  split; [by rewrite Hrun|].
  apply Hval; vm_compute; reflexivity.
Defined.

Lemma not_found_is_message_only_witness :
  let missing := always 404 "Not Found" (Parsed (JObj ∅)) in
  let broken :=
    always 500 "Internal Server Error"
           (Parsed (JObj {[ "message" := JStr "upstream vault not found" ]})) in
  (run missing (exists_ (JStr "missing-key")) example_world).2
  = Fulfilled (JBool false)
  /\ (exists e,
        (run broken (get (JStr "API_KEY") ∅) example_world).2 = Rejected e
        /\ status e = Some 500)
  /\ (run broken (exists_ (JStr "API_KEY")) example_world).2
     = Fulfilled (JBool false).
Proof.
  intros missing broken.
  destruct (not_found_is_message_only missing example_world) as [Hnf _].
  destruct (Hnf "missing-key"
              {| ename := "Error"; message := "HTTP 404: Not Found";
                 status := Some 404; statusText := Some "Not Found";
                 data := Some (JObj ∅) |})
    as (nf & _ & _ & _ & _ & _ & _ & Hex);
    [done | reflexivity | vm_compute; reflexivity | reflexivity |].
  destruct (not_found_is_message_only broken example_world) as [_ Hany].
  set (e500 := {| ename := "Error"; message := "upstream vault not found";
                  status := Some 500;
                  statusText := Some "Internal Server Error";
                  data := Some (JObj {[ "message" := JStr "upstream vault not found" ]}) |}).
  assert (Hget : (run broken (get (JStr "API_KEY") ∅) example_world).2 = Rejected e500)
    by (vm_compute; reflexivity).
  split; [by rewrite Hex|]. split; [exists e500; split; [exact Hget | reflexivity]|].
  rewrite (Hany (JStr "API_KEY") e500 Hget); [reflexivity|].
  vm_compute; reflexivity.
Defined.

(** *** Validity of a cache entry *)

(** A timestamp of [0] is read by [timestamp && ...] as a missing one: an
    entry stored when [Date.now()] was [0] is never valid. *)
Lemma isCacheValid_zero_timestamp (this : Vault) (t : Z) (key : string) :
  cacheTimestamps this !! key = Some 0 ->
  truthy (_isCacheValid this t key) = false.
Proof.
  intros Hts. apply not_true_is_false. rewrite isCacheValid_true.
  intros (_ & _ & ts & Hts' & Hne & _). congruence.
Qed.

(** C4, at the input where the code departs from it: an entry stored while
    [Date.now()] reads [0].  One millisecond later the entry is present and
    far younger than the TTL of five minutes, and the lookup reports it
    invalid: its result is the timestamp [0] itself, which
    [timestamp && ...] took for a missing one. *)
Theorem isCacheValid_rejects_entry_stored_at_zero :
  let this := _setCache example_vault 0 "secret:API_KEY" (JStr "s3cret") in
  cache this !! "secret:API_KEY" = Some (JStr "s3cret")
  /\ cacheTimestamps this !! "secret:API_KEY" = Some 0
  /\ 1 - 0 < cacheTTL (config this)
  /\ _isCacheValid this 1 "secret:API_KEY" = JNum 0
  /\ truthy (_isCacheValid this 1 "secret:API_KEY") = false.
Proof. vm_compute. repeat split; reflexivity. Qed.

(** Everywhere else the rule holds.  On an instance with the cache enabled,
    for an entry stored at a non-zero clock reading: the lookup at time [t]
    finds the entry of [key] valid iff the entry is present and
    [t - storedAt < cacheTTL]; at [t - storedAt = cacheTTL] it is invalid.  A
    [get] that fails leaves the instance, so every entry, expired or not, as
    it was; and [_setCache] with the same key replaces the value and the
    time. *)
Theorem cache_validity (this : Vault) (t : Z) (key : string) :
  config_cache (config this) = true ->
  (forall ts, cacheTimestamps this !! key = Some ts -> ts <> 0) ->
  (truthy (_isCacheValid this t key) = true <->
   exists value storedAt,
     cache this !! key = Some value
     /\ cacheTimestamps this !! key = Some storedAt
     /\ t - storedAt < cacheTTL (config this))
  /\ (forall storedAt,
        cacheTimestamps this !! key = Some storedAt ->
        t - storedAt = cacheTTL (config this) ->
        truthy (_isCacheValid this t key) = false)
  /\ (forall remote w k options e,
        (run remote (get k options) w).2 = Rejected e ->
        vault (run remote (get k options) w).1 = vault w)
  /\ (forall t' value',
        cache (_setCache this t' key value') !! key = Some value'
        /\ cacheTimestamps (_setCache this t' key value') !! key = Some t').
Proof.
  intros Hon Hnz. split; [|split; [|split]].
  - rewrite isCacheValid_true. split.
    + intros (_ & [value Hv] & ts & Hts & _ & Hlt). eauto.
    + intros (value & ts & Hv & Hts & Hlt). repeat split; eauto.
  - intros ts Hts Heq. apply not_true_is_false. rewrite isCacheValid_true.
    intros (_ & _ & ts' & Hts' & _ & Hlt). simplify_eq. lia.
  - intros remote w k options e. apply get_rejected_vault.
  - intros t' value'. unfold _setCache. rewrite Hon. simpl.
    by rewrite !lookup_insert_eq.
Qed.

Lemma cache_validity_witness :
  let key := "secret:API_KEY" in
  (config_cache (config cached_vault) = true
   /\ cacheTimestamps cached_vault !! key = Some 1700000000000)
  /\ truthy (_isCacheValid cached_vault (1700000000000 + 299999) key) = true
  /\ truthy (_isCacheValid cached_vault (1700000000000 + 300000) key) = false.
Proof.
  intros key.
  assert (Hon : config_cache (config cached_vault) = true) by reflexivity.
  assert (Hts : cacheTimestamps cached_vault !! key = Some 1700000000000)
    by (vm_compute; reflexivity).
  assert (Hnz : forall ts, cacheTimestamps cached_vault !! key = Some ts -> ts <> 0).
  { intros ts. rewrite Hts. intros [= <-]. done. }
  split; [split; [exact Hon | exact Hts]|]. split.
  - destruct (cache_validity cached_vault (1700000000000 + 299999) key Hon Hnz)
      as [[_ Hvalid] _].
    apply Hvalid. exists (JStr "s3cret"), 1700000000000.
    split; [vm_compute; reflexivity|]. split; [exact Hts|]. reflexivity.
  - destruct (cache_validity cached_vault (1700000000000 + 300000) key Hon Hnz)
      as (_ & Hedge & _).
    apply (Hedge 1700000000000 Hts). reflexivity.
Defined.

(** *** Cache round trip *)

(** C9, at the input where the code departs from it: the first [get]
    completes while [Date.now()] reads [0].  It returns the secret and stores
    it with the timestamp [0]; a second [get] one millisecond later, well
    within the TTL, does not find the entry valid and sends a second
    request. *)
Theorem second_get_refetches_entry_stored_at_zero :
  let remote := at_once 200 "OK" (Parsed (JObj {[ "value" := JStr "s3cret" ]})) in
  let w := {| vault := example_vault; now := 0; trace := [] |} in
  let r1 := run remote (get (JStr "API_KEY") ∅) w in
  let w2 := {| vault := vault r1.1; now := 1; trace := trace r1.1 |} in
  let r2 := run remote (get (JStr "API_KEY") ∅) w2 in
  r1.2 = Fulfilled (JStr "s3cret")
  /\ cache (vault r1.1) !! "secret:API_KEY" = Some (JStr "s3cret")
  /\ cacheTimestamps (vault r1.1) !! "secret:API_KEY" = Some 0
  /\ 1 - 0 < cacheTTL (config (vault r1.1))
  /\ length (calls r1.1) = 1%nat
  /\ length (calls r2.1) = 2%nat
  /\ r2.2 = Fulfilled (JStr "s3cret").
Proof. vm_compute. repeat split; reflexivity. Qed.

(** Everywhere else the round trip holds.  On an instance with the cache
    enabled: once [get] of a key has returned [value], at a clock reading
    other than [0], the entry of the key has a timestamp [storedAt], and a
    second [get] of the key at any clock reading [t2] with
    [t2 - storedAt < cacheTTL] leaves the world as it is, so it sends no
    request, and returns the same [value]; after [clearCache()], the next
    [get] of the key sends a request. *)
Theorem cache_round_trip (remote : backend) (s : string) (options : jsobj)
    (w : world) (value : jsval) :
  s <> "" ->
  config_cache (config (vault w)) = true ->
  strict_ne_false (prop options "useCache") = true ->
  let r1 := run remote (get (JStr s) options) w in
  now r1.1 <> 0 ->
  r1.2 = Fulfilled value ->
  exists storedAt,
    cacheTimestamps (vault r1.1) !! ("secret:" +:+ s) = Some storedAt
    /\ (forall t2,
          t2 - storedAt < cacheTTL (config (vault w)) ->
          let w2 := {| vault := vault r1.1; now := t2; trace := trace r1.1 |} in
          run remote (get (JStr s) options) w2 = (w2, Fulfilled value))
    /\ (forall t3,
          let w3 := {| vault := clearCache (vault r1.1); now := t3;
                       trace := trace r1.1 |} in
          exists rq more,
            calls (run remote (get (JStr s) options) w3).1
            = calls r1.1 ++ rq :: more).
Proof.
  intros Hs Hon Huse r1 Hpos Hr1.
  set (ck := "secret:" +:+ s).
  assert (Hcfg : config (vault r1.1) = config (vault w)) by apply get_config.
  (* the entry after the first [get] *)
  assert (Hentry : exists storedAt,
            cacheTimestamps (vault r1.1) !! ck = Some storedAt
            /\ storedAt <> 0
            /\ cache (vault r1.1) !! ck = Some value).
  { unfold r1 in *. rewrite run_get in * by done. cbv zeta in *.
    rewrite Huse, andb_true_l in *. fold ck in Hr1, Hpos |- *.
    destruct (truthy (_isCacheValid (vault w) (now w) ck)) eqn:Hhit.
    - apply isCacheValid_true in Hhit as (_ & [v Hv] & ts & Hts & Hnz & _).
      cbn [fst snd] in *. unfold prop in Hr1. rewrite Hv in Hr1.
      injection Hr1 as ->. eauto.
    - pose proof (makeRequest_vault remote ("/key/" +:+ encodeURIComponent s) ∅ w) as Hv.
      destruct (run remote (_makeRequest _ ∅) w) as [w1 [data|e]];
        cbn [fst snd] in *; [|done].
      destruct (get_prop data "value") as [v|e]; cbn [fst snd] in *; [|done].
      injection Hr1 as ->. unfold _setCache. rewrite Hv, Hon. simpl.
      rewrite !lookup_insert_eq. exists (now w1). repeat split; auto. }
  destruct Hentry as (storedAt & Hts & Hnz & Hval).
  exists storedAt. split; [exact Hts|]. split.
  - intros t2 Hlt w2. rewrite run_get by done. cbv zeta.
    rewrite Huse, andb_true_l. fold ck.
    assert (Hvalid : truthy (_isCacheValid (vault w2) (now w2) ck) = true).
    { apply isCacheValid_true. simpl. rewrite Hcfg. repeat split; eauto. }
    rewrite Hvalid. unfold prop. simpl. by rewrite Hval.
  - intros t3 w3. rewrite run_get by done. cbv zeta.
    rewrite Huse, andb_true_l. fold ck.
    assert (Hmiss : truthy (_isCacheValid (vault w3) (now w3) ck) = false).
    { apply not_true_is_false. rewrite isCacheValid_true.
      intros (_ & [v Hv] & _). simpl in Hv. unfold clearCache in Hv.
      rewrite Hcfg, Hon in Hv. simpl in Hv. by rewrite lookup_empty in Hv. }
    rewrite Hmiss.
    destruct (makeRequest_first_call remote ("/key/" +:+ encodeURIComponent s) ∅ w3)
      as [more Hmore].
    change (calls w3) with (calls r1.1) in Hmore.
    destruct (run remote (_makeRequest _ ∅) w3) as [w4 [data|e]];
      cbn [fst snd] in *; [|eauto].
    destruct (get_prop data "value") as [v|e]; cbn [fst snd]; eauto.
Qed.

Lemma cache_round_trip_witness :
  let remote := always 200 "OK" (Parsed (JObj {[ "value" := JStr "s3cret" ]})) in
  let r1 := run remote (get (JStr "API_KEY") ∅) example_world in
  (r1.2 = Fulfilled (JStr "s3cret") /\ now r1.1 <> 0)
  /\ exists storedAt,
       cacheTimestamps (vault r1.1) !! "secret:API_KEY" = Some storedAt
       /\ (let w2 := {| vault := vault r1.1; now := storedAt + 299999;
                        trace := trace r1.1 |} in
           run remote (get (JStr "API_KEY") ∅) w2 = (w2, Fulfilled (JStr "s3cret")))
       /\ (let w3 := {| vault := clearCache (vault r1.1); now := storedAt + 1;
                        trace := trace r1.1 |} in
           exists rq more,
             calls (run remote (get (JStr "API_KEY") ∅) w3).1
             = calls r1.1 ++ rq :: more).
Proof.
  intros remote r1.
  assert (H1 : r1.2 = Fulfilled (JStr "s3cret")) by (vm_compute; reflexivity).
  assert (H0 : now r1.1 <> 0) by (vm_compute; discriminate).
  split; [split; [exact H1 | exact H0]|].
  destruct (cache_round_trip remote "API_KEY" ∅ example_world (JStr "s3cret"))
    as (storedAt & Hts & Hhit & Hclear); [done | reflexivity | reflexivity | exact H0 | exact H1 |].
  exists storedAt. split; [exact Hts|]. split.
  - apply Hhit. simpl. lia.
  - apply Hclear.
Defined.

(** ** The event loop *)

Section Suspensions.

Local Open Scope nat_scope.

Context {A : Type}.
Variable cfg : VaultConfig.

Lemma suspends_le_mono (n m : nat) (t : Async A) :
  suspends_le cfg n t -> n <= m -> suspends_le cfg m t.
Proof.
  intros H; revert m; induction H as
    [n a|n e|n k _ IH|n k _ IH|n v k Hv _ IH|n url init tmo k _ IH|n ms k _ IH];
    intros m Hle.
  - constructor.
  - constructor.
  - constructor. intros t. by apply IH.
  - constructor. intros v Hv. by apply IH.
  - constructor; [done|]. by apply IH.
  - destruct m as [|m]; [lia|]. constructor. intros r. apply IH. lia.
  - destruct m as [|m]; [lia|]. constructor. apply IH. lia.
Qed.

Lemma suspends_le_try_catch (n p : nat) (t : Async A) (h : error -> Async A) :
  suspends_le cfg n t ->
  (forall e, suspends_le cfg p (h e)) ->
  suspends_le cfg (n + p) (try_catch t h).
Proof.
  intros H Hh; induction H as
    [n a|n e|n k _ IH|n k _ IH|n v k Hv _ IH|n url init tmo k _ IH|n ms k _ IH];
    simpl.
  - constructor.
  - apply suspends_le_mono with p; [apply Hh | lia].
  - constructor. intros t. apply IH.
  - constructor. intros v Hv. by apply IH.
  - constructor; [done|]. apply IH.
  - constructor. intros r. apply IH.
  - constructor. apply IH.
Qed.

End Suspensions.

Section SuspensionsBind.

Local Open Scope nat_scope.

Context {A B : Type}.
Variable cfg : VaultConfig.

Lemma suspends_le_bind (n p : nat) (t : Async A) (f : A -> Async B) :
  suspends_le cfg n t ->
  (forall a, suspends_le cfg p (f a)) ->
  suspends_le cfg (n + p) (t ≫= f).
Proof.
  unfold mbind, Async_bind.
  intros H Hf; induction H as
    [n a|n e|n k _ IH|n k _ IH|n v k Hv _ IH|n url init tmo k _ IH|n ms k _ IH];
    simpl.
  - apply suspends_le_mono with p; [apply Hf | lia].
  - constructor.
  - constructor. intros t. apply IH.
  - constructor. intros v Hv. by apply IH.
  - constructor; [done|]. apply IH.
  - constructor. intros r. apply IH.
  - constructor. apply IH.
Qed.

End SuspensionsBind.

Section SuspensionsOfMethods.

Local Open Scope nat_scope.

Variable cfg : VaultConfig.

Lemma suspends_of_settled {A : Type} (n : nat) (s : settled A) :
  suspends_le cfg n (of_settled s).
Proof. destruct s; constructor. Qed.

Lemma suspends_attempts (url : string) (init : jsobj) (tmo : Z)
    (rem att : nat) :
  suspends_le cfg (2 * rem + 1) (attempts url init tmo rem att).
Proof.
  revert att; induction rem as [|rem IH]; intros att; simpl.
  - constructor. intros r. destruct (try_body r) as [v|e]; simpl; [constructor|].
    destruct (client_error e); constructor.
  - constructor. intros r. destruct (try_body r) as [v|e]; simpl; [constructor|].
    destruct (client_error e); [constructor|].
    replace (rem + S (rem + 0) + 1) with (S (2 * rem + 1)) by lia.
    constructor. apply IH.
Qed.

Lemma suspends_makeRequest (endpoint : string) (options : jsobj) :
  suspends_le cfg (2 * retries cfg + 1) (_makeRequest endpoint options).
Proof.
  unfold _makeRequest. constructor. intros v Hv. rewrite Hv.
  apply suspends_attempts.
Qed.

Lemma config_setCache (this : Vault) (t : Z) (key : string) (value : jsval) :
  config (_setCache this t key value) = config this.
Proof. unfold _setCache. by destruct (negb _). Qed.

Lemma suspends_get (key : jsval) (options : jsobj) :
  suspends_le cfg (2 * S (retries cfg)) (get key options).
Proof.
  unfold get. destruct (_ || _); [constructor|]. cbv zeta.
  destruct (ToString key) as [name|]; [|constructor].
  constructor. intros this Hthis. constructor. intros t.
  destruct (_ && _); [constructor|].
  replace (2 * S (retries cfg)) with (((2 * retries cfg + 1) + (0 + 0)) + 1) by lia.
  apply suspends_le_try_catch.
  - apply suspends_le_bind; [apply suspends_makeRequest|].
    intros data.
    apply suspends_le_bind; [apply suspends_of_settled|].
    intros value. destruct (strict_ne_false _); [|constructor].
    constructor. intros this' Hthis'. constructor. intros t'.
    constructor; [|constructor]. by rewrite config_setCache.
  - intros e. destruct (bool_decide _); constructor.
Qed.

End SuspensionsOfMethods.

Section EventLoop.

Local Open Scope nat_scope.

Context {A : Type}.
Variable remote : backend.
Variable cfg : VaultConfig.

(** Running to the next [await] uses up one suspension of the bound and
    keeps the configuration. *)
Lemma advance_bound (n : nat) (t : Async A) (w : world) :
  suspends_le cfg n t ->
  config (vault w) = cfg ->
  config (vault (advance remote t w).1) = cfg
  /\ task_le cfg n (advance remote t w).2.
Proof.
  intros H; revert w; induction H as
    [n a|n e|n k _ IH|n k _ IH|n v k Hv _ IH|n url init tmo k Hk _|n ms k Hk _];
    intros w Hw; simpl.
  - done.
  - done.
  - by apply IH.
  - by apply IH.
  - by apply IH.
  - split; [done|]. split; [lia|]. apply Hk.
  - split; [done|]. split; [lia|]. apply Hk.
Qed.

Lemma next_event_Some (ts : list (task A)) (i j : nat) (wake : Z) (t : Async A) :
  next_event ts i = Some (j, wake, t) ->
  i <= j /\ ts !! (j - i) = Some (Blocked wake t).
Proof.
  revert i; induction ts as [|st ts IH]; intros i; simpl; [done|].
  destruct st as [wake0 t0|r].
  - destruct (next_event ts (S i)) as [[[j' wake'] t']|] eqn:Hn.
    + destruct (Z.ltb wake' wake0).
      * intros [= -> -> ->]. destruct (IH _ Hn) as [Hle Hl]. split; [lia|].
        replace (j - i) with (S (j - S i)) by lia. exact Hl.
      * intros [= -> -> ->]. split; [lia|]. by rewrite Nat.sub_diag.
    + intros [= -> -> ->]. split; [lia|]. by rewrite Nat.sub_diag.
  - intros Hn. destruct (IH _ Hn) as [Hle Hl]. split; [lia|].
    replace (j - i) with (S (j - S i)) by lia. exact Hl.
Qed.

Lemma next_event_None (ts : list (task A)) (i : nat) :
  next_event ts i = None ->
  map fst (finished ts i) = seq i (length ts).
Proof.
  revert i; induction ts as [|st ts IH]; intros i; simpl; [done|].
  destruct st as [wake0 t0|r].
  - destruct (next_event ts (S i)) as [[[j' wake'] t']|]; [|done].
    by destruct (Z.ltb wake' wake0).
  - intros Hn. simpl. f_equal. by apply IH.
Qed.

Lemma finished_insert (ts : list (task A)) (i j : nat) (wake : Z)
    (t : Async A) (st : task A) :
  ts !! j = Some (Blocked wake t) ->
  finished (<[j:=st]> ts) i ≡ₚ finished ts i ++ completion (i + j) st.
Proof.
  revert i j; induction ts as [|st0 ts IH]; intros i j; [done|].
  destruct j as [|j]; simpl.
  - intros [= ->]. rewrite Nat.add_0_r.
    destruct st as [wake1 t1|r]; simpl.
    + by rewrite app_nil_r.
    + apply Permutation_cons_append.
  - intros Hl. replace (i + S j) with (S i + j) by lia.
    destruct st0 as [wake0 t0|r0]; simpl.
    + by apply IH.
    + f_equiv. by apply IH.
Qed.

Lemma sum_list_insert (ns : list nat) (j n m : nat) :
  ns !! j = Some n ->
  sum_list (<[j:=m]> ns) + n = sum_list ns + m.
Proof.
  revert j; induction ns as [|x ns IH]; intros j; [done|].
  destruct j as [|j]; simpl.
  - intros [= ->]. lia.
  - intros Hl. specialize (IH _ Hl). lia.
Qed.

(** With one unit of fuel per suspension the loop ends, every task settled
    exactly once, and the log it started from is a prefix of the result. *)
Lemma event_loop_total (fuel : nat) (ts : list (task A)) (ns : list nat)
    (log : list (nat * settled A)) (w : world) :
  Forall2 (task_le cfg) ns ts ->
  sum_list ns <= fuel ->
  config (vault w) = cfg ->
  log ≡ₚ finished ts 0 ->
  exists w' log',
    event_loop remote fuel ts log w = Some (w', log')
    /\ config (vault w') = cfg
    /\ map fst log' ≡ₚ seq 0 (length ts)
    /\ exists more, log' = log ++ more.
Proof.
  revert ts ns log w; induction fuel as [|fuel IH];
    intros ts ns log w Hns Hsum Hcfg Hlog.
  - simpl. destruct (next_event ts 0) as [[[j wake] t]|] eqn:Hn.
    + exfalso. apply next_event_Some in Hn as [_ Hl].
      rewrite Nat.sub_0_r in Hl.
      destruct (Forall2_lookup_r _ _ _ _ _ Hns Hl) as (n & Hnl & [Hpos _]).
      pose proof (sum_list_insert ns j n 0 Hnl). lia.
    + exists w, log. split; [done|]. split; [done|]. split.
      * rewrite Hlog. by rewrite (next_event_None _ _ Hn).
      * exists []. by rewrite app_nil_r.
  - simpl. destruct (next_event ts 0) as [[[j wake] t]|] eqn:Hn.
    + apply next_event_Some in Hn as [_ Hl]. rewrite Nat.sub_0_r in Hl.
      destruct (Forall2_lookup_r _ _ _ _ _ Hns Hl) as (n & Hnl & [Hpos Hb]).
      destruct (advance_bound (pred n) t (resume_at wake w) Hb Hcfg) as [Hcfg' Hst].
      destruct (IH (<[j:=(advance remote t (resume_at wake w)).2]> ts)
                   (<[j:=pred n]> ns)
                   (log ++ completion j (advance remote t (resume_at wake w)).2)
                   (advance remote t (resume_at wake w)).1)
        as (w' & log' & Hrun & Hcfg'' & Hperm & more & Hmore).
      * by apply Forall2_insert.
      * pose proof (sum_list_insert ns j n (pred n) Hnl). lia.
      * exact Hcfg'.
      * rewrite (finished_insert ts 0 j wake t _ Hl). simpl. by rewrite Hlog.
      * exists w', log'. split; [exact Hrun|]. split; [exact Hcfg''|]. split.
        -- by rewrite length_insert in Hperm.
        -- exists (completion j (advance remote t (resume_at wake w)).2 ++ more).
           by rewrite Hmore, <- app_assoc.
    + exists w, log. split; [done|]. split; [done|]. split.
      * rewrite Hlog. by rewrite (next_event_None _ _ Hn).
      * exists []. by rewrite app_nil_r.
Qed.

(** The synchronous start of the tasks. *)
Lemma start_all_bound (n : nat) (ts : list (Async A)) (i : nat) (w : world) :
  Forall (suspends_le cfg n) ts ->
  config (vault w) = cfg ->
  let started := start_all remote ts i w in
  config (vault started.1) = cfg
  /\ Forall (task_le cfg n) started.2.1
  /\ length started.2.1 = length ts
  /\ started.2.2 = finished started.2.1 i.
Proof.
  revert i w; induction ts as [|t ts IH]; intros i w Hts Hcfg; simpl; [done|].
  apply Forall_cons in Hts as [Ht Hts].
  destruct (advance_bound n t w Ht Hcfg) as [Hcfg1 Hst].
  destruct (IH (S i) (advance remote t w).1 Hts Hcfg1) as (Hcfg2 & Hall & Hlen & Hfin).
  split; [exact Hcfg2|]. split; [by constructor|]. split; [by rewrite Hlen|].
  rewrite Hfin. by destruct (advance remote t w).2.
Qed.

Lemma allSettled_total (fuel n : nat) (ts : list (Async A)) (w : world) :
  Forall (suspends_le cfg n) ts ->
  config (vault w) = cfg ->
  length ts * n <= fuel ->
  exists w' log,
    allSettled remote fuel ts w = Some (w', log)
    /\ config (vault w') = cfg
    /\ map fst log ≡ₚ seq 0 (length ts).
Proof.
  intros Hts Hcfg Hfuel. unfold allSettled.
  destruct (start_all_bound n ts 0 w Hts Hcfg) as (Hcfg1 & Hall & Hlen & Hfin).
  cbv zeta in *.
  destruct (event_loop_total fuel (start_all remote ts 0 w).2.1
              (replicate (length ts) n) (start_all remote ts 0 w).2.2
              (start_all remote ts 0 w).1)
    as (w' & log' & Hrun & Hcfg' & Hperm & _).
  - rewrite <- Hlen. by apply Forall2_replicate_l.
  - by rewrite sum_list_replicate.
  - exact Hcfg1.
  - by rewrite Hfin.
  - exists w', log'. by rewrite Hlen in Hperm.
Qed.

End EventLoop.

(** ** Batch retrieval *)

(** *** Assigning to [results] *)

(** An assignment stores its value under its name, and touches no other
    name, for every name but [__proto__]. *)
Lemma own_assign (o : object) (p q : string) (v : jsval) :
  q <> "__proto__" ->
  own (assign o p v) !! q = if decide (p = q) then Some v else own o !! q.
Proof.
  intros Hq. unfold assign. destruct (decide (p = q)) as [->|Hpq].
  - rewrite (bool_decide_eq_false_2 (q = "__proto__")) by done. simpl.
    by rewrite lookup_insert_eq.
  - destruct (_ && _ && _).
    + by destruct v.
    + simpl. by rewrite lookup_insert_ne.
Qed.

(** An own property is there because it was assigned. *)
Lemma own_assign_origin (o : object) (p q : string) (v x : jsval) :
  own (assign o p v) !! q = Some x ->
  (p = q /\ x = v) \/ own o !! q = Some x.
Proof.
  unfold assign. destruct (_ && _ && _).
  - destruct v; simpl; auto.
  - simpl. intros [[-> ->]|[_ ?]]%lookup_insert_Some; auto.
Qed.

(** On an object that inherits the accessor, assigning to [__proto__]
    defines no property. *)
Lemma assign_proto_defines_nothing (o : object) (v : jsval) :
  own o !! "__proto__" = None ->
  inherits_proto_accessor (proto o) = true ->
  own (assign o "__proto__" v) = own o.
Proof.
  intros Hown Hacc. unfold assign. rewrite Hown, Hacc. simpl.
  by destruct v.
Qed.

(** An index is in a log of distinct indices once. *)
Lemma settled_once {A : Type} (log : list (nat * A)) (i : nat) (a b : A) :
  NoDup (map fst log) -> (i, a) ∈ log -> (i, b) ∈ log -> a = b.
Proof.
  induction log as [|[j c] log IH]; [by intros _ ?%elem_of_nil|].
  simpl. intros [Hnot Hnd]%NoDup_cons Ha Hb.
  apply elem_of_cons in Ha as [Ha|Ha]; apply elem_of_cons in Hb as [Hb|Hb].
  - congruence.
  - injection Ha as -> ->. exfalso. apply Hnot.
    apply list_elem_of_fmap. by exists (j, b).
  - injection Hb as -> ->. exfalso. apply Hnot.
    apply list_elem_of_fmap. by exists (j, a).
  - by apply IH.
Qed.

Section Collect.

Variable failOnMissing : bool.
Variable keys : list jsval.

Lemma collect_snoc (log : list (nat * settled jsval)) (c : nat * settled jsval) :
  collect failOnMissing keys (log ++ [c]) =
  match keys !! c.1 with
  | Some key => record_key failOnMissing key c.2 (collect failOnMissing keys log)
  | None => collect failOnMissing keys log
  end.
Proof. unfold collect. by rewrite foldl_app. Qed.

(** The body of the arrow function for a key of another name leaves the
    property [p] alone. *)
Lemma record_key_other (key : jsval) (r : settled jsval)
    (acc : object * list (jsval * string)) (p : string) :
  p <> "__proto__" -> ToString key <> Some p ->
  own (record_key failOnMissing key r acc).1 !! p = own acc.1 !! p.
Proof.
  intros Hp Hk. unfold record_key.
  destruct (ToString key) as [q|]; [|by destruct r, failOnMissing].
  assert (Hq : q <> p) by congruence.
  destruct r as [value|e]; [|destruct failOnMissing]; simpl; try done;
    rewrite own_assign by done; by rewrite decide_False.
Qed.

(** For a key named [p] it stores the value, or [null]. *)
Lemma record_key_stores (key : jsval) (r : settled jsval)
    (acc : object * list (jsval * string)) (p : string) :
  p <> "__proto__" -> ToString key = Some p ->
  failOnMissing = false \/ (exists value, r = Fulfilled value) ->
  own (record_key failOnMissing key r acc).1 !! p = Some (value_or_null r).
Proof.
  intros Hp Hk Hmode. unfold record_key. rewrite Hk.
  destruct r as [value|e]; simpl.
  - rewrite own_assign by done. by rewrite decide_True.
  - destruct Hmode as [->|[value [=]]]. simpl.
    rewrite own_assign by done. by rewrite decide_True.
Qed.

(** [errors] holds the failures when [failOnMissing] is set, and nothing
    otherwise; the keys of the calls that returned are strings, which
    convert. *)
Lemma collect_errors (log : list (nat * settled jsval)) :
  (forall i value key,
     (i, Fulfilled value) ∈ log -> keys !! i = Some key ->
     is_Some (ToString key)) ->
  (collect failOnMissing keys log).2
  = if failOnMissing then failures keys log else [].
Proof.
  induction log as [|c log IH] using rev_ind; intros Hs;
    [by destruct failOnMissing|].
  assert (IH' : (collect failOnMissing keys log).2
                = if failOnMissing then failures keys log else []).
  { apply IH. intros i value key Hin. apply (Hs i value key).
    apply elem_of_app. by left. }
  rewrite collect_snoc. unfold failures in *. rewrite omap_app. simpl.
  destruct c as [i [value|e]]; simpl; destruct (keys !! i) as [key|] eqn:Hk;
    simpl.
  - destruct (Hs i value key) as [p Hp]; [|done|].
    { apply elem_of_app. right. by apply list_elem_of_singleton. }
    unfold record_key. rewrite Hp. simpl. rewrite IH'.
    destruct failOnMissing; by rewrite ?app_nil_r.
  - rewrite IH'. destruct failOnMissing; by rewrite ?app_nil_r.
  - unfold record_key. destruct failOnMissing; simpl; [by rewrite IH'|].
    by destruct (ToString key).
  - rewrite IH'. destruct failOnMissing; by rewrite ?app_nil_r.
Qed.

Lemma failures_elem (log : list (nat * settled jsval)) (i : nat)
    (key : jsval) (e : error) :
  keys !! i = Some key -> (i, Rejected e) ∈ log ->
  (key, message e) ∈ failures keys log.
Proof.
  intros Hk Hin. unfold failures. apply list_elem_of_omap.
  exists (i, Rejected e). split; [done|]. simpl. by rewrite Hk.
Qed.

Lemma failures_origin (log : list (nat * settled jsval)) (key : jsval)
    (reason : string) :
  (key, reason) ∈ failures keys log ->
  exists i e, keys !! i = Some key /\ (i, Rejected e) ∈ log /\ reason = message e.
Proof.
  unfold failures. intros ([i r] & Hin & Hc)%list_elem_of_omap. simpl in Hc.
  destruct r as [value|e]; [done|].
  destruct (keys !! i) as [key'|] eqn:Hk; [|done].
  injection Hc as <- <-. eauto.
Qed.

Lemma failures_snoc_nil (log : list (nat * settled jsval))
    (c : nat * settled jsval) :
  failures keys (log ++ [c]) = [] -> failures keys log = [].
Proof.
  unfold failures. rewrite omap_app. by intros [? _]%app_eq_nil.
Qed.

(** What is stored under a name comes from a call for a key of that name. *)
Lemma collect_origin (log : list (nat * settled jsval)) (p : string) (v : jsval) :
  own (collect failOnMissing keys log).1 !! p = Some v ->
  exists i key r,
    keys !! i = Some key /\ ToString key = Some p /\ (i, r) ∈ log
    /\ v = value_or_null r.
Proof.
  induction log as [|c log IH] using rev_ind; [done|].
  rewrite collect_snoc. destruct c as [i r]; simpl.
  assert (Hold : own (collect failOnMissing keys log).1 !! p = Some v ->
                 exists j key' r', keys !! j = Some key' /\ ToString key' = Some p
                   /\ (j, r') ∈ log ++ [(i, r)] /\ v = value_or_null r').
  { intros H. destruct (IH H) as (j & key & r' & ? & ? & ? & ?).
    exists j, key, r'. repeat split; auto. apply elem_of_app. by left. }
  destruct (keys !! i) as [key|] eqn:Hk; [|exact Hold].
  assert (Hnew : forall q x, ToString key = Some q -> x = value_or_null r ->
                 own (assign (collect failOnMissing keys log).1 q x) !! p = Some v ->
                 exists j key' r', keys !! j = Some key' /\ ToString key' = Some p
                   /\ (j, r') ∈ log ++ [(i, r)] /\ v = value_or_null r').
  { intros q x Hq -> H. apply own_assign_origin in H as [[-> ->]|H]; [|auto].
    exists i, key, r. repeat split; auto. apply elem_of_app. right.
    by apply list_elem_of_singleton. }
  unfold record_key.
  destruct r as [value|e], (ToString key) as [q|] eqn:Hq, failOnMissing;
    simpl; try exact Hold; by apply (Hnew q).
Qed.

(** When the calls for the keys named [p] agree on what to store, that is
    what the property [p] holds. *)
Lemma collect_agree (log : list (nat * settled jsval)) (p : string) (x : jsval) :
  p <> "__proto__" ->
  failOnMissing = false \/ failures keys log = [] ->
  (forall j key r,
     (j, r) ∈ log -> keys !! j = Some key -> ToString key = Some p ->
     value_or_null r = x) ->
  (exists j key r,
     (j, r) ∈ log /\ keys !! j = Some key /\ ToString key = Some p) ->
  own (collect failOnMissing keys log).1 !! p = Some x.
Proof.
  intros Hp. induction log as [|c log IH] using rev_ind.
  { intros _ _ (j & key & r & Hin & _). by apply elem_of_nil in Hin. }
  intros Hmode Hall Hex. rewrite collect_snoc.
  assert (Hmode' : failOnMissing = false \/ failures keys log = []).
  { destruct Hmode as [?|Hf]; [by left|]. right. by eapply failures_snoc_nil. }
  assert (Hall' : forall j key r,
            (j, r) ∈ log -> keys !! j = Some key -> ToString key = Some p ->
            value_or_null r = x).
  { intros j key r Hin. apply Hall. apply elem_of_app. by left. }
  destruct c as [i r]. simpl.
  assert (Hrest : (forall key, keys !! i = Some key -> ToString key <> Some p) ->
                  own (collect failOnMissing keys log).1 !! p = Some x).
  { intros Hno. apply IH; auto.
    destruct Hex as (j & key & r' & Hin & Hk & Hkp).
    apply elem_of_app in Hin as [Hin|Hin%list_elem_of_singleton];
      [by exists j, key, r'|].
    injection Hin as -> ->. by destruct (Hno key Hk). }
  destruct (keys !! i) as [key|] eqn:Hk; [|apply Hrest; by intros].
  destruct (decide (ToString key = Some p)) as [Hkp|Hkp].
  - rewrite record_key_stores; [|done|done|].
    + f_equal. apply (Hall i key r); [|done|done].
      apply elem_of_app. right. by apply list_elem_of_singleton.
    + destruct Hmode as [?|Hf]; [by left|]. right.
      destruct r as [value|e]; [by eauto|].
      exfalso. unfold failures in Hf. rewrite omap_app in Hf.
      apply app_eq_nil in Hf as [_ Hf]. simpl in Hf. by rewrite Hk in Hf.
  - rewrite record_key_other by done. apply Hrest. by intros ? [= <-].
Qed.

(** When no other key has the same name, the entry is the outcome of the
    call for that key. *)
Lemma collect_exact (log : list (nat * settled jsval)) (i : nat)
    (key : jsval) (r : settled jsval) (p : string) :
  p <> "__proto__" -> ToString key = Some p ->
  failOnMissing = false \/ failures keys log = [] ->
  NoDup (map fst log) ->
  (forall j key', keys !! j = Some key' -> ToString key' = Some p -> j = i) ->
  keys !! i = Some key -> (i, r) ∈ log ->
  own (collect failOnMissing keys log).1 !! p = Some (value_or_null r).
Proof.
  intros Hp Hkp Hmode Hnd Huniq Hk Hin.
  apply collect_agree; [done|done| |by exists i, key, r].
  intros j key' r' Hin' Hk' Hkp'.
  assert (j = i) as -> by eauto.
  f_equal. by apply (settled_once log i).
Qed.

End Collect.

(** Every call of the batch settles, exactly once, within the fuel that
    [getMany] gives the event loop. *)
Lemma getMany_settles (remote : backend) (keys : list jsval) (options : jsobj)
    (w : world) :
  exists w' log,
    allSettled remote (getMany_events w (length keys))
               (map (fun key => get key options) keys) w = Some (w', log)
    /\ map fst log ≡ₚ seq 0 (length keys).
Proof.
  destruct (allSettled_total remote (config (vault w))
              (getMany_events w (length keys))
              (2 * S (retries (config (vault w))))
              (map (fun key => get key options) keys) w)
    as (w' & log & Hrun & _ & Hperm).
  - apply Forall_forall. intros t Hin.
    apply list_elem_of_fmap in Hin as (key & -> & _). apply suspends_get.
  - reflexivity.
  - rewrite length_map. reflexivity.
  - exists w', log. split; [exact Hrun|]. by rewrite length_map in Hperm.
Qed.

Lemma settled_everywhere (log : list (nat * settled jsval)) (n i : nat) :
  map fst log ≡ₚ seq 0 n -> (i < n)%nat -> exists r, (i, r) ∈ log.
Proof.
  intros Hperm Hi.
  assert (Hin : i ∈ map fst log).
  { rewrite Hperm. apply elem_of_seq. lia. }
  apply list_elem_of_fmap in Hin as ([j r] & -> & Hin). eauto.
Qed.

(** *** The check of the [keys] argument *)

Lemma advance_get_invalid (remote : backend) (key : jsval) (options : jsobj)
    (w : world) :
  (forall s, key = JStr s -> s = "") ->
  advance remote (get key options) w
  = (w, Done (Rejected (new_Error "Secret key must be a non-empty string"))).
Proof.
  intros Hk. unfold get.
  destruct key as [| |b|n|s|l|o]; try reflexivity.
  - by destruct b.
  - simpl. by destruct (negb (n =? 0)).
  - rewrite (Hk s eq_refl). reflexivity.
Qed.

(** A call that settles at once is in the log of the synchronous start. *)
Lemma start_all_immediate {A : Type} (remote : backend) (ts : list (Async A))
    (i0 i : nat) (t : Async A) (r : settled A) (w : world) :
  ts !! i = Some t ->
  (forall w1, advance remote t w1 = (w1, Done r)) ->
  ((i0 + i)%nat, r) ∈ (start_all remote ts i0 w).2.2.
Proof.
  revert i0 i w; induction ts as [|t0 ts IH]; intros i0 i w; [done|].
  destruct i as [|i]; simpl.
  - intros [= ->] Hadv. rewrite Hadv. simpl. rewrite Nat.add_0_r.
    apply list_elem_of_here.
  - intros Hl Hadv. apply elem_of_app. right.
    replace (i0 + S i)%nat with (S i0 + i)%nat by lia. by apply IH.
Qed.

(** The loop only adds to the log. *)
Lemma event_loop_prefix {A : Type} (remote : backend) (fuel : nat)
    (ts : list (task A)) (log log' : list (nat * settled A)) (w w' : world) :
  event_loop remote fuel ts log w = Some (w', log') ->
  exists more, log' = log ++ more.
Proof.
  revert ts log w; induction fuel as [|fuel IH]; intros ts log w; simpl;
    destruct (next_event ts 0) as [[[j wake] t]|].
  - done.
  - intros [= _ <-]. exists []. by rewrite app_nil_r.
  - intros Hrun. apply IH in Hrun as [more ->].
    eexists. by rewrite <- app_assoc.
  - intros [= _ <-]. exists []. by rewrite app_nil_r.
Qed.

(** The call for an element that is not a non-empty string is rejected, and
    so is every call but those for non-empty strings. *)
Lemma settled_invalid (remote : backend) (keys : list jsval) (options : jsobj)
    (w w' : world) (log : list (nat * settled jsval)) (i : nat) (key : jsval) :
  allSettled remote (getMany_events w (length keys))
             (map (fun key => get key options) keys) w = Some (w', log) ->
  keys !! i = Some key ->
  (forall s, key = JStr s -> s = "") ->
  (i, Rejected (new_Error "Secret key must be a non-empty string")) ∈ log.
Proof.
  intros Hrun Hk Hbad. unfold allSettled in Hrun.
  apply event_loop_prefix in Hrun as [more ->].
  apply elem_of_app. left.
  apply (start_all_immediate remote _ 0%nat i (get key options)).
  - by rewrite list_lookup_fmap, Hk.
  - intros w1. by apply advance_get_invalid.
Qed.

Lemma settled_fulfilled_string (remote : backend) (keys : list jsval)
    (options : jsobj) (w w' : world) (log : list (nat * settled jsval))
    (i : nat) (key value : jsval) :
  allSettled remote (getMany_events w (length keys))
             (map (fun key => get key options) keys) w = Some (w', log) ->
  map fst log ≡ₚ seq 0 (length keys) ->
  keys !! i = Some key -> (i, Fulfilled value) ∈ log ->
  exists s, key = JStr s /\ s <> "".
Proof.
  intros Hrun Hperm Hk Hin.
  assert (Hnd : NoDup (map fst log)) by (rewrite Hperm; apply NoDup_seq).
  assert (Hno : (forall s, key = JStr s -> s = "") -> False).
  { intros Hbad.
    pose proof (settled_invalid remote keys options w w' log i key Hrun Hk Hbad)
      as Hin'.
    by pose proof (settled_once log i _ _ Hnd Hin Hin'). }
  destruct key as [| |b|n|s|l|o]; try (exfalso; apply Hno; intros; discriminate).
  destruct (decide (s = "")) as [->|Hs]; [|by eauto].
  exfalso. apply Hno. by intros ? [= <-].
Qed.

(** The errors that [getMany] has collected when the calls have settled. *)
Lemma getMany_errors (remote : backend) (keys : list jsval)
    (options : jsobj) (w w' : world) (log : list (nat * settled jsval))
    (failOnMissing : bool) :
  allSettled remote (getMany_events w (length keys))
             (map (fun key => get key options) keys) w = Some (w', log) ->
  map fst log ≡ₚ seq 0 (length keys) ->
  (collect failOnMissing keys log).2
  = if failOnMissing then failures keys log else [].
Proof.
  intros Hrun Hperm. apply collect_errors. intros i value key Hin Hk.
  destruct (settled_fulfilled_string remote keys options w w' log i key value)
    as (s & -> & _); by eauto.
Qed.

(** C8 as stated fails: an array with a number in it is not rejected; the
    number gets [null] and the string its value. *)
Lemma getMany_accepts_non_string_element :
  snd <$> getMany (secrets_backend "https://vault.test/api" [("a", JStr "A")])
                  (JArr [JStr "a"; JNum 5]) ∅ example_world
  = Some (Fulfilled {| own := {[ "a" := JStr "A"; "5" := JNull ]};
                       proto := Object_prototype |}).
Proof. vm_compute. reflexivity. Qed.

(** C8, amended.  When [keys] is not an array, [getMany] throws "Keys must be
    an array" and leaves the world, so the list of requests, as it was.  An
    array is not rejected for its elements: [getMany] does not throw that
    error, and without [failOnMissing] it returns an object, in which an
    element that is not a non-empty string has the own property of its name
    set to [null], when the element converts to a name, the name is not
    [__proto__] and no other element has it. *)
Theorem getMany_checks_array_only (remote : backend) (keys : jsval)
    (options : jsobj) (w : world) :
  ((forall l, keys <> JArr l) ->
   getMany remote keys options w
   = Some (w, Rejected (new_Error "Keys must be an array")))
  /\ (forall l, keys = JArr l ->
      exists w' r,
        getMany remote keys options w = Some (w', r)
        /\ r <> Rejected (new_Error "Keys must be an array")
        /\ (truthy (prop options "failOnMissing") = false ->
            exists results,
              r = Fulfilled results
              /\ forall i key p,
                   l !! i = Some key ->
                   (forall s, key = JStr s -> s = "") ->
                   ToString key = Some p -> p <> "__proto__" ->
                   (forall j key', l !! j = Some key' ->
                                   ToString key' = Some p -> j = i) ->
                   own results !! p = Some JNull)).
Proof.
  split.
  - intros Hna. destruct keys as [| |b|n|s|l|o]; try reflexivity.
    by destruct (Hna l).
  - intros l ->.
    destruct (getMany_settles remote l options w) as (w' & log & Hrun & Hperm).
    unfold getMany. rewrite Hrun.
    set (fm := truthy (prop options "failOnMissing")).
    destruct ((0 <? Z.of_nat (length (collect fm l log).2)) && fm) eqn:Hthrow.
    + assert (Hfm : fm = true) by (by apply andb_true_iff in Hthrow as [_ ?]).
      destruct (errors_text _) as [text|];
        (eexists _, _; split; [reflexivity|]; split; [discriminate|]);
        intros Hfm'; congruence.
    + eexists _, _. split; [reflexivity|]. split; [discriminate|].
      intros Hfm. eexists. split; [reflexivity|].
      intros i key p Hk Hbad Hp Hnp Huniq.
      change (Some JNull) with
        (Some (value_or_null
                 (Rejected (new_Error "Secret key must be a non-empty string")))).
      apply (collect_exact fm l log i key); auto.
      * rewrite Hperm. apply NoDup_seq.
      * by apply (settled_invalid remote l options w w' log i key).
Qed.

Lemma getMany_checks_array_only_witness :
  let remote := secrets_backend "https://vault.test/api" [("a", JStr "A")] in
  getMany remote (JStr "a") ∅ example_world
  = Some (example_world, Rejected (new_Error "Keys must be an array"))
  /\ exists w' results,
       getMany remote (JArr [JStr "a"; JNum 5]) ∅ example_world
       = Some (w', Fulfilled results)
       /\ own results !! "5" = Some JNull.
Proof.
  intros remote. split.
  - apply (getMany_checks_array_only remote (JStr "a") ∅ example_world).
    intros l. discriminate.
  - destruct (getMany_checks_array_only remote (JArr [JStr "a"; JNum 5]) ∅
                example_world) as [_ Harr].
    destruct (Harr [JStr "a"; JNum 5] eq_refl) as (w' & r & Hget & _ & Hret).
    destruct Hret as (results & -> & Hnull); [reflexivity|].
    exists w', results. split; [exact Hget|].
    apply (Hnull 1%nat (JNum 5) "5");
      [done | intros s; discriminate | reflexivity | done |].
    intros [|[|j]] key' Hj Hn; cbn in Hj;
      first [done | discriminate Hj
            | injection Hj as <-; cbn in Hn; discriminate Hn].
Defined.

(** *** A key named [__proto__] *)

(** C5, at the input where the code departs from it: one of the requested
    keys is the string [__proto__].  [get] of that key returns the secret,
    and [results[key] = value] then runs the [__proto__] setter that [{}]
    inherits: a string is ignored, and the object [getMany] returns has the
    entry of "a" and no entry for the requested key.  When the key is
    missing, [results[key] = null] makes [null] the prototype of [results],
    and again there is no entry holding [null]. *)
Theorem getMany_drops_key_named_proto :
  let found :=
    secrets_backend "https://vault.test/api"
                    [("a", JStr "A"); ("__proto__", JStr "P")] in
  let missing := secrets_backend "https://vault.test/api" [("a", JStr "A")] in
  let keys := JArr [JStr "a"; JStr "__proto__"] in
  (run found (get (JStr "__proto__") ∅) example_world).2 = Fulfilled (JStr "P")
  /\ snd <$> getMany found keys ∅ example_world
     = Some (Fulfilled {| own := {[ "a" := JStr "A" ]};
                          proto := Object_prototype |})
  /\ (run missing (get (JStr "__proto__") ∅) example_world).2
     = Rejected (new_Error "Secret with key '__proto__' not found")
  /\ snd <$> getMany missing keys ∅ example_world
     = Some (Fulfilled {| own := {[ "a" := JStr "A" ]};
                          proto := null_prototype |})
  /\ ({[ "a" := JStr "A" ]} : jsobj) !! "__proto__" = None.
Proof. vm_compute. repeat split; reflexivity. Qed.

(** For contrast, the example of the specification: "a" is there, "b" is
    missing. *)
Example getMany_partial :
  snd <$> getMany (secrets_backend "https://vault.test/api" [("a", JStr "A")])
                  (JArr [JStr "a"; JStr "b"]) ∅ example_world
  = Some (Fulfilled {| own := {[ "a" := JStr "A"; "b" := JNull ]};
                       proto := Object_prototype |}).
Proof. vm_compute. reflexivity. Qed.

Example getMany_failOnMissing :
  snd <$> getMany (secrets_backend "https://vault.test/api" [("a", JStr "A")])
                  (JArr [JStr "a"; JStr "b"])
                  {[ "failOnMissing" := JBool true ]} example_world
  = Some (Rejected (new_Error
       "Failed to retrieve secrets: b: Secret with key 'b' not found")).
Proof. vm_compute. reflexivity. Qed.

(** *** One key: the batch against the single call *)

Section SingleTask.

Local Open Scope nat_scope.

Context {A : Type}.
Variable remote : backend.
Variable cfg : VaultConfig.

Lemma run_advance (t : Async A) (w : world) :
  run remote t w =
  match (advance remote t w).2 with
  | Done r => ((advance remote t w).1, r)
  | Blocked wake t' => run remote t' (resume_at wake (advance remote t w).1)
  end.
Proof.
  revert w; induction t as [a|e|k IH|k IH|v k IH|url init tmo k IH|ms k IH];
    intros w; simpl; auto.
Qed.

Lemma event_loop_settled (fuel : nat) (r : settled A)
    (log : list (nat * settled A)) (w : world) :
  event_loop remote fuel [Done r] log w = Some (w, log).
Proof. by destruct fuel. Qed.

(** A single task in the event loop does what [run] does. *)
Lemma event_loop_single (fuel n : nat) (t : Async A) (wake : Z)
    (log : list (nat * settled A)) (w : world) :
  suspends_le cfg n t ->
  config (vault w) = cfg ->
  n < fuel ->
  event_loop remote fuel [Blocked wake t] log w
  = Some ((run remote t (resume_at wake w)).1,
          log ++ [(0, (run remote t (resume_at wake w)).2)]).
Proof.
  revert n t wake log w; induction fuel as [|fuel IH];
    intros n t wake log w Hb Hcfg Hlt; [lia|].
  simpl. rewrite (run_advance t (resume_at wake w)).
  destruct (advance_bound remote cfg n t (resume_at wake w) Hb Hcfg) as [Hcfg' Hst].
  destruct (advance remote t (resume_at wake w)) as [w1 [wake' t'|r]]; simpl in *.
  - destruct Hst as [Hpos Hb']. rewrite app_nil_r.
    apply (IH (pred n)); [done | done | lia].
  - apply event_loop_settled.
Qed.

Lemma allSettled_single (fuel n : nat) (t : Async A) (w : world) :
  suspends_le cfg n t ->
  config (vault w) = cfg ->
  n <= fuel ->
  allSettled remote fuel [t] w
  = Some ((run remote t w).1, [(0, (run remote t w).2)]).
Proof.
  intros Hb Hcfg Hle. unfold allSettled. simpl.
  rewrite (run_advance t w).
  destruct (advance_bound remote cfg n t w Hb Hcfg) as [Hcfg' Hst].
  destruct (advance remote t w) as [w1 [wake' t'|r]]; simpl in *.
  - destruct Hst as [Hpos Hb'].
    rewrite (event_loop_single fuel (pred n) t' wake' [] w1); [done..|lia].
  - apply event_loop_settled.
Qed.

End SingleTask.

(** [getMany([key])] is [get(key)] with its outcome wrapped: stored under
    the name of the key, or listed in the message of the error; the key of a
    call that returns is a string, so the fourth case does not occur. *)
Lemma getMany_single (remote : backend) (key : jsval) (options : jsobj)
    (w : world) :
  getMany remote (JArr [key]) options w =
  let r := run remote (get key options) w in
  let failOnMissing := truthy (prop options "failOnMissing") in
  Some (r.1,
        match r.2, ToString key with
        | Fulfilled value, Some p => Fulfilled (assign empty_object p value)
        | Rejected e, Some p =>
            if failOnMissing then
              Rejected (new_Error ("Failed to retrieve secrets: "
                                   +:+ p +:+ ": " +:+ message e))
            else Fulfilled (assign empty_object p JNull)
        | _, None =>
            if failOnMissing then Rejected TypeError_convert
            else Fulfilled empty_object
        end).
Proof.
  unfold getMany. cbn [map length].
  rewrite (allSettled_single remote (config (vault w))
             (getMany_events w 1) (2 * S (retries (config (vault w))))
             (get key options) w);
    [|apply suspends_get|done|unfold getMany_events; lia].
  cbv zeta. unfold collect. cbn [foldl fst snd lookup list_lookup].
  unfold record_key, errors_text.
  destruct (run remote (get key options) w) as [w1 [value|e]]; cbn [fst snd];
    destruct (ToString key) as [p|] eqn:Hp;
    destruct (truthy (prop options "failOnMissing"));
    cbn [fst snd length app mapM]; rewrite ?Hp; reflexivity.
Qed.

(** Every request that [get] sends carries the three headers. *)
Lemma get_requests_carry_headers (remote : backend) (key : jsval)
    (options : jsobj) (w : world) (rq : request) :
  rq ∈ calls (run remote (get key options) w).1 ->
  rq ∈ calls w
  \/ rq.2 !! "headers" = Some (JObj (default_headers (vault w))).
Proof.
  assert (Hinv : (forall s, key = JStr s -> s = "") ->
                 rq ∈ calls (run remote (get key options) w).1 -> rq ∈ calls w).
  { intros Hk. by rewrite run_get_invalid. }
  destruct key as [| |b|n|s|l|o];
    try (intros H; left; revert H; apply Hinv; intros; discriminate).
  destruct (decide (s = "")) as [->|Hs].
  { intros H; left; revert H; apply Hinv. by intros s [= <-]. }
  clear Hinv. rewrite run_get by done. cbv zeta.
  destruct (_ && _); [by left|].
  pose proof (makeRequest_requests remote ("/key/" +:+ encodeURIComponent s) ∅ w rq) as Hrq.
  assert (Hin : rq ∈ calls (run remote (_makeRequest ("/key/" +:+ encodeURIComponent s) ∅) w).1 ->
                rq ∈ calls w \/ rq.2 !! "headers" = Some (JObj (default_headers (vault w)))).
  { intros H. destruct (Hrq H) as [Hold| ->]; [by left|]. right.
    by apply requestOptions_default_headers. }
  destruct (run remote (_makeRequest _ ∅) w) as [w1 [data|e]];
    cbn [fst snd] in *; [|exact Hin].
  destruct (get_prop data "value"); cbn [fst snd]; [|exact Hin].
  destruct (strict_ne_false _); exact Hin.
Qed.

(** * Further properties *)

(** ** Retrying request executor: every run *)

Section ExecutorRuns.

Variable remote : backend.


(** The first reply that is not retryable decides the result. *)
Lemma attempts_first_decides (url : string) (init : jsobj) (tmo : Z)
    (k rem att : nat) (w : world) :
  (k <= rem)%nat ->
  (forall i : nat, (i < k)%nat ->
     retryable tmo (remote (length (calls w) + i)%nat (url, init)) = true) ->
  retryable tmo (remote (length (calls w) + k)%nat (url, init)) = false ->
  let r := run remote (attempts url init tmo rem att) w in
  trace r.1 = trace w ++ retry_trace (url, init) k att
  /\ r.2 = try_body (settle tmo (remote (length (calls w) + k)%nat (url, init))).
Proof.
  revert rem att w; induction k as [|k IH]; intros rem att w Hle Hbefore Hk.
  - rewrite Nat.add_0_r in Hk. cbv zeta. rewrite run_attempts; cbv zeta.
    rewrite Nat.add_0_r. unfold retryable in Hk.
    destruct (try_body _) as [v|e]; [done|].
    destruct (client_error e); [done|discriminate].
  - destruct rem as [|rem]; [lia|]. cbv zeta.
    rewrite attempts_retry
      by (specialize (Hbefore 0%nat); rewrite Nat.add_0_r in Hbefore;
          apply Hbefore; lia).
    cbv zeta. set (w2 := resume_at _ (log_sleep _ _)).
    assert (Hc : length (calls w2) = S (length (calls w))).
    { unfold w2, calls; simpl. rewrite !omap_app, !length_app; simpl. lia. }
    destruct (IH rem (S att) w2) as [Ht Hr].
    + lia.
    + intros i Hi. rewrite Hc.
      replace (S (length (calls w)) + i)%nat with (length (calls w) + S i)%nat by lia.
      apply Hbefore. lia.
    + rewrite Hc.
      by replace (S (length (calls w)) + k)%nat with (length (calls w) + S k)%nat by lia.
    + rewrite Ht, Hr, Hc. split.
      * unfold w2; simpl. by rewrite <- !app_assoc.
      * do 3 f_equal. lia.
Qed.

End ExecutorRuns.


(** X2.  When the first [k] replies to a call are retryable, [k] is at most
    [retries], and the next reply is not retryable (a success, or a 4xx other
    than 429), [_makeRequest] stops there: [k + 1] requests, the delays of
    attempts [0] to [k - 1], and the outcome of that reply, payload or
    error, as it is. *)
Theorem makeRequest_first_final_reply_decides (remote : backend)
    (endpoint : string) (options : jsobj) (w : world) (k : nat) :
  let this := vault w in
  let rq := (apiUrl (config this) +:+ endpoint, requestOptions this options) in
  let r := run remote (_makeRequest endpoint options) w in
  (k <= retries (config this))%nat ->
  (forall i : nat, (i < k)%nat ->
     retryable (timeout (config this))
               (remote (length (calls w) + i)%nat rq) = true) ->
  retryable (timeout (config this))
            (remote (length (calls w) + k)%nat rq) = false ->
  calls r.1 = calls w ++ replicate (S k) rq
  /\ sleeps r.1 = sleeps w ++ map backoff (seq 0 k)
  /\ r.2 = try_body (settle (timeout (config this))
                            (remote (length (calls w) + k)%nat rq)).
Proof.
  intros this rq r Hk Hbefore Hfinal.
  destruct (attempts_first_decides remote (apiUrl (config this) +:+ endpoint)
              (requestOptions this options) (timeout (config this))
              k (retries (config this)) 0%nat w Hk Hbefore Hfinal) as [Ht Hr].
  change (run remote (attempts _ _ _ _ _) w) with r in Ht, Hr.
  split; [|split].
  - unfold calls. by rewrite Ht, omap_app, retry_trace_requests.
  - unfold sleeps. by rewrite Ht, omap_app, retry_trace_delays.
  - exact Hr.
Qed.

Lemma makeRequest_first_final_reply_decides_witness :
  let remote := flaky (JObj {[ "id" := JStr "v-1" ]}) in
  let r := run remote (_makeRequest "/info" ∅) example_world in
  ((2 <= 3)%nat
   /\ retryable 10000 (remote 0%nat ("https://vault.test/api/info",
                                     requestOptions example_vault ∅)) = true
   /\ retryable 10000 (remote 2%nat ("https://vault.test/api/info",
                                     requestOptions example_vault ∅)) = false)
  /\ length (calls r.1) = 3%nat
  /\ sleeps r.1 = [1000; 2000]
  /\ r.2 = Fulfilled (JObj {[ "id" := JStr "v-1" ]}).
Proof.
  intros remote r.
  split; [split; [lia | split; reflexivity]|].
  destruct (makeRequest_first_final_reply_decides remote "/info" ∅
              example_world 2) as (Hc & Hs & Hr).
  - simpl. lia.
  - intros [|[|i]] Hi; [reflexivity | reflexivity | lia].
  - reflexivity.
  - fold r in Hc, Hs, Hr. split; [by rewrite Hc|]. split; [exact Hs|].
    rewrite Hr. reflexivity.
Defined.

(** X4.  When no reply to a call arrives before the timeout, whatever the
    replies would have been, [_makeRequest] throws the [AbortError] of the
    aborted [fetch] after [retries + 1] requests. *)
Theorem makeRequest_times_out (remote : backend) (endpoint : string)
    (options : jsobj) (w : world) :
  let this := vault w in
  let rq := (apiUrl (config this) +:+ endpoint, requestOptions this options) in
  let r := run remote (_makeRequest endpoint options) w in
  (forall i : nat, (i <= retries (config this))%nat ->
     timeout (config this) <= latency (remote (length (calls w) + i)%nat rq)) ->
  r.2 = Rejected AbortError
  /\ calls r.1 = calls w ++ replicate (S (retries (config this))) rq.
Proof.
  intros this rq r Hslow.
  destruct (attempts_exhaust remote (apiUrl (config this) +:+ endpoint)
              (requestOptions this options) (timeout (config this))
              (retries (config this)) 0%nat w) as [Ht Hr].
  { intros i Hi. apply retryable_timeout. by apply Hslow. }
  change (run remote (attempts _ _ _ _ _) w) with r in Ht, Hr.
  split.
  - rewrite Hr. unfold settle.
    specialize (Hslow (retries (config this)) (Nat.le_refl _)).
    apply Z.ltb_ge in Hslow. fold this rq. by rewrite Hslow.
  - unfold calls. by rewrite Ht, omap_app, retry_trace_requests.
Qed.

Lemma makeRequest_times_out_witness :
  let r := run too_slow (_makeRequest "/info" ∅) example_world in
  (forall i : nat, (i <= 3)%nat ->
     10000 <= latency (too_slow (0 + i)%nat
                         ("https://vault.test/api/info",
                          requestOptions example_vault ∅)))
  /\ r.2 = Rejected AbortError
  /\ length (calls r.1) = 4%nat.
Proof.
  intros r.
  assert (H : forall i : nat, (i <= 3)%nat ->
     10000 <= latency (too_slow (0 + i)%nat
                         ("https://vault.test/api/info",
                          requestOptions example_vault ∅))).
  { intros i _. simpl. lia. }
  split; [exact H|].
  destruct (makeRequest_times_out too_slow "/info" ∅ example_world H) as [Hr Hc].
  fold r in Hr, Hc. split; [exact Hr|]. by rewrite Hc.
Defined.

(** X5.  When the first reply is a status in [400,500) other than 429 that
    arrives in time with a body whose [message] can be read (any body but the
    JSON [null]) and is falsy or converts to a string [msg], [_makeRequest]
    sends that one request, sleeps never, and throws an error carrying the
    status, the status text and the parsed body (or [{}] for an unparsable
    one); its message is the body's [message] as a string when that is truthy
    and ["HTTP <status>: <statusText>"] otherwise. *)
Theorem makeRequest_client_error_once (remote : backend) (endpoint : string)
    (options : jsobj) (w : world) (resp : response) (m : jsval) (msg : string) :
  let this := vault w in
  let rq := (apiUrl (config this) +:+ endpoint, requestOptions this options) in
  let rp := remote (length (calls w)) rq in
  let r := run remote (_makeRequest endpoint options) w in
  latency rp < timeout (config this) ->
  outcome rp = Responds resp ->
  400 <= r_status resp < 500 ->
  r_status resp <> 429 ->
  get_prop (json_or_empty (r_body resp)) "message" = Fulfilled m ->
  (if truthy m then ToString m
   else Some ("HTTP " +:+ Number_toString (r_status resp) +:+ ": "
                +:+ r_statusText resp)) = Some msg ->
  r.2 = Rejected
          {| ename := "Error";
             message := msg;
             status := Some (r_status resp);
             statusText := Some (r_statusText resp);
             data := Some (json_or_empty (r_body resp)) |}
  /\ calls r.1 = calls w ++ [rq]
  /\ sleeps r.1 = sleeps w.
Proof.
  intros this rq rp r Hl Ho Hs H429 Hm Hmsg.
  set (e := {| ename := "Error";
               message := msg;
               status := Some (r_status resp);
               statusText := Some (r_statusText resp);
               data := Some (json_or_empty (r_body resp)) |}).
  assert (Ht : try_body (settle (timeout (config this)) rp) = Rejected e).
  { unfold settle. apply Z.ltb_lt in Hl. rewrite Hl, Ho. unfold try_body.
    assert (Hok : ok resp = false).
    { unfold ok. apply andb_false_iff. right. apply Z.leb_gt. lia. }
    rewrite Hok, Hm. cbv zeta. simpl negb. cbv iota. by rewrite Hmsg. }
  assert (Hc : client_error e = true).
  { apply client_error_spec. exists (r_status resp). auto. }
  pose proof (attempts_client_error remote (apiUrl (config this) +:+ endpoint)
                (requestOptions this options) (timeout (config this))
                (retries (config this)) 0%nat w e Ht Hc) as Hrun.
  change (run remote (attempts _ _ _ _ _) w) with r in Hrun.
  rewrite Hrun. split; [reflexivity|]. split.
  - apply calls_log_call.
  - apply sleeps_log_call.
Qed.

Lemma makeRequest_client_error_once_witness :
  let remote :=
    always 403 "Forbidden" (Parsed (JObj {[ "message" := JStr "key revoked" ]})) in
  let r := run remote (_makeRequest "/info" ∅) example_world in
  (10 < 10000 /\ 400 <= 403 < 500 /\ 403 <> 429)
  /\ r.2 = Rejected
             {| ename := "Error"; message := "key revoked";
                status := Some 403; statusText := Some "Forbidden";
                data := Some (JObj {[ "message" := JStr "key revoked" ]}) |}
  /\ length (calls r.1) = 1%nat
  /\ sleeps r.1 = [].
Proof.
  intros remote r. split; [lia|].
  destruct (makeRequest_client_error_once remote "/info" ∅ example_world
              (mkResponse 403 "Forbidden"
                 (Parsed (JObj {[ "message" := JStr "key revoked" ]})))
              (JStr "key revoked") "key revoked") as (Hr & Hc & Hs).
  - simpl. lia.
  - reflexivity.
  - simpl. lia.
  - simpl. lia.
  - vm_compute. reflexivity.
  - reflexivity.
  - fold r in Hr, Hc, Hs. split; [exact Hr|]. split; [by rewrite Hc | exact Hs].
Defined.

(** ** Cache and facade: further lemmas *)

Lemma all_key_is_no_secret_key (s : string) : "secrets:all" <> "secret:" +:+ s.
Proof.
  change ("secret:" +:+ s)
    with (String "s" (String "e" (String "c" (String "r" (String "e"
            (String "t" (String ":" s))))))).
  intros H. discriminate H.
Qed.

Lemma secret_key_inj (s s' : string) :
  "secret:" +:+ s = "secret:" +:+ s' -> s = s'.
Proof.
  change ("secret:" +:+ s)
    with (String "s" (String "e" (String "c" (String "r" (String "e"
            (String "t" (String ":" s))))))).
  change ("secret:" +:+ s')
    with (String "s" (String "e" (String "c" (String "r" (String "e"
            (String "t" (String ":" s'))))))).
  by intros [= ->].
Qed.

Lemma setCache_other (this : Vault) (t : Z) (key key' : string) (value : jsval) :
  key' <> key ->
  cache (_setCache this t key value) !! key' = cache this !! key'
  /\ cacheTimestamps (_setCache this t key value) !! key'
     = cacheTimestamps this !! key'.
Proof.
  intros Hne. unfold _setCache. destruct (negb _); [done|]. simpl.
  by rewrite !lookup_insert_ne.
Qed.

Section FacadeRuns.

Variable remote : backend.

(** [getAll], case by case. *)
Lemma run_getAll (options : jsobj) (w : world) :
  run remote (getAll options) w =
  let useCache := strict_ne_false (prop options "useCache") in
  if useCache && truthy (_isCacheValid (vault w) (now w) "secrets:all") then
    (w, Fulfilled (prop (cache (vault w)) "secrets:all"))
  else
    let r := run remote (_makeRequest "/all" ∅) w in
    match r.2 with
    | Rejected e => (r.1, Rejected e)
    | Fulfilled data =>
        match get_prop data "secrets" with
        | Rejected e => (r.1, Rejected e)
        | Fulfilled s =>
            let secrets := if truthy s then s else JObj ∅ in
            if useCache then
              (set_vault (_setCache (vault r.1) (now r.1) "secrets:all" secrets) r.1,
               Fulfilled secrets)
            else (r.1, Fulfilled secrets)
        end
    end.
Proof.
  unfold getAll. cbv zeta. cbn [run].
  destruct (strict_ne_false (prop options "useCache")
            && truthy (_isCacheValid (vault w) (now w) "secrets:all")); [reflexivity|].
  rewrite run_bind.
  destruct (run remote (_makeRequest "/all" ∅) w) as [w1 [data|e]]; cbn [fst snd];
    [|reflexivity].
  rewrite run_bind, run_of_settled; cbn [fst snd].
  destruct (get_prop data "secrets") as [s|e]; [|reflexivity].
  by destruct (strict_ne_false _).
Qed.

(** A [get] that the cache does not answer and that succeeds stores the
    value with the clock reading at that moment. *)
Lemma get_miss_fulfilled (s : string) (options : jsobj) (w : world) (value : jsval) :
  s <> "" ->
  strict_ne_false (prop options "useCache")
  && truthy (_isCacheValid (vault w) (now w) ("secret:" +:+ s)) = false ->
  (run remote (get (JStr s) options) w).2 = Fulfilled value ->
  let r := run remote (_makeRequest ("/key/" +:+ encodeURIComponent s) ∅) w in
  exists data,
    r.2 = Fulfilled data
    /\ get_prop data "value" = Fulfilled value
    /\ (run remote (get (JStr s) options) w).1
       = if strict_ne_false (prop options "useCache")
         then set_vault (_setCache (vault w) (now r.1) ("secret:" +:+ s) value) r.1
         else r.1.
Proof.
  intros Hs Hmiss. rewrite run_get by done. cbv zeta. rewrite Hmiss.
  pose proof (makeRequest_vault remote ("/key/" +:+ encodeURIComponent s) ∅ w) as Hv.
  destruct (run remote (_makeRequest _ ∅) w) as [w1 [data|e]]; cbn [fst snd] in *;
    [|discriminate].
  destruct (get_prop data "value") as [v|e] eqn:Hp; cbn [fst snd]; [|discriminate].
  destruct (strict_ne_false _); cbn [fst snd]; intros [= ->];
    exists data; rewrite ?Hv; done.
Qed.

End FacadeRuns.

(** X6.  [get] of a key changes no cache entry but the one of
    ["secret:" + key], and [getAll] none but the one of ["secrets:all"]; the
    two never share an entry. *)
Theorem cache_entries_do_not_interfere (remote : backend) (w : world) :
  (forall key options k',
     (forall s, key = JStr s -> k' <> "secret:" +:+ s) ->
     let r := run remote (get key options) w in
     cache (vault r.1) !! k' = cache (vault w) !! k'
     /\ cacheTimestamps (vault r.1) !! k' = cacheTimestamps (vault w) !! k')
  /\ (forall options k',
        k' <> "secrets:all" ->
        let r := run remote (getAll options) w in
        cache (vault r.1) !! k' = cache (vault w) !! k'
        /\ cacheTimestamps (vault r.1) !! k' = cacheTimestamps (vault w) !! k')
  /\ (forall s, "secrets:all" <> "secret:" +:+ s).
Proof.
  split; [|split].
  - intros key options k' Hk'.
    destruct key as [| |b|n|s|l|o];
      try (rewrite run_get_invalid by (intros; discriminate); done).
    destruct (decide (s = "")) as [->|Hs].
    { rewrite run_get_invalid; [done|]. by intros s [= <-]. }
    specialize (Hk' s eq_refl).
    rewrite run_get by done. cbv zeta.
    destruct (_ && _); [done|].
    pose proof (makeRequest_vault remote ("/key/" +:+ encodeURIComponent s) ∅ w) as Hv.
    destruct (run remote (_makeRequest _ ∅) w) as [w1 [data|e]];
      cbn [fst snd] in *; [|by rewrite Hv].
    destruct (get_prop data "value"); cbn [fst snd]; [|by rewrite Hv].
    destruct (strict_ne_false _); cbn [fst snd vault set_vault]; [|by rewrite Hv].
    rewrite Hv. by apply setCache_other.
  - intros options k' Hk'. rewrite run_getAll. cbv zeta.
    destruct (_ && _); [done|].
    pose proof (makeRequest_vault remote "/all" ∅ w) as Hv.
    destruct (run remote (_makeRequest _ ∅) w) as [w1 [data|e]];
      cbn [fst snd] in *; [|by rewrite Hv].
    destruct (get_prop data "secrets"); cbn [fst snd]; [|by rewrite Hv].
    destruct (strict_ne_false _); cbn [fst snd vault set_vault]; [|by rewrite Hv].
    rewrite Hv. by apply setCache_other.
  - apply all_key_is_no_secret_key.
Qed.





(** X9.  An entry stored while [Date.now()] reads [0] is never valid, at no
    later time and for no TTL: [timestamp && ...] takes the timestamp [0] for
    a missing one. *)
Theorem zero_timestamp_never_valid (this : Vault) (t : Z) (key : string)
    (value : jsval) :
  truthy (_isCacheValid (_setCache this 0 key value) t key) = false.
Proof.
  destruct (config_cache (config this)) eqn:Hon.
  - apply isCacheValid_zero_timestamp. unfold _setCache. rewrite Hon. simpl.
    apply lookup_insert_eq.
  - unfold _setCache. rewrite Hon. simpl. unfold _isCacheValid. by rewrite Hon.
Qed.

(** X10.  When the cache does not answer (no entry, an expired one, or
    [useCache: false]) and [get] succeeds, the value it returns is the
    [value] property of the payload the executor returned; with the cache in
    use and enabled, the entry of the key then holds that value, stamped with
    the clock reading at the end of the request, and no other entry has
    changed. *)
Theorem get_miss_stores_fresh_entry (remote : backend) (s : string)
    (options : jsobj) (w : world) (value : jsval) :
  s <> "" ->
  strict_ne_false (prop options "useCache")
  && truthy (_isCacheValid (vault w) (now w) ("secret:" +:+ s)) = false ->
  let g := run remote (get (JStr s) options) w in
  let r := run remote (_makeRequest ("/key/" +:+ encodeURIComponent s) ∅) w in
  g.2 = Fulfilled value ->
  (exists data, r.2 = Fulfilled data /\ get_prop data "value" = Fulfilled value)
  /\ (strict_ne_false (prop options "useCache") = true ->
      config_cache (config (vault w)) = true ->
      cache (vault g.1) = <[("secret:" +:+ s) := value]> (cache (vault w))
      /\ cacheTimestamps (vault g.1)
         = <[("secret:" +:+ s) := now r.1]> (cacheTimestamps (vault w))
      /\ now g.1 = now r.1).
Proof.
  intros Hs Hmiss g r Hg.
  destruct (get_miss_fulfilled remote s options w value Hs Hmiss Hg)
    as (data & Hr & Hp & Hw).
  fold g r in Hw, Hr. split; [eauto|].
  intros Huse Hon. rewrite Hw, Huse. unfold _setCache. rewrite Hon. done.
Qed.

Lemma get_miss_stores_fresh_entry_witness :
  let w := {| vault := cached_vault; now := 1700000000000 + 300000; trace := [] |} in
  let remote := always 200 "OK" (Parsed (JObj {[ "value" := JStr "rotated" ]})) in
  let g := run remote (get (JStr "API_KEY") ∅) w in
  truthy (_isCacheValid cached_vault (1700000000000 + 300000) "secret:API_KEY") = false
  /\ g.2 = Fulfilled (JStr "rotated")
  /\ cache (vault g.1) !! "secret:API_KEY" = Some (JStr "rotated")
  /\ cacheTimestamps (vault g.1) !! "secret:API_KEY" = Some (1700000000000 + 300012).
Proof.
  intros w remote g.
  assert (Hmiss : truthy (_isCacheValid cached_vault (1700000000000 + 300000)
                            "secret:API_KEY") = false) by (vm_compute; reflexivity).
  assert (Hg : g.2 = Fulfilled (JStr "rotated")) by (vm_compute; reflexivity).
  destruct (get_miss_stores_fresh_entry remote "API_KEY" ∅ w (JStr "rotated"))
    as [_ Hstore]; [done | vm_compute; reflexivity | exact Hg |].
  destruct Hstore as (Hc & Ht & _); [reflexivity | reflexivity |].
  fold g in Hc, Ht.
  split; [exact Hmiss|]. split; [exact Hg|]. split.
  - rewrite Hc. apply lookup_insert_eq.
  - rewrite Ht, lookup_insert_eq. vm_compute. reflexivity.
Defined.

Section FacadeMore.

Variable remote : backend.

(** [get] never lets an error of status 404 through: it replaces it. *)
Lemma get_rejected_status (key : jsval) (options : jsobj) (w : world) (e : error) :
  (run remote (get key options) w).2 = Rejected e -> status e <> Some 404.
Proof.
  destruct key as [| |b|n|s|l|o];
    try (rewrite run_get_invalid by (intros; discriminate); by intros [= <-]).
  destruct (decide (s = "")) as [->|Hs].
  { rewrite run_get_invalid; [by intros [= <-]|]. by intros s [= <-]. }
  rewrite run_get by done. cbv zeta.
  destruct (_ && _); [discriminate|].
  destruct (run remote (_makeRequest _ ∅) w) as [w1 [data|e1]]; cbn [fst snd].
  - destruct data; cbn [get_prop]; try destruct (strict_ne_false _);
      cbn [fst snd]; try discriminate; by intros [= <-].
  - case_bool_decide as H404; by intros [= <-].
Qed.

(** The requests of [getAll] are built from the instance alone. *)
Lemma getAll_requests (options : jsobj) (w : world) (rq : request) :
  rq ∈ calls (run remote (getAll options) w).1 ->
  rq ∈ calls w
  \/ rq = (apiUrl (config (vault w)) +:+ "/all", requestOptions (vault w) ∅).
Proof.
  rewrite run_getAll. cbv zeta. destruct (_ && _); [by left|].
  pose proof (makeRequest_requests remote "/all" ∅ w rq) as Hrq.
  destruct (run remote (_makeRequest _ ∅) w) as [w1 [data|e]];
    cbn [fst snd] in *; [|exact Hrq].
  destruct (get_prop data "secrets"); cbn [fst snd]; [|exact Hrq].
  destruct (strict_ne_false _); exact Hrq.
Qed.

Lemma exists_requests (key : jsval) (w : world) :
  calls (run remote (exists_ key) w).1 = calls (run remote (get key ∅) w).1.
Proof.
  rewrite run_exists. cbv zeta.
  destruct (run remote (get key ∅) w) as [w1 [v|e]]; cbn [fst snd]; [done|].
  by destruct (_ || _).
Qed.

End FacadeMore.

(** X11.  A [getAll] that the cache does not answer passes the executor's
    error on as it is, a 404 included; when the executor returns a payload,
    [getAll] returns its [secrets] property when that is truthy and [{}]
    when it is missing or falsy; a payload [null] makes it throw the
    [TypeError] of reading [secrets] of [null]. *)
Theorem getAll_contract (remote : backend) (options : jsobj) (w : world) :
  strict_ne_false (prop options "useCache")
  && truthy (_isCacheValid (vault w) (now w) "secrets:all") = false ->
  let r := run remote (_makeRequest "/all" ∅) w in
  let g := run remote (getAll options) w in
  (forall e, r.2 = Rejected e -> g = (r.1, Rejected e))
  /\ (forall data s,
        r.2 = Fulfilled data -> get_prop data "secrets" = Fulfilled s ->
        g.2 = Fulfilled (if truthy s then s else JObj ∅))
  /\ (r.2 = Fulfilled JNull ->
      g = (r.1, Rejected (TypeError_read "null" "secrets"))).
Proof.
  intros Hmiss r g. unfold g. rewrite run_getAll. cbv zeta. rewrite Hmiss.
  fold r. split; [|split].
  - by intros e ->.
  - intros data s -> ->. by destruct (strict_ne_false _).
  - by intros ->.
Qed.

Lemma getAll_contract_witness :
  let denied := always 404 "Not Found" (Parsed (JObj ∅)) in
  let empty := always 200 "OK" (Parsed (JObj ∅)) in
  let full := always 200 "OK"
                (Parsed (JObj {[ "secrets" := JObj {[ "A" := JStr "1" ]} ]})) in
  (exists e, (run denied (getAll ∅) example_world).2 = Rejected e
             /\ status e = Some 404)
  /\ (run empty (getAll ∅) example_world).2 = Fulfilled (JObj ∅)
  /\ (run full (getAll ∅) example_world).2
     = Fulfilled (JObj {[ "A" := JStr "1" ]}).
Proof.
  intros denied empty full.
  destruct (getAll_contract denied ∅ example_world) as (Herr & _); [reflexivity|].
  destruct (getAll_contract empty ∅ example_world) as (_ & Hempty & _); [reflexivity|].
  destruct (getAll_contract full ∅ example_world) as (_ & Hfull & _); [reflexivity|].
  split; [|split].
  - eexists. rewrite (Herr _ ltac:(vm_compute; reflexivity)). split; reflexivity.
  - rewrite (Hempty (JObj ∅) JUndefined); [reflexivity | vm_compute; reflexivity | reflexivity].
  - rewrite (Hfull (JObj {[ "secrets" := JObj {[ "A" := JStr "1" ]} ]})
                   (JObj {[ "A" := JStr "1" ]}));
      [reflexivity | vm_compute; reflexivity | vm_compute; reflexivity].
Defined.

(** X12.  On an instance with the cache enabled, at a clock reading after
    the epoch: once [getAll] has returned [secrets], a second [getAll] at any
    clock reading within the TTL of the entry of ["secrets:all"] leaves the
    world as it is, so it sends no request, and returns the same [secrets];
    after [clearCache()] the next [getAll] sends a request. *)
Theorem getAll_round_trip (remote : backend) (options : jsobj) (w : world)
    (secrets : jsval) :
  config_cache (config (vault w)) = true ->
  strict_ne_false (prop options "useCache") = true ->
  0 < now w ->
  let r1 := run remote (getAll options) w in
  r1.2 = Fulfilled secrets ->
  exists storedAt,
    cacheTimestamps (vault r1.1) !! "secrets:all" = Some storedAt
    /\ (forall t2,
          t2 - storedAt < cacheTTL (config (vault w)) ->
          let w2 := {| vault := vault r1.1; now := t2; trace := trace r1.1 |} in
          run remote (getAll options) w2 = (w2, Fulfilled secrets))
    /\ (forall t3,
          let w3 := {| vault := clearCache (vault r1.1); now := t3;
                       trace := trace r1.1 |} in
          exists rq more,
            calls (run remote (getAll options) w3).1 = calls r1.1 ++ rq :: more).
Proof.
  intros Hon Huse Hpos r1 Hr1.
  set (ck := "secrets:all").
  assert (Hentry : exists storedAt,
            cacheTimestamps (vault r1.1) !! ck = Some storedAt
            /\ storedAt <> 0
            /\ cache (vault r1.1) !! ck = Some secrets
            /\ config (vault r1.1) = config (vault w)).
  { unfold r1 in *. rewrite run_getAll in *. cbv zeta in *.
    rewrite Huse, andb_true_l in *. fold ck in Hr1 |- *.
    destruct (truthy (_isCacheValid (vault w) (now w) ck)) eqn:Hhit.
    - apply isCacheValid_true in Hhit as (_ & [v Hv] & ts & Hts & Hnz & _).
      cbn [fst snd] in *. unfold prop in Hr1. rewrite Hv in Hr1.
      injection Hr1 as ->. eauto 6.
    - pose proof (makeRequest_vault remote "/all" ∅ w) as Hv.
      pose proof (run_now_mono remote (_makeRequest "/all" ∅) w) as Hm.
      destruct (run remote (_makeRequest _ ∅) w) as [w1 [data|e]];
        cbn [fst snd] in *; [|done].
      destruct (get_prop data "secrets") as [s|e]; cbn [fst snd] in *; [|done].
      injection Hr1 as Hs. rewrite Hs. unfold _setCache. rewrite Hv, Hon. simpl.
      rewrite !lookup_insert_eq. exists (now w1). repeat split; auto. lia. }
  destruct Hentry as (storedAt & Hts & Hnz & Hval & Hcfg).
  exists storedAt. split; [exact Hts|]. split.
  - intros t2 Hlt w2. rewrite run_getAll. cbv zeta.
    rewrite Huse, andb_true_l. fold ck.
    assert (Hvalid : truthy (_isCacheValid (vault w2) (now w2) ck) = true).
    { apply isCacheValid_true. simpl. rewrite Hcfg. repeat split; eauto. }
    rewrite Hvalid. unfold prop. simpl. by rewrite Hval.
  - intros t3 w3. rewrite run_getAll. cbv zeta.
    rewrite Huse, andb_true_l. fold ck.
    assert (Hmiss : truthy (_isCacheValid (vault w3) (now w3) ck) = false).
    { apply not_true_is_false. rewrite isCacheValid_true.
      intros (_ & [v Hv] & _). simpl in Hv. unfold clearCache in Hv.
      rewrite Hcfg, Hon in Hv. simpl in Hv. by rewrite lookup_empty in Hv. }
    rewrite Hmiss.
    destruct (makeRequest_first_call remote "/all" ∅ w3) as [more Hmore].
    change (calls w3) with (calls r1.1) in Hmore.
    destruct (run remote (_makeRequest _ ∅) w3) as [w4 [data|e]];
      cbn [fst snd] in *; [|eauto].
    destruct (get_prop data "secrets") as [v|e]; cbn [fst snd]; eauto.
Qed.

Lemma getAll_round_trip_witness :
  let remote := always 200 "OK"
                  (Parsed (JObj {[ "secrets" := JObj {[ "A" := JStr "1" ]} ]})) in
  let r1 := run remote (getAll ∅) example_world in
  (r1.2 = Fulfilled (JObj {[ "A" := JStr "1" ]}) /\ 0 < now example_world)
  /\ exists storedAt,
       cacheTimestamps (vault r1.1) !! "secrets:all" = Some storedAt
       /\ (let w2 := {| vault := vault r1.1; now := storedAt + 299999;
                        trace := trace r1.1 |} in
           run remote (getAll ∅) w2 = (w2, Fulfilled (JObj {[ "A" := JStr "1" ]}))).
Proof.
  intros remote r1.
  assert (H1 : r1.2 = Fulfilled (JObj {[ "A" := JStr "1" ]}))
    by (vm_compute; reflexivity).
  assert (H0 : 0 < now example_world) by reflexivity.
  split; [split; [exact H1 | exact H0]|].
  destruct (getAll_round_trip remote ∅ example_world (JObj {[ "A" := JStr "1" ]}))
    as (storedAt & Hts & Hhit & _); [reflexivity | reflexivity | exact H0 | exact H1 |].
  exists storedAt. split; [exact Hts|]. apply Hhit. simpl. lia.
Defined.

(** X13.  [exists] leaves the world as its [get] does.  It returns [true]
    when [get] returns; when [get] throws, the error never carries the status
    404, and [exists] returns [false] if the message of the error contains
    "not found" and throws that same error if it does not.  On anything but a
    non-empty string it throws the error of [get], "Secret key must be a
    non-empty string", without a request. *)
Theorem exists_contract (remote : backend) (key : jsval) (w : world) :
  let g := run remote (get key ∅) w in
  let x := run remote (exists_ key) w in
  x.1 = g.1
  /\ (forall v, g.2 = Fulfilled v -> x.2 = Fulfilled (JBool true))
  /\ (forall e, g.2 = Rejected e ->
        status e <> Some 404
        /\ x.2 = if includes "not found" (message e)
                 then Fulfilled (JBool false) else Rejected e)
  /\ ((forall s, key = JStr s -> s = "") ->
      x = (w, Rejected (new_Error "Secret key must be a non-empty string"))).
Proof.
  intros g x. unfold x. rewrite run_exists. cbv zeta. fold g.
  split; [|split; [|split]].
  - destruct g.2 as [v|e]; [done|]. by destruct (_ || _).
  - by intros v ->.
  - intros e He. pose proof (get_rejected_status remote key ∅ w e He) as Hst.
    split; [exact Hst|]. rewrite He.
    rewrite bool_decide_eq_false_2 by done. by destruct (includes _ _).
  - intros Hbad. unfold g. by rewrite run_get_invalid.
Qed.

(** X14.  Every request that [get], [getAll], [exists] or [getVaultInfo]
    sends goes out with the options built from the instance alone: its
    headers are [Authorization: Bearer <apiKey>], [Content-Type:
    application/json] and [User-Agent: SoftoVault-SDK/0.1.0]. *)
Theorem facade_requests_carry_credentials (remote : backend) (w : world)
    (rq : request) :
  let sent (w' : world) :=
    rq ∈ calls w' -> rq ∈ calls w
    \/ (rq.2 !! "headers" = Some (JObj (default_headers (vault w)))
        /\ default_headers (vault w) !! "Authorization"
           = Some (JStr ("Bearer " +:+ apiKey (vault w)))
        /\ default_headers (vault w) !! "Content-Type"
           = Some (JStr "application/json")
        /\ default_headers (vault w) !! "User-Agent"
           = Some (JStr "SoftoVault-SDK/0.1.0")) in
  (forall key options, sent (run remote (get key options) w).1)
  /\ (forall options, sent (run remote (getAll options) w).1)
  /\ (forall key, sent (run remote (exists_ key) w).1)
  /\ sent (run remote getVaultInfo w).1.
Proof.
  intros sent. unfold sent.
  destruct (requestOptions_default_headers (vault w) ∅) as (Hh & Ha & Hc & Hu);
    [apply lookup_empty|].
  assert (Hget : forall key options,
            rq ∈ calls (run remote (get key options) w).1 ->
            rq ∈ calls w
            \/ rq.2 !! "headers" = Some (JObj (default_headers (vault w)))).
  { intros key options. apply get_requests_carry_headers. }
  split; [|split; [|split]].
  - intros key options Hin. destruct (Hget key options Hin); auto.
  - intros options Hin. apply getAll_requests in Hin as [?| ->]; auto.
  - intros key Hin. rewrite exists_requests in Hin.
    destruct (Hget key ∅ Hin); auto.
  - intros Hin. apply makeRequest_requests in Hin as [?| ->]; auto.
Qed.

(** X15.  [getVaultInfo] never looks at the cache and never fills it: each
    call sends at least one request, to [apiUrl + "/info"], and leaves the
    instance as it was, so a second call right after sends a request again. *)
Theorem getVaultInfo_uncached (remote : backend) (w : world) :
  let r1 := run remote getVaultInfo w in
  let r2 := run remote getVaultInfo r1.1 in
  vault r1.1 = vault w
  /\ (exists more,
        calls r1.1 = calls w ++ (apiUrl (config (vault w)) +:+ "/info",
                                 requestOptions (vault w) ∅) :: more)
  /\ (exists more,
        calls r2.1 = calls r1.1 ++ (apiUrl (config (vault w)) +:+ "/info",
                                    requestOptions (vault w) ∅) :: more)
  /\ (length (calls w) + 2 <= length (calls r2.1))%nat.
Proof.
  intros r1 r2.
  pose proof (makeRequest_vault remote "/info" ∅ w) as Hv.
  destruct (makeRequest_first_call remote "/info" ∅ w) as [more1 H1].
  destruct (makeRequest_first_call remote "/info" ∅ r1.1) as [more2 H2].
  fold getVaultInfo in Hv, H1, H2. fold r1 in Hv, H1, H2. fold r2 in H2.
  rewrite Hv in H2.
  split; [exact Hv|]. split; [eauto|]. split; [eauto|].
  rewrite H2, H1, !length_app. simpl. lia.
Qed.

(** ** Construction *)

Lemma or_string_given (a b : option string) (s : string) :
  or_string a b = Some s -> s <> "" ->
  (a = Some s) \/ ((a = None \/ a = Some "") /\ b = Some s).
Proof.
  unfold or_string. destruct a as [x|]; [|by right; auto].
  case_bool_decide as Hx; [subst; right; auto | left; done].
Qed.

(** X16.  The constructor takes the first of: the [apiKey] argument, the
    variable [SOFTOVAULT_API_KEY], the variable [VAULT_ACCESS_KEY], that is a
    non-empty string, and throws "Vault Access key is required..." when none
    is; [fromEnv] does the same without the argument. *)
Theorem new_Vault_credential (apiKey0 : option string)
    (env : gmap string string) (c : VaultConfigArg) :
  let given (o : option string) (s : string) := o = Some s /\ s <> "" in
  let absent (o : option string) := o = None \/ o = Some "" in
  let k1 := env !! "SOFTOVAULT_API_KEY" in
  let k2 := env !! "VAULT_ACCESS_KEY" in
  (forall s, given apiKey0 s ->
     exists v, new_Vault apiKey0 env c = Fulfilled v /\ apiKey v = s)
  /\ (forall s, absent apiKey0 -> given k1 s ->
        exists v, new_Vault apiKey0 env c = Fulfilled v /\ apiKey v = s)
  /\ (forall s, absent apiKey0 -> absent k1 -> given k2 s ->
        exists v, new_Vault apiKey0 env c = Fulfilled v /\ apiKey v = s)
  /\ (absent apiKey0 -> absent k1 -> absent k2 ->
      new_Vault apiKey0 env c = Rejected (new_Error missing_key_message))
  /\ fromEnv env c = new_Vault None env c
  /\ (absent k1 -> absent k2 ->
      fromEnv env c = Rejected (new_Error missing_key_message)).
Proof.
  intros given absent k1 k2.
  assert (Hrun : forall s, s <> "" ->
            or_string (or_string apiKey0 k1) k2 = Some s ->
            exists v, new_Vault apiKey0 env c = Fulfilled v /\ apiKey v = s).
  { intros s Hs Hk. unfold new_Vault. fold k1 k2. rewrite Hk.
    rewrite bool_decide_eq_false_2 by done. eauto. }
  assert (Hfail : forall a,
                  or_string (or_string a k1) k2 = None
                  \/ or_string (or_string a k1) k2 = Some "" ->
                  new_Vault a env c = Rejected (new_Error missing_key_message)).
  { intros a [Hk|Hk]; unfold new_Vault; fold k1 k2; by rewrite Hk. }
  split; [|split; [|split; [|split; [|split]]]].
  - intros s [-> Hs]. apply Hrun; [done|].
    unfold or_string. by rewrite !bool_decide_eq_false_2.
  - intros s Ha [H1 Hs]. apply Hrun; [done|].
    rewrite H1. unfold or_string.
    destruct Ha as [-> | ->]; simpl; by rewrite !bool_decide_eq_false_2.
  - intros s Ha Hb [H2 Hs]. apply Hrun; [done|].
    rewrite H2. unfold or_string.
    destruct Ha as [-> | ->], Hb as [-> | ->]; simpl; done.
  - intros Ha Hb Hc. apply Hfail. unfold or_string.
    destruct Ha as [-> | ->], Hb as [-> | ->], Hc as [-> | ->]; simpl; auto.
  - reflexivity.
  - intros Hb Hc. unfold fromEnv. apply Hfail. fold k1 k2. unfold or_string.
    destruct Hb as [-> | ->], Hc as [-> | ->]; simpl; auto.
Qed.

Lemma new_Vault_credential_witness :
  let env : gmap string string :=
    {[ "SOFTOVAULT_API_KEY" := ""; "VAULT_ACCESS_KEY" := "from-env" ]} in
  let c := mkConfigArg None None None None None in
  (exists v, new_Vault (Some "explicit") env c = Fulfilled v
             /\ apiKey v = "explicit")
  /\ (exists v, fromEnv env c = Fulfilled v /\ apiKey v = "from-env")
  /\ new_Vault (Some "") ∅ c = Rejected (new_Error missing_key_message).
Proof.
  intros env c.
  destruct (new_Vault_credential (Some "explicit") env c) as (H1 & _).
  destruct (new_Vault_credential None env c) as (_ & _ & H3 & _ & Hfrom & _).
  destruct (new_Vault_credential (Some "") ∅ c) as (_ & _ & _ & H4 & _).
  split; [|split].
  - apply H1. by split.
  - rewrite Hfrom. apply H3; [by left | by right | by split].
  - apply H4; [by right | by left | by left].
Defined.

(** X17.  In the instance that the constructor builds, a property given in
    [config] is taken as it is, a [0], an empty URL or [false] included, so
    that [retries: 0] means no retry; a property not given gets its default:
    the variable [SOFTOVAULT_API_URL] when it is a non-empty string and the
    built-in URL otherwise, 10000, 3, [true], 300000.  The cache starts
    empty. *)
Theorem new_Vault_config (apiKey0 : option string) (env : gmap string string)
    (c : VaultConfigArg) (v : Vault) :
  new_Vault apiKey0 env c = Fulfilled v ->
  apiUrl (config v)
  = match arg_apiUrl c with
    | Some url => url
    | None =>
        match env !! "SOFTOVAULT_API_URL" with
        | Some url => if bool_decide (url = "")
                      then "https://softovault.com/api/vault" else url
        | None => "https://softovault.com/api/vault"
        end
    end
  /\ timeout (config v) = default 10000 (arg_timeout c)
  /\ retries (config v) = default 3%nat (arg_retries c)
  /\ config_cache (config v) = default true (arg_cache c)
  /\ cacheTTL (config v) = default 300000 (arg_cacheTTL c)
  /\ cache v = ∅ /\ cacheTimestamps v = ∅.
Proof.
  unfold new_Vault.
  destruct (or_string _ _) as [k|]; [|discriminate].
  case_bool_decide; [discriminate|]. intros [= <-]. simpl.
  unfold spread_over.
  split; [|split; [|split; [|split; [|split]]]].
  - unfold or_string.
    destruct (arg_apiUrl c) as [url|]; [done|]. simpl.
    destruct (env !! "SOFTOVAULT_API_URL") as [url|]; [|done].
    by case_bool_decide.
  - by destruct (arg_timeout c).
  - by destruct (arg_retries c).
  - by destruct (arg_cache c) as [[|]|].
  - by destruct (arg_cacheTTL c).
  - done.
Qed.

Lemma new_Vault_config_witness :
  let c := {| arg_apiUrl := None; arg_timeout := Some 0; arg_retries := Some 0%nat;
              arg_cache := None; arg_cacheTTL := None |} in
  let env : gmap string string := {[ "SOFTOVAULT_API_URL" := "https://vault.test/api" ]} in
  exists v,
    new_Vault (Some "sv-key") env c = Fulfilled v
    /\ apiUrl (config v) = "https://vault.test/api"
    /\ timeout (config v) = 0
    /\ retries (config v) = 0%nat
    /\ config_cache (config v) = true
    /\ cacheTTL (config v) = 300000
    /\ length (calls (run (always 500 "Internal Server Error" (Parsed (JObj ∅)))
                          (_makeRequest "/info" ∅)
                          {| vault := v; now := 1700000000000; trace := [] |}).1)
       = 1%nat.
Proof.
  intros c env. eexists. split; [reflexivity|].
  destruct (new_Vault_config (Some "sv-key") env c _ eq_refl)
    as (Hu & Ht & Hr & Hc & Hl & _).
  split; [exact Hu|]. split; [exact Ht|]. split; [exact Hr|].
  split; [exact Hc|]. split; [exact Hl|]. vm_compute. reflexivity.
Defined.

(** X18.  [isValidApiKey] accepts the non-empty strings and nothing else,
    and these are the keys that the constructor, given one as its argument,
    keeps whatever the environment holds. *)
Theorem isValidApiKey_spec (k : jsval) :
  (isValidApiKey k = true <-> exists s, k = JStr s /\ s <> "")
  /\ (forall s, k = JStr s ->
      (isValidApiKey k = true <->
       forall env c, exists v,
         new_Vault (Some s) env c = Fulfilled v /\ apiKey v = s)).
Proof.
  assert (Hstr : forall s, isValidApiKey (JStr s) = true <-> s <> "").
  { intros s. unfold isValidApiKey. cbn [typeof].
    rewrite bool_decide_eq_true_2 by done. rewrite andb_true_l.
    destruct s as [|ch s]; [split; [discriminate|done]|]. split; [done|].
    intros _. apply Z.ltb_lt. cbn [String.length]. lia. }
  split.
  - split.
    + intros H. destruct k as [| |b|n|s|l|o]; try discriminate.
      exists s. split; [done|]. by apply Hstr.
    + intros (s & -> & Hs). by apply Hstr.
  - intros s ->. rewrite Hstr. split.
    + intros Hs env c. unfold new_Vault.
      assert (Hk : or_string (or_string (Some s) (env !! "SOFTOVAULT_API_KEY"))
                             (env !! "VAULT_ACCESS_KEY") = Some s).
      { unfold or_string. by rewrite !bool_decide_eq_false_2. }
      rewrite Hk, bool_decide_eq_false_2 by done. eauto.
    + intros Hall -> .
      destruct (Hall ∅ (mkConfigArg None None None None None)) as (v & Hv & _).
      discriminate Hv.
Qed.

(** ** What every operation keeps *)

Section Preserves.

Variable P : Vault -> Prop.
Hypothesis P_setCache : forall v t k value, P v -> P (_setCache v t k value).

Lemma preserves_try_catch {A : Type} (t : Async A) (h : error -> Async A) :
  preserves P t -> (forall e, preserves P (h e)) -> preserves P (try_catch t h).
Proof.
  intros H Hh; induction H as
    [a|e|k _ IH|k _ IH|v k Hv _ IH|url init tmo k _ IH|ms k _ IH]; simpl.
  - constructor.
  - apply Hh.
  - constructor. intros t. apply IH.
  - constructor. intros v Hv. by apply IH.
  - constructor; [done|]. apply IH.
  - constructor. intros r. apply IH.
  - constructor. apply IH.
Qed.

Lemma preserves_bind {A B : Type} (t : Async A) (f : A -> Async B) :
  preserves P t -> (forall a, preserves P (f a)) -> preserves P (t ≫= f).
Proof.
  unfold mbind, Async_bind.
  intros H Hf; induction H as
    [a|e|k _ IH|k _ IH|v k Hv _ IH|url init tmo k _ IH|ms k _ IH]; simpl.
  - apply Hf.
  - constructor.
  - constructor. intros t. apply IH.
  - constructor. intros v Hv. by apply IH.
  - constructor; [done|]. apply IH.
  - constructor. intros r. apply IH.
  - constructor. apply IH.
Qed.

Lemma preserves_of_settled {A : Type} (s : settled A) : preserves P (of_settled s).
Proof. destruct s; constructor. Qed.

Lemma preserves_attempts (url : string) (init : jsobj) (tmo : Z) (rem att : nat) :
  preserves P (attempts url init tmo rem att).
Proof.
  revert att; induction rem as [|rem IH]; intros att; simpl;
    constructor; intros r; destruct (try_body r) as [v|e]; simpl;
    try constructor; destruct (client_error e); constructor. apply IH.
Qed.

Lemma preserves_makeRequest (endpoint : string) (options : jsobj) :
  preserves P (_makeRequest endpoint options).
Proof. constructor. intros v _. apply preserves_attempts. Qed.

Lemma preserves_get (key : jsval) (options : jsobj) : preserves P (get key options).
Proof.
  unfold get. destruct (_ || _); [constructor|]. cbv zeta.
  destruct (ToString key) as [name|]; [|constructor].
  constructor. intros this Hthis. constructor. intros t.
  destruct (_ && _); [constructor|].
  apply preserves_try_catch.
  - apply preserves_bind; [apply preserves_makeRequest|]. intros data.
    apply preserves_bind; [apply preserves_of_settled|]. intros value.
    destruct (strict_ne_false _); [|constructor].
    constructor. intros this' Hthis'. constructor. intros t'.
    constructor; [by apply P_setCache | constructor].
  - intros e. destruct (bool_decide _); constructor.
Qed.

Lemma preserves_getAll (options : jsobj) : preserves P (getAll options).
Proof.
  unfold getAll. cbv zeta.
  constructor. intros this Hthis. constructor. intros t.
  destruct (_ && _); [constructor|].
  apply preserves_bind; [apply preserves_makeRequest|]. intros data.
  apply preserves_bind; [apply preserves_of_settled|]. intros s.
  destruct (strict_ne_false _); [|constructor].
  constructor. intros this' Hthis'. constructor. intros t'.
  constructor; [by apply P_setCache | constructor].
Qed.

Lemma preserves_exists (key : jsval) : preserves P (exists_ key).
Proof.
  unfold exists_. apply preserves_try_catch.
  - apply preserves_bind; [apply preserves_get|]. intros _. constructor.
  - intros e. destruct (_ || _); constructor.
Qed.

Variable remote : backend.

Lemma run_preserves {A : Type} (t : Async A) (w : world) :
  preserves P t -> P (vault w) -> P (vault (run remote t w).1).
Proof.
  intros H; revert w; induction H as
    [a|e|k _ IH|k _ IH|v k Hv _ IH|url init tmo k _ IH|ms k _ IH];
    intros w Hw; simpl; auto.
Qed.

Lemma advance_preserves {A : Type} (t : Async A) (w : world) :
  preserves P t -> P (vault w) ->
  P (vault (advance remote t w).1)
  /\ match (advance remote t w).2 with
     | Blocked _ t' => preserves P t'
     | Done _ => True
     end.
Proof.
  intros H; revert w; induction H as
    [a|e|k _ IH|k _ IH|v k Hv _ IH|url init tmo k Hk _|ms k Hk _];
    intros w Hw; simpl; auto.
Qed.

Lemma event_loop_preserves {A : Type} (fuel : nat) (ts : list (task A))
    (log log' : list (nat * settled A)) (w w' : world) :
  Forall (fun st => match st with
                    | Blocked _ t => preserves P t
                    | Done _ => True
                    end) ts ->
  P (vault w) ->
  event_loop remote fuel ts log w = Some (w', log') ->
  P (vault w').
Proof.
  revert ts log w; induction fuel as [|fuel IH]; intros ts log w Hts Hw; simpl;
    destruct (next_event ts 0) as [[[j wake] t]|] eqn:Hn;
    try discriminate; try (by intros [= <- _]).
  apply next_event_Some in Hn as [_ Hl]. rewrite Nat.sub_0_r in Hl.
  pose proof (Forall_lookup_1 _ _ _ _ Hts Hl) as Ht. simpl in Ht.
  destruct (advance_preserves t (resume_at wake w) Ht Hw) as [Hw1 Hst].
  apply IH; [|exact Hw1].
  apply Forall_insert; [exact Hts|]. exact Hst.
Qed.

Lemma start_all_preserves {A : Type} (ts : list (Async A)) (i : nat) (w : world) :
  Forall (preserves P) ts ->
  P (vault w) ->
  P (vault (start_all remote ts i w).1)
  /\ Forall (fun st => match st with
                       | Blocked _ t => preserves P t
                       | Done _ => True
                       end) (start_all remote ts i w).2.1.
Proof.
  revert i w; induction ts as [|t ts IH]; intros i w Hts Hw; simpl; [by split|].
  apply Forall_cons in Hts as [Ht Hts].
  destruct (advance_preserves t w Ht Hw) as [Hw1 Hst].
  destruct (IH (S i) (advance remote t w).1 Hts Hw1) as [Hw2 Hall].
  split; [exact Hw2|]. by constructor.
Qed.

Lemma getMany_preserves (keys : jsval) (options : jsobj) (w w' : world)
    (r : settled object) :
  P (vault w) ->
  getMany remote keys options w = Some (w', r) ->
  P (vault w').
Proof.
  intros Hw. unfold getMany.
  destruct keys as [| |b|n|s|l|o]; try by intros [= <- _].
  destruct (allSettled remote _ _ w) as [[w1 log]|] eqn:Hrun; [|discriminate].
  assert (Hw1 : P (vault w1)).
  { unfold allSettled in Hrun.
    destruct (start_all_preserves (map (fun key => get key options) l) 0 w)
      as [Hs Hall]; [|exact Hw|].
    - apply Forall_forall. intros t Hin.
      apply list_elem_of_fmap in Hin as (key & -> & _). apply preserves_get.
    - by eapply event_loop_preserves. }
  destruct (_ && _); [destruct (errors_text _)|]; by intros [= <- _].
Qed.

End Preserves.

(** A [get] that returns with the cache in use leaves the value in the
    cache. *)
Lemma get_fulfilled_cached (remote : backend) (s : string) (options : jsobj)
    (w : world) (value : jsval) :
  s <> "" ->
  config_cache (config (vault w)) = true ->
  strict_ne_false (prop options "useCache") = true ->
  (run remote (get (JStr s) options) w).2 = Fulfilled value ->
  cache (vault (run remote (get (JStr s) options) w).1) !! ("secret:" +:+ s)
  = Some value.
Proof.
  intros Hs Hon Huse. rewrite run_get by done. cbv zeta.
  rewrite Huse, andb_true_l.
  destruct (truthy (_isCacheValid (vault w) (now w) ("secret:" +:+ s))) eqn:Hhit.
  - apply isCacheValid_true in Hhit as (_ & [v Hv] & _).
    cbn [fst snd]. unfold prop. rewrite Hv. by intros [= <-].
  - pose proof (makeRequest_vault remote ("/key/" +:+ encodeURIComponent s) ∅ w) as Hv.
    destruct (run remote (_makeRequest _ ∅) w) as [w1 [data|e]];
      cbn [fst snd] in *; [|discriminate].
    destruct (get_prop data "value") as [v|e]; cbn [fst snd]; [|discriminate].
    intros [= <-]. unfold _setCache. rewrite Hv, Hon. simpl.
    apply lookup_insert_eq.
Qed.

(** X19.  [getCacheStats] is an inventory, not a view of what is valid: on
    an instance with the cache enabled, after a [get] that returned with the
    cache in use, the statistics list the entry of the key, their [size] is
    the number of keys listed and at least one, their [ttl] is the configured
    one, and the entry stays listed at clock readings where the lookup finds
    it expired; after [clearCache()] they report size 0 and no key. *)
Theorem stats_are_an_inventory (remote : backend) (s : string)
    (options : jsobj) (w : world) (value : jsval) :
  s <> "" ->
  config_cache (config (vault w)) = true ->
  strict_ne_false (prop options "useCache") = true ->
  let g := run remote (get (JStr s) options) w in
  g.2 = Fulfilled value ->
  let st := getCacheStats (vault g.1) in
  enabled st = true
  /\ stats_ttl st = Some (cacheTTL (config (vault w)))
  /\ (exists keys,
        stats_keys st = Some keys
        /\ "secret:" +:+ s ∈ keys
        /\ stats_size st = Some (size keys)
        /\ (1 <= size keys)%nat)
  /\ (forall t storedAt,
        cacheTimestamps (vault g.1) !! ("secret:" +:+ s) = Some storedAt ->
        cacheTTL (config (vault w)) <= t - storedAt ->
        truthy (_isCacheValid (vault g.1) t ("secret:" +:+ s)) = false)
  /\ getCacheStats (clearCache (vault g.1))
     = {| enabled := true; stats_size := Some 0%nat;
          stats_ttl := Some (cacheTTL (config (vault w)));
          stats_keys := Some ∅ |}.
Proof.
  intros Hs Hon Huse g Hg st.
  pose proof (get_fulfilled_cached remote s options w value Hs Hon Huse Hg) as Hc.
  pose proof (get_config remote (JStr s) options w) as Hcfg.
  fold g in Hc, Hcfg.
  assert (Hon' : config_cache (config (vault g.1)) = true) by (by rewrite Hcfg).
  unfold st, getCacheStats. rewrite Hon'. cbn [negb enabled stats_ttl stats_keys stats_size].
  split; [done|]. split; [by rewrite Hcfg|]. split; [|split].
  - exists (dom (cache (vault g.1))).
    assert (Hin : "secret:" +:+ s ∈ dom (cache (vault g.1))).
    { apply elem_of_dom. by rewrite Hc. }
    split; [done|]. split; [exact Hin|]. split; [by rewrite size_dom|].
    destruct (decide (size (dom (cache (vault g.1))) = 0%nat)) as [H0|H0]; [|lia].
    apply size_empty_inv in H0. apply leibniz_equiv in H0. rewrite H0 in Hin.
    by apply not_elem_of_empty in Hin.
  - intros t storedAt Hts Hexp. apply not_true_is_false.
    rewrite isCacheValid_true. rewrite Hcfg.
    intros (_ & _ & ts & Hts' & _ & Hlt). simplify_eq. lia.
  - unfold clearCache. rewrite Hon'. cbn [config set_cache negb cache].
    rewrite Hon'. cbn [negb]. by rewrite Hcfg, map_size_empty, dom_empty_L.
Qed.

Lemma stats_are_an_inventory_witness :
  let remote := always 200 "OK" (Parsed (JObj {[ "value" := JStr "s3cret" ]})) in
  let g := run remote (get (JStr "API_KEY") ∅) example_world in
  (config_cache (config (vault example_world)) = true
   /\ g.2 = Fulfilled (JStr "s3cret"))
  /\ getCacheStats (vault g.1)
     = {| enabled := true; stats_size := Some 1%nat; stats_ttl := Some 300000;
          stats_keys := Some {[ "secret:API_KEY" ]} |}
  /\ exists keys,
       stats_keys (getCacheStats (vault g.1)) = Some keys
       /\ "secret:API_KEY" ∈ keys.
Proof.
  intros remote g.
  assert (Hg : g.2 = Fulfilled (JStr "s3cret")) by (vm_compute; reflexivity).
  split; [split; [reflexivity | exact Hg]|].
  destruct (stats_are_an_inventory remote "API_KEY" ∅ example_world (JStr "s3cret"))
    as (_ & _ & (keys & Hk & Hin & _) & _); [done | reflexivity | reflexivity | exact Hg |].
  split; [vm_compute; reflexivity|].
  exists keys. split; [exact Hk | exact Hin].
Defined.

(** X20.  Starting from an instance whose two maps have the same keys,
    every operation ([get], [getAll], [exists], [getVaultInfo], [getMany],
    [clearCache]) leaves an instance with the same key, the same
    configuration, and two maps that still have the same keys: a value is
    never stored without its timestamp. *)
Theorem operations_keep_the_instance_consistent (remote : backend) (w : world) :
  dom (cache (vault w)) = dom (cacheTimestamps (vault w)) ->
  let consistent (v : Vault) :=
    apiKey v = apiKey (vault w) /\ config v = config (vault w)
    /\ dom (cache v) = dom (cacheTimestamps v) in
  (forall key options, consistent (vault (run remote (get key options) w).1))
  /\ (forall options, consistent (vault (run remote (getAll options) w).1))
  /\ (forall key, consistent (vault (run remote (exists_ key) w).1))
  /\ consistent (vault (run remote getVaultInfo w).1)
  /\ (forall keys options w' r,
        getMany remote keys options w = Some (w', r) -> consistent (vault w'))
  /\ consistent (clearCache (vault w)).
Proof.
  intros Hdom consistent.
  assert (Hset : forall v t k value,
            consistent v -> consistent (_setCache v t k value)).
  { intros v t k value (Ha & Hc & Hd). unfold consistent, _setCache.
    destruct (negb _); [done|]. simpl. repeat split; auto.
    by rewrite !dom_insert_L, Hd. }
  assert (H0 : consistent (vault w)) by done.
  split; [|split; [|split; [|split; [|split]]]].
  - intros key options. apply run_preserves; [by apply preserves_get | exact H0].
  - intros options. apply run_preserves; [by apply preserves_getAll | exact H0].
  - intros key. apply run_preserves; [by apply preserves_exists | exact H0].
  - apply run_preserves; [apply preserves_makeRequest | exact H0].
  - intros keys options w' r. by apply getMany_preserves.
  - unfold consistent, clearCache. destruct (config_cache _); [|done].
    simpl. by rewrite !dom_empty_L.
Qed.

Lemma operations_keep_the_instance_consistent_witness :
  let remote := secrets_backend "https://vault.test/api" [("a", JStr "A")] in
  dom (cache (vault example_world)) = dom (cacheTimestamps (vault example_world))
  /\ forall w' r,
       getMany remote (JArr [JStr "a"; JStr "b"]) ∅ example_world = Some (w', r) ->
       config (vault w') = example_config
       /\ dom (cache (vault w')) = dom (cacheTimestamps (vault w')).
Proof.
  intros remote.
  assert (H0 : dom (cache (vault example_world))
               = dom (cacheTimestamps (vault example_world))).
  { simpl. by rewrite !dom_empty_L. }
  split; [exact H0|]. intros w' r Hrun.
  destruct (operations_keep_the_instance_consistent remote example_world H0)
    as (_ & _ & _ & _ & Hmany & _).
  destruct (Hmany _ _ _ _ Hrun) as (_ & Hc & Hd). by split.
Defined.

(** X21.  No operation other than [clearCache] ever removes a cache entry:
    after [get], [getAll], [exists], [getVaultInfo] or [getMany] every key
    that had a value still has one, expired or not. *)
Theorem reads_never_evict (remote : backend) (w : world) :
  let kept (v : Vault) := dom (cache (vault w)) ⊆ dom (cache v) in
  (forall key options, kept (vault (run remote (get key options) w).1))
  /\ (forall options, kept (vault (run remote (getAll options) w).1))
  /\ (forall key, kept (vault (run remote (exists_ key) w).1))
  /\ kept (vault (run remote getVaultInfo w).1)
  /\ (forall keys options w' r,
        getMany remote keys options w = Some (w', r) -> kept (vault w')).
Proof.
  intros kept.
  assert (Hset : forall v t k value, kept v -> kept (_setCache v t k value)).
  { intros v t k value Hk. unfold kept, _setCache.
    destruct (negb _); [done|]. simpl. rewrite dom_insert_L.
    unfold kept in Hk. set_solver. }
  assert (H0 : kept (vault w)) by (unfold kept; set_solver).
  split; [|split; [|split; [|split]]].
  - intros key options. apply run_preserves; [by apply preserves_get | exact H0].
  - intros options. apply run_preserves; [by apply preserves_getAll | exact H0].
  - intros key. apply run_preserves; [by apply preserves_exists | exact H0].
  - apply run_preserves; [apply preserves_makeRequest | exact H0].
  - intros keys options w' r. by apply getMany_preserves.
Qed.

(** ** Batch retrieval: small and cached batches *)

(** X22.  [getMany] of the empty array returns the empty object [{}] and
    leaves the world as it was, so it sends no request, with or without
    [failOnMissing]. *)
Theorem getMany_empty (remote : backend) (options : jsobj) (w : world) :
  getMany remote (JArr []) options w = Some (w, Fulfilled empty_object).
Proof.
  unfold getMany, allSettled, getMany_events. simpl.
  by destruct (truthy (prop options "failOnMissing")).
Qed.

(** X23.  [getMany] of one key does exactly what [get] of that key does to
    the world, and wraps its outcome.  The value that [get] returned is
    assigned to [{}] under the key, a string; the assignment defines that one
    own property, but for the key [__proto__], where it defines none.  When
    [get] failed: with [failOnMissing] the error is "Failed to retrieve
    secrets: <key>: <message of the error of get>", or the [TypeError] of the
    conversion for a key that does not convert to a string; without, [null]
    is assigned under the name of the key, and nothing for a key that does
    not convert. *)
Theorem getMany_of_one_key (remote : backend) (key : jsval) (options : jsobj)
    (w : world) :
  let g := run remote (get key options) w in
  exists r,
    getMany remote (JArr [key]) options w = Some (g.1, r)
    /\ (forall value, g.2 = Fulfilled value ->
          exists s, key = JStr s
            /\ r = Fulfilled (assign empty_object s value))
    /\ (forall e, g.2 = Rejected e ->
          r = match ToString key with
              | Some p =>
                  if truthy (prop options "failOnMissing")
                  then Rejected (new_Error ("Failed to retrieve secrets: "
                                            +:+ p +:+ ": " +:+ message e))
                  else Fulfilled (assign empty_object p JNull)
              | None =>
                  if truthy (prop options "failOnMissing")
                  then Rejected TypeError_convert
                  else Fulfilled empty_object
              end)
    /\ (forall p v, p <> "__proto__" ->
          assign empty_object p v
          = {| own := {[ p := v ]}; proto := Object_prototype |})
    /\ (forall v, own (assign empty_object "__proto__" v) = ∅).
Proof.
  intros g. rewrite getMany_single. cbv zeta. fold g.
  eexists. split; [reflexivity|]. split; [|split; [|split]].
  - intros value Hg. rewrite Hg.
    destruct key as [| |b|n|s|l|o];
      try (unfold g in Hg; rewrite run_get_invalid in Hg by (intros; discriminate);
           discriminate).
    exists s. by split.
  - intros e ->. by destruct (ToString key).
  - intros p v Hp. unfold assign.
    by rewrite (bool_decide_eq_false_2 (p = "__proto__")) by done.
  - intros v. by apply assign_proto_defines_nothing.
Qed.

Section CachedBatch.

Variable remote : backend.

Lemma advance_get_hit (s : string) (options : jsobj) (w : world) :
  s <> "" ->
  strict_ne_false (prop options "useCache") = true ->
  truthy (_isCacheValid (vault w) (now w) ("secret:" +:+ s)) = true ->
  advance remote (get (JStr s) options) w
  = (w, Done (Fulfilled (prop (cache (vault w)) ("secret:" +:+ s)))).
Proof.
  intros Hs Huse Hhit. unfold get.
  assert (Hk : negb (truthy (JStr s))
               || negb (bool_decide (typeof (JStr s) = "string")) = false).
  { simpl. rewrite bool_decide_eq_false_2 by done. done. }
  rewrite Hk. cbv zeta. change (ToString (JStr s)) with (Some s). cbv iota beta.
  cbn [advance]. by rewrite Huse, Hhit.
Qed.

Lemma start_all_all_immediate {A : Type} (ts : list (Async A))
    (rs : list (settled A)) (i : nat) (w : world) :
  Forall2 (fun t r => advance remote t w = (w, Done r)) ts rs ->
  start_all remote ts i w = (w, (Done <$> rs, finished (Done <$> rs) i)).
Proof.
  intros H; revert i; induction H as [|t r ts rs Ht _ IH]; intros i; [done|].
  simpl. rewrite Ht. simpl. by rewrite IH.
Qed.

Lemma next_event_all_done {A : Type} (rs : list (settled A)) (i : nat) :
  next_event (A:=A) (Done <$> rs) i = None.
Proof. revert i; induction rs as [|r rs IH]; intros i; simpl; auto. Qed.

Lemma elem_of_finished_done {A : Type} (rs : list (settled A)) (i j : nat)
    (r : settled A) :
  (j, r) ∈ finished (Done <$> rs) i ->
  exists j', j = (i + j')%nat /\ rs !! j' = Some r.
Proof.
  revert i; induction rs as [|r0 rs IH]; intros i; simpl; [by intros ?%elem_of_nil|].
  intros [[= -> ->]|Hin]%elem_of_cons.
  - exists 0%nat. split; [lia | done].
  - destruct (IH _ Hin) as (j' & -> & Hl). exists (S j'). split; [lia | done].
Qed.

Lemma finished_done_lookup {A : Type} (rs : list (settled A)) (i j : nat)
    (r : settled A) :
  rs !! j = Some r -> ((i + j)%nat, r) ∈ finished (Done <$> rs) i.
Proof.
  revert i j; induction rs as [|r0 rs IH]; intros i j; [done|].
  destruct j as [|j]; simpl.
  - intros [= ->]. rewrite Nat.add_0_r. apply list_elem_of_here.
  - intros Hl. apply list_elem_of_further.
    replace (i + S j)%nat with (S i + j)%nat by lia. by apply IH.
Qed.

End CachedBatch.

(** X24.  When every key of the array is a non-empty string whose cache
    entry is valid, and the cache is in use, [getMany] leaves the world as it
    was, so it sends no request, and returns an object whose own properties
    are named by requested keys only and hold, for each requested key other
    than [__proto__], its cached value. *)
Theorem getMany_from_cache (remote : backend) (keys : list jsval)
    (options : jsobj) (w : world) :
  strict_ne_false (prop options "useCache") = true ->
  (forall key, key ∈ keys ->
     exists s, key = JStr s /\ s <> ""
       /\ truthy (_isCacheValid (vault w) (now w) ("secret:" +:+ s)) = true) ->
  exists results,
    getMany remote (JArr keys) options w = Some (w, Fulfilled results)
    /\ (forall s, JStr s ∈ keys -> s <> "__proto__" ->
          own results !! s = Some (prop (cache (vault w)) ("secret:" +:+ s)))
    /\ (forall p, is_Some (own results !! p) -> JStr p ∈ keys).
Proof.
  intros Huse Hall.
  set (hit := fun key : jsval =>
         match key with
         | JStr s => Fulfilled (prop (cache (vault w)) ("secret:" +:+ s))
         | _ => Fulfilled JUndefined
         end).
  set (rs := map hit keys).
  assert (Hstart : start_all remote (map (fun key => get key options) keys) 0 w
                   = (w, (Done <$> rs, finished (Done <$> rs) 0))).
  { apply start_all_all_immediate. unfold rs.
    apply Forall2_fmap, Forall_Forall2_diag, Forall_forall.
    intros key Hin. destruct (Hall key Hin) as (s & -> & Hs & Hv).
    by apply advance_get_hit. }
  set (log := finished (Done <$> rs) 0).
  assert (Hrun : allSettled remote (getMany_events w (length keys))
                   (map (fun key => get key options) keys) w = Some (w, log)).
  { unfold allSettled. rewrite Hstart. cbn [fst snd].
    destruct (getMany_events w (length keys)); simpl;
      by rewrite next_event_all_done. }
  assert (Hlog : forall j r, (j, r) ∈ log ->
            exists key, keys !! j = Some key /\ r = hit key).
  { intros j r Hin. apply elem_of_finished_done in Hin as (j' & -> & Hl).
    unfold rs in Hl. rewrite list_lookup_fmap in Hl.
    destruct (keys !! j') as [key|] eqn:Hk; [|done].
    injection Hl as <-. eauto. }
  assert (Hnofail : failures keys log = []).
  { unfold failures. apply list_eq. intros i. rewrite lookup_nil.
    apply eq_None_not_Some. intros [x Hx].
    apply list_elem_of_lookup_2, list_elem_of_omap in Hx as ([j r] & Hin & Hf).
    destruct (Hlog j r Hin) as (key & Hk & ->). simpl in Hf.
    by destruct key. }
  set (fm := truthy (prop options "failOnMissing")).
  exists (collect fm keys log).1. split; [|split].
  - unfold getMany. rewrite Hrun. fold fm. rewrite collect_errors, Hnofail.
    + by destruct fm.
    + intros i value key _ Hk.
      destruct (Hall key) as (s & -> & _); [by eapply list_elem_of_lookup_2|].
      by eexists.
  - intros s Hin Hs. apply list_elem_of_lookup_1 in Hin as [i Hi].
    apply collect_agree; [done | by right | |].
    + intros j key r Hj Hk Hn.
      destruct (Hlog j r Hj) as (key' & Hk' & ->). simplify_eq.
      destruct (Hall key) as (s' & -> & _); [by eapply list_elem_of_lookup_2|].
      simpl in Hn. by injection Hn as ->.
    + exists i, (JStr s), (hit (JStr s)). split; [|done].
      apply (finished_done_lookup rs 0 i). unfold rs.
      by rewrite list_lookup_fmap, Hi.
  - intros p [v Hv].
    destruct (collect_origin fm keys log p v Hv) as (j & key & r & Hk & Hn & _).
    destruct (Hall key) as (s & -> & _); [by eapply list_elem_of_lookup_2|].
    simpl in Hn. injection Hn as ->. by eapply list_elem_of_lookup_2.
Qed.

Lemma getMany_from_cache_witness :
  let w := {| vault := cached_vault; now := 1700000000000 + 5; trace := [] |} in
  ((forall key, key ∈ [JStr "API_KEY"; JStr "API_KEY"] ->
      exists s, key = JStr s /\ s <> ""
        /\ truthy (_isCacheValid (vault w) (now w) ("secret:" +:+ s)) = true))
  /\ exists results,
       getMany too_slow (JArr [JStr "API_KEY"; JStr "API_KEY"]) ∅ w
       = Some (w, Fulfilled results)
       /\ own results !! "API_KEY" = Some (JStr "s3cret").
Proof.
  intros w.
  assert (H : forall key, key ∈ [JStr "API_KEY"; JStr "API_KEY"] ->
            exists s, key = JStr s /\ s <> ""
              /\ truthy (_isCacheValid (vault w) (now w) ("secret:" +:+ s)) = true).
  { intros key Hin. exists "API_KEY".
    assert (key = JStr "API_KEY") as ->.
    { apply elem_of_cons in Hin as [Hk|Hin]; [exact Hk|].
      by apply list_elem_of_singleton in Hin. }
    split; [done|]. split; [done|]. vm_compute. reflexivity. }
  split; [exact H|].
  destruct (getMany_from_cache too_slow [JStr "API_KEY"; JStr "API_KEY"] ∅ w)
    as (results & Hget & Hval & _); [reflexivity | exact H |].
  exists results. split; [exact Hget|].
  rewrite (Hval "API_KEY");
    [vm_compute; reflexivity | apply list_elem_of_here | done].
Defined.

(** ** Batch retrieval: each key gets what its own call returns *)

Section Yields.

Variable remote : backend.
Variable this : Vault.
Hypothesis remote_stateless : stateless remote.

Lemma yields_run {A : Type} (t : Async A) (r : settled A) (w : world) :
  yields remote this t r ->
  apiKey (vault w) = apiKey this -> config (vault w) = config this ->
  (run remote t w).2 = r.
Proof.
  intros H; revert w; induction H as
    [a|e|k r _ IH|k r _ IH|v k r Hk Hc _ IH|url init tmo k r _ IH|ms k r _ IH];
    intros w Hkey Hcfg; simpl; auto.
  rewrite (remote_stateless _ 0%nat). by apply IH.
Qed.

Lemma yields_advance {A : Type} (t : Async A) (r : settled A) (w : world) :
  yields remote this t r ->
  apiKey (vault w) = apiKey this -> config (vault w) = config this ->
  (apiKey (vault (advance remote t w).1) = apiKey this
   /\ config (vault (advance remote t w).1) = config this)
  /\ destined remote this r (advance remote t w).2.
Proof.
  intros H; revert w; induction H as
    [a|e|k r _ IH|k r _ IH|v k r Hk Hc _ IH|url init tmo k r Hy _|ms k r Hy _];
    intros w Hkey Hcfg; simpl; auto.
  split; [done|]. by rewrite (remote_stateless _ 0%nat).
Qed.

Lemma yields_of_settled {A : Type} (s : settled A) :
  yields remote this (of_settled s) s.
Proof. destruct s; constructor. Qed.

Lemma yields_bind {A B : Type} (m : Async A) (f : A -> Async B)
    (r0 : settled A) (r : settled B) :
  yields remote this m r0 ->
  match r0 with
  | Fulfilled a => yields remote this (f a) r
  | Rejected e => r = Rejected e
  end ->
  yields remote this (m ≫= f) r.
Proof.
  intros H; induction H as
    [a|e|k r0 _ IH|k r0 _ IH|v k r0 Hk Hc _ IH|url init tmo k r0 _ IH|ms k r0 _ IH];
    intros Hf; unfold mbind, Async_bind in *; simpl.
  - exact Hf.
  - subst r. constructor.
  - constructor. intros t. by apply IH.
  - constructor. intros v Hk Hc. by apply IH.
  - constructor; auto.
  - constructor. by apply IH.
  - constructor. by apply IH.
Qed.

Lemma yields_try_catch {A : Type} (m : Async A) (h : error -> Async A)
    (r0 r : settled A) :
  yields remote this m r0 ->
  match r0 with
  | Fulfilled a => r = Fulfilled a
  | Rejected e => yields remote this (h e) r
  end ->
  yields remote this (try_catch m h) r.
Proof.
  intros H; induction H as
    [a|e|k r0 _ IH|k r0 _ IH|v k r0 Hk Hc _ IH|url init tmo k r0 _ IH|ms k r0 _ IH];
    intros Hf; simpl.
  - subst r. constructor.
  - exact Hf.
  - constructor. intros t. by apply IH.
  - constructor. intros v Hk Hc. by apply IH.
  - constructor; auto.
  - constructor. by apply IH.
  - constructor. by apply IH.
Qed.

Lemma attempts_unfold (url : string) (init : jsobj) (tmo : Z) (rem att : nat) :
  attempts url init tmo rem att =
  try_catch
    (Fetch url init tmo (fun r => of_settled (try_body r)))
    (fun error =>
       if client_error error then Throw error
       else
         match rem with
         | O => Throw error
         | S rem' =>
             Sleep (backoff att) (attempts url init tmo rem' (S att))
         end).
Proof. by destruct rem. Qed.

Lemma yields_attempts (url : string) (init : jsobj) (tmo : Z) (rem att : nat) :
  exists r, yields remote this (attempts url init tmo rem att) r.
Proof.
  revert att; induction rem as [|rem IH]; intros att;
    rewrite attempts_unfold;
    assert (Hf : yields remote this
                   (Fetch url init tmo (fun r => of_settled (try_body r)))
                   (try_body (settle tmo (remote 0%nat (url, init)))))
      by (constructor; apply yields_of_settled);
    destruct (try_body (settle tmo (remote 0%nat (url, init)))) as [v|e].
  - exists (Fulfilled v). by eapply yields_try_catch.
  - exists (Rejected e). eapply yields_try_catch; [exact Hf|].
    cbv beta iota. destruct (client_error e); apply y_Throw.
  - exists (Fulfilled v). by eapply yields_try_catch.
  - destruct (client_error e) eqn:Hc.
    + exists (Rejected e). eapply yields_try_catch; [exact Hf|].
      cbv beta iota. rewrite Hc. apply y_Throw.
    + destruct (IH (S att)) as [r Hr]. exists r.
      eapply yields_try_catch; [exact Hf|].
      cbv beta iota. rewrite Hc. by apply y_Sleep.
Qed.

Lemma requestOptions_same (v : Vault) (options : jsobj) :
  apiKey v = apiKey this -> config v = config this ->
  requestOptions v options = requestOptions this options.
Proof.
  intros Hk Hc. unfold requestOptions, default_headers. by rewrite Hk, Hc.
Qed.

Lemma yields_makeRequest (endpoint : string) (options : jsobj) :
  exists r, yields remote this (_makeRequest endpoint options) r.
Proof.
  destruct (yields_attempts (apiUrl (config this) +:+ endpoint)
              (requestOptions this options) (timeout (config this))
              (retries (config this)) 0) as [r Hr].
  exists r. unfold _makeRequest. constructor. intros v Hk Hc.
  rewrite (requestOptions_same v) by done. by rewrite Hc.
Qed.


Lemma setCache_same (v : Vault) (t : Z) (key : string) (value : jsval) :
  apiKey (_setCache v t key value) = apiKey v
  /\ config (_setCache v t key value) = config v.
Proof. unfold _setCache. by destruct (negb _). Qed.

(** The part of [get] after a cache miss. *)
Lemma yields_get_miss (name : string) (useCache : bool) :
  exists r,
    yields remote this
      (try_catch
         (data ← _makeRequest ("/key/" +:+ encodeURIComponent name) ∅;
          value ← of_settled (get_prop data "value");
          if useCache then
            This (fun this => DateNow (fun now =>
              SetThis (_setCache this now ("secret:" +:+ name) value) (Ret value)))
          else Ret value)
         (fun error =>
            if bool_decide (status error = Some 404) then
              Throw (new_Error ("Secret with key '" +:+ name +:+ "' not found"))
            else Throw error)) r.
Proof.
  destruct (yields_makeRequest ("/key/" +:+ encodeURIComponent name) ∅)
    as [[data|e] Hr].
  - destruct (get_prop data "value") as [value|e] eqn:Hv.
    + exists (Fulfilled value).
      apply (yields_try_catch _ _ (Fulfilled value)); [|done].
      eapply yields_bind; [exact Hr|]. cbv beta iota.
      eapply yields_bind; [apply yields_of_settled|]. rewrite Hv.
      destruct useCache; [|constructor].
      constructor. intros v Hk Hc. constructor. intros t.
      destruct (setCache_same v t ("secret:" +:+ name) value) as [Hk' Hc'].
      constructor; [congruence | congruence | constructor].
    + exists (Rejected (if bool_decide (status e = Some 404)
                        then new_Error ("Secret with key '" +:+ name
                                        +:+ "' not found")
                        else e)).
      apply (yields_try_catch _ _ (Rejected e)).
      * eapply yields_bind; [exact Hr|]. cbv beta iota.
        eapply yields_bind; [apply yields_of_settled|]. by rewrite Hv.
      * cbv beta iota. destruct (bool_decide _); apply y_Throw.
  - exists (Rejected (if bool_decide (status e = Some 404)
                      then new_Error ("Secret with key '" +:+ name
                                      +:+ "' not found")
                      else e)).
    apply (yields_try_catch _ _ (Rejected e)).
    + eapply yields_bind; [exact Hr|]. done.
    + cbv beta iota. destruct (bool_decide _); apply y_Throw.
Qed.

Lemma advance_now {A : Type} (t : Async A) (w : world) :
  now (advance remote t w).1 = now w.
Proof.
  revert w; induction t as [a|e|k IH|k IH|v k IH|url init tmo k IH|ms k IH];
    intros w; simpl; auto.
  by rewrite IH.
Qed.

Lemma advance_bind {A B : Type} (m : Async A) (f : A -> Async B) (w : world) :
  advance remote (m ≫= f) w =
  match (advance remote m w).2 with
  | Done (Fulfilled a) => advance remote (f a) (advance remote m w).1
  | Done (Rejected e) => ((advance remote m w).1, Done (Rejected e))
  | Blocked wake t => ((advance remote m w).1, Blocked wake (t ≫= f))
  end.
Proof.
  unfold mbind, Async_bind.
  revert w; induction m as [a|e|k IH|k IH|v k IH|url init tmo k IH|ms k IH];
    intros w; simpl; auto.
Qed.

Lemma advance_try_catch {A : Type} (m : Async A) (h : error -> Async A)
    (w : world) :
  advance remote (try_catch m h) w =
  match (advance remote m w).2 with
  | Done (Fulfilled a) => ((advance remote m w).1, Done (Fulfilled a))
  | Done (Rejected e) => advance remote (h e) (advance remote m w).1
  | Blocked wake t => ((advance remote m w).1, Blocked wake (try_catch t h))
  end.
Proof.
  revert w; induction m as [a|e|k IH|k IH|v k IH|url init tmo k IH|ms k IH];
    intros w; simpl; auto.
Qed.

(** The executor suspends at its first request and has written nothing by
    then. *)
Lemma advance_makeRequest (endpoint : string) (options : jsobj) (w : world) :
  exists wake t,
    advance remote (_makeRequest endpoint options) w
    = (log_call (apiUrl (config (vault w)) +:+ endpoint,
                 requestOptions (vault w) options) w,
       Blocked wake t).
Proof.
  unfold _makeRequest. cbn [advance]. rewrite attempts_unfold. simpl. eauto.
Qed.


(** A call of [get] started on the instance [this] at a given clock reading:
    whatever was requested before, it returns at once what [get] alone
    returns, or suspends bound to settle as that, and it has changed neither
    the instance nor the clock by then. *)
Lemma get_destined (key : jsval) (options : jsobj) (w0 w : world) :
  vault w0 = this -> vault w = this -> now w = now w0 ->
  vault (advance remote (get key options) w).1 = this
  /\ now (advance remote (get key options) w).1 = now w0
  /\ destined remote this (run remote (get key options) w0).2
              (advance remote (get key options) w).2.
Proof.
  intros Hv0 Hv Hn. split; [|split; [by rewrite advance_now|]].
  - (* the instance *)
    unfold get. destruct (_ || _); [done|]. cbv zeta.
    destruct (ToString key) as [name|]; [|done].
    cbn [advance]. destruct (_ && _); [done|].
    rewrite advance_try_catch, advance_bind.
    destruct (advance_makeRequest ("/key/" +:+ encodeURIComponent name) ∅ w)
      as (wake & t & ->).
    done.
  - (* the outcome *)
    unfold get. destruct (_ || _); [done|]. cbv zeta.
    destruct (ToString key) as [name|]; [|done].
    cbn [advance run]. rewrite Hv, Hv0, Hn.
    destruct (_ && _); [done|].
    destruct (yields_get_miss name (strict_ne_false (prop options "useCache")))
      as [r Hr].
    rewrite (yields_run _ r w0 Hr) by (by rewrite Hv0).
    apply yields_advance; [exact Hr | by rewrite Hv | by rewrite Hv].
Qed.

(** The synchronous start of a batch. *)
Lemma start_all_destined (keys : list jsval) (options : jsobj) (w0 w : world)
    (i : nat) :
  vault w0 = this -> vault w = this -> now w = now w0 ->
  let started := start_all remote (map (fun key => get key options) keys) i w in
  vault started.1 = this
  /\ Forall2 (destined remote this)
             (map (fun key => (run remote (get key options) w0).2) keys)
             started.2.1.
Proof.
  intros Hv0. revert i w; induction keys as [|key keys IH]; intros i w Hv Hn;
    simpl; [done|].
  destruct (get_destined key options w0 w Hv0 Hv Hn) as (Hv1 & Hn1 & Hd).
  destruct (IH (S i) (advance remote (get key options) w).1 Hv1 Hn1)
    as [Hv2 Hall].
  split; [exact Hv2|]. by constructor.
Qed.

Lemma finished_destined {A : Type} (rs : list (settled A)) (ts : list (task A))
    (i j : nat) (r : settled A) :
  Forall2 (destined remote this) rs ts ->
  (j, r) ∈ finished ts i ->
  exists j', j = (i + j')%nat /\ rs !! j' = Some r.
Proof.
  intros H; revert i; induction H as [|r0 st rs ts Hd _ IH]; intros i; simpl;
    [by intros ?%elem_of_nil|].
  destruct st as [wake t|r']; simpl in Hd.
  - intros Hin. destruct (IH _ Hin) as (j' & -> & Hl).
    exists (S j'). split; [lia | done].
  - intros [[= -> ->]|Hin]%elem_of_cons.
    + exists 0%nat. split; [lia | by subst].
    + destruct (IH _ Hin) as (j' & -> & Hl). exists (S j'). split; [lia | done].
Qed.

(** The event loop lets every task settle as it is bound to. *)
Lemma event_loop_destined {A : Type} (fuel : nat) (rs : list (settled A))
    (ts : list (task A)) (log log' : list (nat * settled A)) (w w' : world) :
  Forall2 (destined remote this) rs ts ->
  apiKey (vault w) = apiKey this -> config (vault w) = config this ->
  (forall j r, (j, r) ∈ log -> rs !! j = Some r) ->
  event_loop remote fuel ts log w = Some (w', log') ->
  forall j r, (j, r) ∈ log' -> rs !! j = Some r.
Proof.
  revert ts log w; induction fuel as [|fuel IH]; intros ts log w Hd Hk Hc Hlog;
    simpl; destruct (next_event ts 0) as [[[i wake] t]|] eqn:Hn;
    try (intros [= _ <-]; exact Hlog).
  apply next_event_Some in Hn as [_ Hl]. rewrite Nat.sub_0_r in Hl.
  destruct (Forall2_lookup_r _ _ _ _ _ Hd Hl) as (ri & Hri & Hy).
  simpl in Hy.
  destruct (yields_advance t ri (resume_at wake w) Hy Hk Hc) as [[Hk' Hc'] Hst].
  apply IH; auto.
  - rewrite <- (list_insert_id rs i ri Hri). by apply Forall2_insert.
  - intros j r [Hin|Hin]%elem_of_app; [by apply Hlog|].
    destruct (advance remote t (resume_at wake w)).2 as [wake' t'|r'];
      simpl in Hin; [by apply elem_of_nil in Hin|].
    apply list_elem_of_singleton in Hin as [= -> ->].
    simpl in Hst. by subst.
Qed.

(** Against a stateless backend, each call of a batch settles as [get] of
    its key alone does, from the world in which the batch starts. *)
Lemma allSettled_agrees (fuel : nat) (keys : list jsval) (options : jsobj)
    (w w' : world) (log : list (nat * settled jsval)) (i : nat) (key : jsval)
    (r : settled jsval) :
  vault w = this ->
  allSettled remote fuel (map (fun key => get key options) keys) w
  = Some (w', log) ->
  (i, r) ∈ log -> keys !! i = Some key ->
  r = (run remote (get key options) w).2.
Proof.
  intros Hv Hrun Hin Hk. unfold allSettled in Hrun.
  destruct (start_all_destined keys options w w 0 Hv Hv eq_refl) as [Hv1 Hd].
  cbv zeta in *.
  assert (Hfin : (start_all remote (map (fun key => get key options) keys) 0 w).2.2
                 = finished (start_all remote (map (fun key => get key options) keys) 0 w).2.1 0).
  { destruct (start_all_bound remote (config (vault w))
                (2 * S (retries (config (vault w))))
                (map (fun key => get key options) keys) 0 w) as (_ & _ & _ & H);
      [|done|exact H].
    apply Forall_forall. intros t Ht.
    apply list_elem_of_fmap in Ht as (key' & -> & _). apply suspends_get. }
  assert (Hloop : map (fun key => (run remote (get key options) w).2) keys !! i
                  = Some r).
  { eapply (event_loop_destined fuel _ _ _ log _ w' Hd); [| | |exact Hrun|exact Hin];
      [by rewrite Hv1..|].
    intros j r' Hj. rewrite Hfin in Hj.
    by destruct (finished_destined _ _ _ _ _ Hd Hj) as (j' & -> & Hl). }
  rewrite list_lookup_fmap, Hk in Hloop. by injection Hloop as <-.
Qed.

End Yields.

Lemma errors_text_strings (errors : list (string * string)) :
  errors_text (map (fun f => (JStr f.1, f.2)) errors)
  = Some (String.concat ", " (map (fun f => f.1 +:+ ": " +:+ f.2) errors)).
Proof.
  unfold errors_text.
  assert (H : mapM (fun e : jsval * string =>
                      (fun k => k +:+ ": " +:+ e.2) <$> ToString e.1)
                   (map (fun f : string * string => (JStr f.1, f.2)) errors)
              = Some (map (fun f => f.1 +:+ ": " +:+ f.2) errors)).
  { induction errors as [|f errors IH]; [done|].
    simpl. by rewrite IH. }
  by rewrite H.
Qed.

(** X28.  Against a backend whose reply depends on the request only, and
    for an array of strings: [getMany] gives every requested key other than
    [__proto__] an own property holding what [get] of that key alone returns
    from the same instance at the same time, or [null] where that [get]
    fails, and the object has no own property that was not requested, when
    [failOnMissing] is off or no key fails; with [failOnMissing], when a key
    fails, [getMany] throws one error whose message is "Failed to retrieve
    secrets: " followed by the entries "<key>: <message of the error of
    get>", separated by ", ", of exactly the keys whose [get] fails. *)
Theorem getMany_agrees_with_get (remote : backend) (names : list string)
    (options : jsobj) (w : world) :
  stateless remote ->
  let outcome (s : string) := (run remote (get (JStr s) options) w).2 in
  exists w' r,
    getMany remote (JArr (JStr <$> names)) options w = Some (w', r)
    /\ (truthy (prop options "failOnMissing") = false
        \/ (forall s, s ∈ names -> exists value, outcome s = Fulfilled value) ->
        exists results,
          r = Fulfilled results
          /\ (forall s, s ∈ names -> s <> "__proto__" ->
                own results !! s = Some (value_or_null (outcome s)))
          /\ (forall p, is_Some (own results !! p) -> p ∈ names))
    /\ (truthy (prop options "failOnMissing") = true ->
        (exists s e, s ∈ names /\ outcome s = Rejected e) ->
        exists failed : list (string * string),
          r = Rejected
                (new_Error
                   ("Failed to retrieve secrets: "
                    +:+ String.concat ", "
                          (map (fun f => f.1 +:+ ": " +:+ f.2) failed)))
          /\ (forall s reason,
                (s, reason) ∈ failed <->
                s ∈ names
                /\ exists e, outcome s = Rejected e /\ reason = message e)).
Proof.
  intros Hst outcome.
  set (keys := JStr <$> names).
  set (fm := truthy (prop options "failOnMissing")).
  destruct (getMany_settles remote keys options w) as (w' & log & Hrun & Hperm).
  assert (Hkeys : forall i key, keys !! i = Some key ->
            exists s, names !! i = Some s /\ key = JStr s).
  { intros i key Hk. unfold keys in Hk. rewrite list_lookup_fmap in Hk.
    destruct (names !! i) as [s|]; [|done]. injection Hk as <-. eauto. }
  assert (Hlog : forall i r s, (i, r) ∈ log -> names !! i = Some s ->
            r = outcome s).
  { intros i r s Hin Hs.
    apply (allSettled_agrees remote (vault w) Hst _ keys options w w' log i
             (JStr s) r eq_refl Hrun Hin).
    unfold keys. by rewrite list_lookup_fmap, Hs. }
  assert (Hall : forall s, s ∈ names -> exists i, names !! i = Some s
                   /\ (i, outcome s) ∈ log).
  { intros s [i Hi]%list_elem_of_lookup_1. exists i. split; [done|].
    destruct (settled_everywhere log (length keys) i Hperm) as [r Hin].
    { unfold keys. rewrite length_fmap. by eapply lookup_lt_Some. }
    by rewrite <- (Hlog i r s Hin Hi). }
  assert (Herr : (collect fm keys log).2 = if fm then failures keys log else []).
  { by apply (getMany_errors remote keys options w w'). }
  assert (Hfail : forall key reason, (key, reason) ∈ failures keys log <->
            exists s e, key = JStr s /\ s ∈ names /\ outcome s = Rejected e
                        /\ reason = message e).
  { intros key reason. split.
    - intros (i & e & Hk & Hin & ->)%failures_origin.
      destruct (Hkeys i key Hk) as (s & Hs & ->).
      exists s, e. split; [done|]. split; [by eapply list_elem_of_lookup_2|].
      split; [|done]. symmetry. by apply (Hlog i (Rejected e) s).
    - intros (s & e & -> & Hs & Ho & ->).
      destruct (Hall s Hs) as (i & Hi & Hin). rewrite Ho in Hin.
      apply (failures_elem keys log i); [|done].
      unfold keys. by rewrite list_lookup_fmap, Hi. }
  unfold getMany. rewrite Hrun. fold keys fm. cbv zeta. rewrite Herr.
  destruct fm eqn:Hfm.
  - (* failOnMissing *)
    destruct (decide (failures keys log = [])) as [Hfs|Hfs].
    + (* no call failed *)
      rewrite Hfs. simpl. eexists _, _. split; [reflexivity|]. split.
      * intros _. eexists. split; [reflexivity|]. split.
        -- intros s Hs Hp. destruct (Hall s Hs) as (i & Hi & Hin).
           apply collect_agree; [done | by right | |].
           ++ intros j key r Hj Hk Hn.
              destruct (Hkeys j key Hk) as (s' & Hs' & ->).
              simpl in Hn. injection Hn as ->. by rewrite (Hlog j r s Hj Hs').
           ++ exists i, (JStr s), (outcome s). split; [done|]. split; [|done].
              unfold keys. by rewrite list_lookup_fmap, Hi.
        -- intros p [v Hv].
           destruct (collect_origin true keys log p v Hv)
             as (j & key & r & Hk & Hn & _).
           destruct (Hkeys j key Hk) as (s & Hs & ->).
           simpl in Hn. injection Hn as <-. by eapply list_elem_of_lookup_2.
      * intros _ (s & e & Hs & Ho). exfalso.
        assert (Hin : (JStr s, message e) ∈ failures keys log).
        { apply Hfail. by exists s, e. }
        rewrite Hfs in Hin. by apply elem_of_nil in Hin.
    + (* some call failed *)
      set (failed := map (fun f : jsval * string =>
                            (match f.1 with JStr s => s | _ => "" end, f.2))
                         (failures keys log)).
      assert (Hback : failures keys log = map (fun f => (JStr f.1, f.2)) failed).
      { unfold failed.
        assert (Hstr : forall key reason, (key, reason) ∈ failures keys log ->
                  exists s, key = JStr s).
        { intros key reason (s & e & -> & _)%Hfail. eauto. }
        revert Hstr. generalize (failures keys log).
        induction l as [|[key reason] l IH]; intros Hstr; [done|].
        simpl. destruct (Hstr key reason) as [s ->]; [apply list_elem_of_here|].
        f_equal. apply IH. intros k r Hin. apply (Hstr k r).
        by apply list_elem_of_further. }
      assert (Hex : exists key reason, (key, reason) ∈ failures keys log).
      { destruct (failures keys log) as [|[key reason] fs]; [done|].
        exists key, reason. apply list_elem_of_here. }
      assert (Hlen : (0 <? Z.of_nat (length (failures keys log))) && true = true).
      { by destruct (failures keys log). }
      assert (Htext : errors_text (failures keys log)
                = Some (String.concat ", "
                          (map (fun f => f.1 +:+ ": " +:+ f.2) failed))).
      { transitivity (errors_text (map (fun f => (JStr f.1, f.2)) failed));
          [f_equal; exact Hback | apply errors_text_strings]. }
      rewrite Hlen, Htext.
      eexists _, _. split; [reflexivity|]. split.
      * intros [Hno|Hok]; [done|]. exfalso.
        destruct Hex as (key & reason & Hin).
        apply Hfail in Hin as (s & e & _ & Hs & Ho & _).
        destruct (Hok s Hs) as [value Hval]. congruence.
      * intros _ _. exists failed. split; [reflexivity|].
        intros s reason. split.
        -- intros Hin.
           assert (Hin' : (JStr s, reason) ∈ failures keys log).
           { rewrite Hback. apply list_elem_of_fmap. by exists (s, reason). }
           apply Hfail in Hin' as (s' & e & [= <-] & Hs & Ho & ->). eauto.
        -- intros (Hs & e & Ho & ->).
           assert (Hin' : (JStr s, message e) ∈ failures keys log).
           { apply Hfail. by exists s, e. }
           unfold failed. apply list_elem_of_fmap. by exists (JStr s, message e).
  - (* without failOnMissing *)
    simpl. eexists _, _. split; [reflexivity|]. split; [|done].
    intros _. eexists. split; [reflexivity|]. split.
    + intros s Hs Hp. destruct (Hall s Hs) as (i & Hi & Hin).
      apply collect_agree; [done | by left | |].
      * intros j key r Hj Hk Hn.
        destruct (Hkeys j key Hk) as (s' & Hs' & ->).
        simpl in Hn. injection Hn as ->. by rewrite (Hlog j r s Hj Hs').
      * exists i, (JStr s), (outcome s). split; [done|]. split; [|done].
        unfold keys. by rewrite list_lookup_fmap, Hi.
    + intros p [v Hv].
      destruct (collect_origin false keys log p v Hv)
        as (j & key & r & Hk & Hn & _).
      destruct (Hkeys j key Hk) as (s & Hs & ->).
      simpl in Hn. injection Hn as <-. by eapply list_elem_of_lookup_2.
Qed.

Lemma getMany_agrees_with_get_witness :
  let remote := secrets_backend "https://vault.test/api" [("a", JStr "A")] in
  stateless remote
  /\ (exists w' results,
        getMany remote (JArr [JStr "a"; JStr "b"]) ∅ example_world
        = Some (w', Fulfilled results)
        /\ own results !! "a" = Some (JStr "A")
        /\ own results !! "b" = Some JNull)
  /\ (exists w',
        getMany remote (JArr [JStr "a"; JStr "b"])
                {[ "failOnMissing" := JBool true ]} example_world
        = Some (w', Rejected (new_Error
             "Failed to retrieve secrets: b: Secret with key 'b' not found"))).
Proof.
  intros remote.
  assert (Hst : stateless remote) by (intros n m rq; reflexivity).
  split; [exact Hst|]. split.
  - destruct (getMany_agrees_with_get remote ["a"; "b"] ∅ example_world Hst)
      as (w' & r & Hget & Hres & _).
    destruct Hres as (results & -> & Hval & _); [by left|].
    exists w', results. split; [exact Hget|]. split.
    + rewrite (Hval "a"); [vm_compute; reflexivity | apply list_elem_of_here | done].
    + rewrite (Hval "b");
        [vm_compute; reflexivity
        | apply list_elem_of_further, list_elem_of_here | done].
  - destruct (getMany_agrees_with_get remote ["a"; "b"]
                {[ "failOnMissing" := JBool true ]} example_world Hst)
      as (w' & r & Hget & _).
    exists w'.
    assert (Hr : r = Rejected (new_Error
              "Failed to retrieve secrets: b: Secret with key 'b' not found")).
    { vm_compute in Hget. by injection Hget as _ <-. }
    rewrite <- Hr. exact Hget.
Defined.

(** ** Batch retrieval: the number of requests *)

Section Fetches.

Local Open Scope nat_scope.

Variable cfg : VaultConfig.

Lemma fetches_le_mono {A : Type} (n m : nat) (t : Async A) :
  fetches_le cfg n t -> n <= m -> fetches_le cfg m t.
Proof.
  intros H; revert m; induction H as
    [n a|n e|n k _ IH|n k _ IH|n v k Hv _ IH|n url init tmo k _ IH|n ms k _ IH];
    intros m Hle.
  - constructor.
  - constructor.
  - constructor. intros t. by apply IH.
  - constructor. intros v Hv. by apply IH.
  - constructor; [done|]. by apply IH.
  - destruct m as [|m]; [lia|]. constructor. intros r. apply IH. lia.
  - constructor. by apply IH.
Qed.

Lemma fetches_le_try_catch {A : Type} (n : nat) (t : Async A)
    (h : error -> Async A) :
  fetches_le cfg n t ->
  (forall e, fetches_le cfg 0 (h e)) ->
  fetches_le cfg n (try_catch t h).
Proof.
  intros H Hh; induction H as
    [n a|n e|n k _ IH|n k _ IH|n v k Hv _ IH|n url init tmo k _ IH|n ms k _ IH];
    simpl.
  - constructor.
  - apply fetches_le_mono with 0; [apply Hh | lia].
  - constructor. intros t. apply IH.
  - constructor. intros v Hv. by apply IH.
  - constructor; [done|]. apply IH.
  - constructor. intros r. apply IH.
  - constructor. apply IH.
Qed.

Lemma fetches_le_bind {A B : Type} (n : nat) (t : Async A) (f : A -> Async B) :
  fetches_le cfg n t ->
  (forall a, fetches_le cfg 0 (f a)) ->
  fetches_le cfg n (t ≫= f).
Proof.
  unfold mbind, Async_bind.
  intros H Hf; induction H as
    [n a|n e|n k _ IH|n k _ IH|n v k Hv _ IH|n url init tmo k _ IH|n ms k _ IH];
    simpl.
  - apply fetches_le_mono with 0; [apply Hf | lia].
  - constructor.
  - constructor. intros t. apply IH.
  - constructor. intros v Hv. by apply IH.
  - constructor; [done|]. apply IH.
  - constructor. intros r. apply IH.
  - constructor. apply IH.
Qed.

Lemma fetches_attempts (url : string) (init : jsobj) (tmo : Z) (rem att : nat) :
  fetches_le cfg (S rem) (attempts url init tmo rem att).
Proof.
  revert att; induction rem as [|rem IH]; intros att; simpl;
    constructor; intros r; destruct (try_body r) as [v|e]; simpl;
    try constructor; destruct (client_error e); constructor. apply IH.
Qed.

Lemma fetches_get (key : jsval) (options : jsobj) :
  fetches_le cfg (S (retries cfg)) (get key options).
Proof.
  unfold get. destruct (_ || _); [constructor|]. cbv zeta.
  destruct (ToString key) as [name|]; [|constructor].
  constructor. intros this Hthis. constructor. intros t.
  destruct (_ && _); [constructor|].
  apply fetches_le_try_catch.
  - apply fetches_le_bind.
    + unfold _makeRequest. constructor. intros v Hv. rewrite Hv.
      apply fetches_attempts.
    + intros data. apply (fetches_le_bind 0).
      * destruct (get_prop data "value"); constructor.
      * intros value. destruct (strict_ne_false _); [|constructor].
        constructor. intros this' Hthis'. constructor. intros t'.
        constructor; [|constructor]. by rewrite config_setCache.
  - intros e. destruct (bool_decide _); constructor.
Qed.

Variable remote : backend.

(** Running to the next [await] sends at most one request, and then the rest
    may send one fewer. *)
Lemma advance_fetches {A : Type} (n : nat) (t : Async A) (w : world) :
  fetches_le cfg n t ->
  config (vault w) = cfg ->
  config (vault (advance remote t w).1) = cfg
  /\ exists n',
       task_fetches_le cfg n' (advance remote t w).2
       /\ length (calls (advance remote t w).1) + n' <= length (calls w) + n.
Proof.
  intros H; revert w; induction H as
    [n a|n e|n k _ IH|n k _ IH|n v k Hv _ IH|n url init tmo k Hk _|n ms k Hk _];
    intros w Hw; simpl.
  - split; [done|]. exists 0. split; [done|]. lia.
  - split; [done|]. exists 0. split; [done|]. lia.
  - by apply IH.
  - by apply IH.
  - by apply (IH (set_vault v w)).
  - split; [done|]. exists n. split; [apply Hk|].
    rewrite calls_log_call, length_app. simpl. lia.
  - split; [done|]. exists n. split; [exact Hk|].
    rewrite calls_log_sleep. lia.
Qed.

Lemma event_loop_fetches {A : Type} (fuel : nat) (ts : list (task A))
    (ns : list nat) (log log' : list (nat * settled A)) (w w' : world) :
  Forall2 (task_fetches_le cfg) ns ts ->
  config (vault w) = cfg ->
  event_loop remote fuel ts log w = Some (w', log') ->
  length (calls w') <= length (calls w) + sum_list ns.
Proof.
  revert ts ns log w; induction fuel as [|fuel IH];
    intros ts ns log w Hns Hcfg; simpl;
    destruct (next_event ts 0) as [[[j wake] t]|] eqn:Hn;
    try discriminate; try (intros [= <- _]; lia).
  apply next_event_Some in Hn as [_ Hl]. rewrite Nat.sub_0_r in Hl.
  destruct (Forall2_lookup_r _ _ _ _ _ Hns Hl) as (n & Hnl & Hb).
  simpl in Hb.
  destruct (advance_fetches n t (resume_at wake w) Hb Hcfg)
    as (Hcfg' & n' & Hst & Hlen).
  intros Hrun.
  apply (IH _ (<[j:=n']> ns)) in Hrun; [|by apply Forall2_insert|exact Hcfg'].
  pose proof (sum_list_insert ns j n n' Hnl) as Hsum.
  change (calls (resume_at wake w)) with (calls w) in Hlen. lia.
Qed.

Lemma start_all_fetches {A : Type} (n : nat) (ts : list (Async A)) (i : nat)
    (w : world) :
  Forall (fetches_le cfg n) ts ->
  config (vault w) = cfg ->
  config (vault (start_all remote ts i w).1) = cfg
  /\ exists ns,
       Forall2 (task_fetches_le cfg) ns (start_all remote ts i w).2.1
       /\ length (calls (start_all remote ts i w).1) + sum_list ns
          <= length (calls w) + length ts * n.
Proof.
  revert i w; induction ts as [|t ts IH]; intros i w Hts Hcfg; simpl.
  - split; [done|]. exists []. split; [constructor | simpl; lia].
  - apply Forall_cons in Hts as [Ht Hts].
    destruct (advance_fetches n t w Ht Hcfg) as (Hcfg1 & n' & Hst & Hlen).
    destruct (IH (S i) (advance remote t w).1 Hts Hcfg1) as (Hcfg2 & ns & Hns & Hsum).
    split; [exact Hcfg2|]. exists (n' :: ns). split; [by constructor|].
    simpl. lia.
Qed.

End Fetches.

(** X25.  [getMany] of an array of [n] keys always completes, and never
    sends more than [n * (retries + 1)] requests, however the calls
    interleave. *)
Theorem getMany_request_bound (remote : backend) (keys : list jsval)
    (options : jsobj) (w : world) :
  exists w' r,
    getMany remote (JArr keys) options w = Some (w', r)
    /\ (length (calls w')
        <= length (calls w)
           + length keys * (retries (config (vault w)) + 1))%nat.
Proof.
  destruct (getMany_settles remote keys options w) as (w' & log & Hrun & _).
  assert (Hlen : (length (calls w')
                  <= length (calls w)
                     + length keys * (retries (config (vault w)) + 1))%nat).
  { unfold allSettled in Hrun.
    destruct (start_all_fetches (config (vault w)) remote
                (S (retries (config (vault w))))
                (map (fun key => get key options) keys) 0 w)
      as (Hcfg & ns & Hns & Hsum).
    - apply Forall_forall. intros t Hin.
      apply list_elem_of_fmap in Hin as (key & -> & _). apply fetches_get.
    - reflexivity.
    - pose proof (event_loop_fetches (config (vault w)) remote _ _ ns _ _ _ _
                    Hns Hcfg Hrun) as Hle.
      rewrite length_map in Hsum. lia. }
  unfold getMany. rewrite Hrun.
  destruct (_ && _); [destruct (errors_text _)|]; eexists _, _;
    (split; [reflexivity | exact Hlen]).
Qed.

(** ** How the operations compose *)

(** A [get] that returns with the cache in use, after the epoch, leaves an
    entry that later lookups find valid within the TTL. *)
Lemma get_fulfilled_entry (remote : backend) (s : string) (options : jsobj)
    (w : world) (value : jsval) :
  s <> "" ->
  config_cache (config (vault w)) = true ->
  strict_ne_false (prop options "useCache") = true ->
  0 < now w ->
  (run remote (get (JStr s) options) w).2 = Fulfilled value ->
  exists storedAt,
    cacheTimestamps (vault (run remote (get (JStr s) options) w).1)
      !! ("secret:" +:+ s) = Some storedAt
    /\ forall t,
         t - storedAt < cacheTTL (config (vault w)) ->
         truthy (_isCacheValid (vault (run remote (get (JStr s) options) w).1) t
                               ("secret:" +:+ s)) = true.
Proof.
  intros Hs Hon Huse Hpos Hg.
  pose proof (get_fulfilled_cached remote s options w value Hs Hon Huse Hg) as Hc.
  pose proof (get_config remote (JStr s) options w) as Hcfg.
  assert (Hts : exists storedAt,
            cacheTimestamps (vault (run remote (get (JStr s) options) w).1)
              !! ("secret:" +:+ s) = Some storedAt /\ storedAt <> 0).
  { revert Hg. rewrite run_get by done. cbv zeta. rewrite Huse, andb_true_l.
    destruct (truthy (_isCacheValid (vault w) (now w) ("secret:" +:+ s))) eqn:Hhit.
    - apply isCacheValid_true in Hhit as (_ & _ & ts & Hts & Hnz & _).
      cbn [fst snd]. eauto.
    - pose proof (makeRequest_vault remote ("/key/" +:+ encodeURIComponent s) ∅ w) as Hv.
      pose proof (run_now_mono remote (_makeRequest ("/key/" +:+ encodeURIComponent s) ∅) w) as Hm.
      destruct (run remote (_makeRequest _ ∅) w) as [w1 [data|e]];
        cbn [fst snd] in *; [|discriminate].
      destruct (get_prop data "value") as [v|e]; cbn [fst snd]; [|discriminate].
      intros _. unfold _setCache. rewrite Hv, Hon. simpl.
      rewrite lookup_insert_eq. exists (now w1). split; [done | lia]. }
  destruct Hts as (storedAt & Hts & Hnz).
  exists storedAt. split; [exact Hts|]. intros t Hlt.
  apply isCacheValid_true. rewrite Hcfg. repeat split; eauto.
Qed.

Lemma useCache_default : strict_ne_false (prop ∅ "useCache") = true.
Proof. reflexivity. Qed.

(** X26.  [exists] warms the cache: on an instance with the cache enabled,
    at a clock reading after the epoch, once [exists] has returned [true], a
    [get] of the same key within the TTL leaves the world as it is, so it
    sends no request, and returns the value that [exists] fetched. *)
Theorem exists_warms_the_cache (remote : backend) (s : string) (w : world) :
  s <> "" ->
  config_cache (config (vault w)) = true ->
  0 < now w ->
  let x := run remote (exists_ (JStr s)) w in
  x.2 = Fulfilled (JBool true) ->
  exists value storedAt,
    (run remote (get (JStr s) ∅) w).2 = Fulfilled value
    /\ cacheTimestamps (vault x.1) !! ("secret:" +:+ s) = Some storedAt
    /\ forall t2,
         t2 - storedAt < cacheTTL (config (vault w)) ->
         let w2 := {| vault := vault x.1; now := t2; trace := trace x.1 |} in
         run remote (get (JStr s) ∅) w2 = (w2, Fulfilled value).
Proof.
  intros Hs Hon Hpos x. unfold x. rewrite run_exists. cbv zeta.
  destruct (run remote (get (JStr s) ∅) w) as [w1 [value|e]] eqn:Hg;
    cbn [fst snd]; [|by destruct (_ || _)].
  intros _.
  destruct (get_fulfilled_entry remote s ∅ w value Hs Hon useCache_default Hpos)
    as (storedAt & Hts & Hvalid); [by rewrite Hg|].
  pose proof (get_fulfilled_cached remote s ∅ w value Hs Hon useCache_default) as Hc.
  rewrite Hg in Hts, Hvalid, Hc. cbn [fst snd] in *.
  exists value, storedAt. split; [done|]. split; [exact Hts|].
  intros t2 Hlt. rewrite run_get by done. cbv zeta.
  rewrite useCache_default, andb_true_l.
  cbn [vault now]. rewrite (Hvalid t2 Hlt).
  unfold prop. by rewrite Hc.
Qed.

Lemma exists_warms_the_cache_witness :
  let remote := always 200 "OK" (Parsed (JObj {[ "value" := JStr "s3cret" ]})) in
  let x := run remote (exists_ (JStr "API_KEY")) example_world in
  (x.2 = Fulfilled (JBool true) /\ 0 < now example_world)
  /\ exists storedAt,
       cacheTimestamps (vault x.1) !! "secret:API_KEY" = Some storedAt
       /\ (let w2 := {| vault := vault x.1; now := storedAt + 1000;
                        trace := trace x.1 |} in
           run too_slow (get (JStr "API_KEY") ∅) w2 = (w2, Fulfilled (JStr "s3cret"))).
Proof.
  intros remote x.
  assert (Hx : x.2 = Fulfilled (JBool true)) by (vm_compute; reflexivity).
  assert (H0 : 0 < now example_world) by reflexivity.
  split; [split; [exact Hx | exact H0]|].
  destruct (exists_warms_the_cache remote "API_KEY" example_world)
    as (value & storedAt & Hg & Hts & Hhit); [done | reflexivity | exact H0 | exact Hx |].
  exists storedAt. split; [exact Hts|].
  assert (Hv : value = JStr "s3cret").
  { vm_compute in Hg. by injection Hg as <-. }
  subst value. cbv zeta.
  specialize (Hhit (storedAt + 1000)). cbv zeta in Hhit.
  assert (Hlt : storedAt + 1000 - storedAt < cacheTTL (config (vault example_world)))
    by (simpl; lia).
  specialize (Hhit Hlt).
  vm_compute in Hts. injection Hts as <-.
  vm_compute. reflexivity.
Defined.


